(** * beets-yttitle: the title cleaner of [beetsplug/youtubetitle.py]

    A shallow embedding of the plugin and of the parts of Python's [re],
    [str] and [pathlib] it calls, followed by the properties of the
    specification.

    Conventions.
    - A Python [str] is a [list ascii]; a character is read as the code point
      U+0000..U+00FF it denotes.
    - A call that may raise returns an [option]; [None] stands for the
      exception.
    - [lru_cache] only memoises a pure function and is left out. *)

From Stdlib Require Import Ascii String List Bool Arith NArith Lia.
Import ListNotations.

Set Implicit Arguments.

(** ** Characters and strings *)

Definition pystr := list ascii.

Definition py (s : string) : pystr := list_ascii_of_string s.

Definition newline : ascii := ascii_of_N 10.

(** [Py_UNICODE_ISSPACE] below U+0100: it decides both [str.strip] and the
    [\s] category of [re]. *)
Definition is_space (c : ascii) : bool :=
  let n := N_of_ascii c in
  (((9 <=? n) && (n <=? 13)) || ((28 <=? n) && (n <=? 32))
   || (n =? 133) || (n =? 160))%N.

(** The simple lower-case mapping of Unicode below U+0100, which is what
    [re.IGNORECASE] compares on. *)
Definition tolower (c : ascii) : ascii :=
  let n := N_of_ascii c in
  if (((65 <=? n) && (n <=? 90))
      || ((192 <=? n) && (n <=? 222) && negb (n =? 215)))%N
  then ascii_of_N (n + 32) else c.

Definition char_eq (ignorecase : bool) (a b : ascii) : bool :=
  if ignorecase then Ascii.eqb (tolower a) (tolower b) else Ascii.eqb a b.

Fixpoint lstrip (s : pystr) : pystr :=
  match s with
  | c :: s' => if is_space c then lstrip s' else s
  | [] => []
  end.

Definition rstrip (s : pystr) : pystr := rev (lstrip (rev s)).

(** [str.strip()] *)
Definition strip (s : pystr) : pystr := rstrip (lstrip s).

Fixpoint startswith (p s : pystr) : bool :=
  match p, s with
  | [], _ => true
  | a :: p', b :: s' => Ascii.eqb a b && startswith p' s'
  | _ :: _, [] => false
  end.

(** [s.replace(old, new)] deletes or replaces every occurrence of [old],
    scanning from the left and never overlapping two of them.  [skip] counts
    the characters of an occurrence that are still to be dropped.  With an
    empty [old] Python inserts [new] before every character and at the end. *)
Fixpoint replace_scan (old new : pystr) (skip : nat) (s : pystr) : pystr :=
  match s with
  | [] => []
  | c :: s' =>
      match skip with
      | S k => replace_scan old new k s'
      | O => if startswith old s
             then new ++ replace_scan old new (length old - 1) s'
             else c :: replace_scan old new 0 s'
      end
  end.

Definition str_replace (s old new : pystr) : pystr :=
  match old with
  | [] => new ++ flat_map (fun c => c :: new) s
  | _ :: _ => replace_scan old new 0 s
  end.

(** ** Regular expressions: the fragment of [re] the plugin uses *)

Inductive cclass : Type :=
| CAny                      (* .   anything but a newline *)
| CSpace                    (* \s *)
| CLit (c : ascii)          (* a literal character *)
| CSet (cs : list ascii).   (* [...] of literal characters *)

Inductive regex : Type :=
| Eps
| Chr (c : cclass)
| Bol                                   (* ^ *)
| Eol                                   (* $ *)
| Cat (a b : regex)
| Alt (a b : regex)
| Opt (a : regex)                       (* a?   greedy *)
| Star (greedy : bool) (c : cclass)     (* c*  and  c*? *)
| Plus (greedy : bool) (c : cclass)     (* c+  and  c+? *)
| Group (name : string) (a : regex).    (* (?P<name>a) *)

Record pattern : Type := Pattern { ignorecase : bool; body : regex }.

Definition cclass_ok (ic : bool) (k : cclass) (x : ascii) : bool :=
  match k with
  | CAny => negb (Ascii.eqb x newline)
  | CSpace => is_space x
  | CLit c => char_eq ic c x
  | CSet cs => existsb (fun c => char_eq ic c x) cs
  end.

(** A position in the subject: the characters already consumed (last one
    first), those still ahead, and the text of the groups closed so far. *)
Record mstate : Type :=
  MState { consumed : pystr; ahead : pystr; groups : list (string * pystr) }.

Definition advance (x : ascii) (rest : pystr) (st : mstate) : mstate :=
  MState (x :: consumed st) rest (groups st).

(** All the ways [c*] can proceed, in the order the backtracking matcher of
    [re] tries them: longest first when greedy, shortest first when lazy. *)
Fixpoint run_star (greedy : bool) (ok : ascii -> bool)
    (done rest : pystr) (g : list (string * pystr)) : list mstate :=
  match rest with
  | x :: rest' =>
      if ok x then
        if greedy
        then run_star greedy ok (x :: done) rest' g ++ [MState done rest g]
        else MState done rest g :: run_star greedy ok (x :: done) rest' g
      else [MState done rest g]
  | [] => [MState done rest g]
  end.

Definition close_group (name : string) (st st' : mstate) : mstate :=
  let n := length (consumed st') - length (consumed st) in
  MState (consumed st') (ahead st')
         ((name, rev (firstn n (consumed st'))) :: groups st').

(** The list of successes of [r] from [st], most preferred first. *)
Fixpoint matches (ic : bool) (r : regex) (st : mstate) : list mstate :=
  match r with
  | Eps => [st]
  | Chr k =>
      match ahead st with
      | x :: rest => if cclass_ok ic k x then [advance x rest st] else []
      | [] => []
      end
  | Bol => match consumed st with [] => [st] | _ :: _ => [] end
  | Eol =>
      match ahead st with
      | [] => [st]
      | x :: [] => if Ascii.eqb x newline then [st] else []
      | _ :: _ :: _ => []
      end
  | Cat a b => flat_map (matches ic b) (matches ic a st)
  | Alt a b => matches ic a st ++ matches ic b st
  | Opt a => matches ic a st ++ [st]
  | Star greedy k =>
      run_star greedy (cclass_ok ic k) (consumed st) (ahead st) (groups st)
  | Plus greedy k =>
      match ahead st with
      | x :: rest =>
          if cclass_ok ic k x
          then run_star greedy (cclass_ok ic k) (x :: consumed st) rest
                        (groups st)
          else []
      | [] => []
      end
  | Group name a => map (close_group name st) (matches ic a st)
  end.

(** A match object, or [None] when the pattern does not match. *)
Definition first_match (p : pattern) (st : mstate) : option mstate :=
  hd_error (matches (ignorecase p) (body p) st).

(** [pattern.match(s)]: at the start of [s] only. *)
Definition re_match (p : pattern) (s : pystr) : option mstate :=
  first_match p (MState [] s []).

Fixpoint search_from (p : pattern) (done rest : pystr) : option mstate :=
  match first_match p (MState done rest []) with
  | Some m => Some m
  | None =>
      match rest with
      | x :: rest' => search_from p (x :: done) rest'
      | [] => None
      end
  end.

(** [pattern.search(s)]: the leftmost start that matches. *)
Definition re_search (p : pattern) (s : pystr) : option mstate :=
  search_from p [] s.

Fixpoint assoc (name : string) (g : list (string * pystr)) : option pystr :=
  match g with
  | (n, v) :: g' => if String.eqb n name then Some v else assoc name g'
  | [] => None
  end.

(** [match_obj.group(name)]; [None] when the group is unknown or did not
    take part in the match (Python raises [IndexError] in the first case and
    hands [None] on in the second, which [str.replace] rejects). *)
Definition group (m : mstate) (name : string) : option pystr :=
  assoc name (groups m).

(** ** [re.compile] and [re.escape]

    A recursive-descent reading of the pattern syntax, after [sre_parse]:
    alternatives of sequences of atoms, each atom with at most one
    quantifier.  Only the syntax the plugin writes is read; anything else
    ([re.error] included) is [None]. *)

Definition backslash : ascii := ascii_of_N 92.

Fixpoint strip_prefix (p s : pystr) : option pystr :=
  match p, s with
  | [], _ => Some s
  | a :: p', b :: s' => if Ascii.eqb a b then strip_prefix p' s' else None
  | _ :: _, [] => None
  end.

Definition is_alnum (c : ascii) : bool :=
  let n := N_of_ascii c in
  (((48 <=? n) && (n <=? 57)) || ((65 <=? n) && (n <=? 90))
   || ((97 <=? n) && (n <=? 122)))%N.

Definition is_repeat_char (c : ascii) : bool :=
  existsb (Ascii.eqb c) (py "*+?{").

Definition is_nil (A : Type) (l : list A) : bool :=
  match l with [] => true | _ :: _ => false end.

(** After a member [x] of a set: a following [-] is read only as the last
    member, just before the closing bracket. *)
Definition set_dash (x : ascii) (acc : list ascii) (rest : pystr)
  : option (option (list ascii * pystr)) :=
  match rest with
  | d :: rest1 =>
      if Ascii.eqb d "-" then
        match rest1 with
        | e :: rest2 =>
            if Ascii.eqb e "]"
            then Some (Some (rev ("-"%char :: x :: acc), rest2))
            else Some None
        | [] => Some None
        end
      else None
  | [] => Some None
  end.

(** The members of a set [[...]], up to and including the closing bracket.
    A backslash makes the next character literal. *)
Fixpoint parse_set (acc : list ascii) (inp : pystr)
  : option (list ascii * pystr) :=
  match inp with
  | [] => None
  | c :: rest =>
      if Ascii.eqb c "]" && negb (is_nil acc) then Some (rev acc, rest)
      else if Ascii.eqb c backslash then
        match rest with
        | x :: rest' =>
            if is_alnum x then None
            else match set_dash x acc rest' with
                 | Some r => r
                 | None => parse_set (x :: acc) rest'
                 end
        | [] => None
        end
      else match set_dash c acc rest with
           | Some r => r
           | None => parse_set (c :: acc) rest
           end
  end.

Definition is_name_char (c : ascii) : bool :=
  is_alnum c || Ascii.eqb c "_".

(** The name of [(?P<name>...)], up to and including [>]. *)
Fixpoint read_name (acc : list ascii) (inp : pystr)
  : option (string * pystr) :=
  match inp with
  | [] => None
  | c :: rest =>
      if Ascii.eqb c ">" then
        if is_nil acc then None
        else Some (string_of_list_ascii (rev acc), rest)
      else if is_name_char c then read_name (c :: acc) rest
      else None
  end.

(** The quantifier that may follow the atom [a]. *)
Definition quantify (a : regex) (inp : pystr) : option (regex * pystr) :=
  match inp with
  | q :: rest =>
      if is_repeat_char q then
        let lazy := startswith (py "?") rest in
        let rest1 := if lazy then tl rest else rest in
        if existsb is_repeat_char (firstn 1 rest1) then None
        else if Ascii.eqb q "*" then
          match a with
          | Chr k => Some (Star (negb lazy) k, rest1)
          | _ => None
          end
        else if Ascii.eqb q "+" then
          match a with
          | Chr k => Some (Plus (negb lazy) k, rest1)
          | _ => None
          end
        else if Ascii.eqb q "?" then
          match a with
          | Bol | Eol => None
          | _ => if lazy then None else Some (Opt a, rest1)
          end
        else None
      else Some (a, inp)
  | [] => Some (a, [])
  end.

Definition expect_close (r : option (regex * pystr)) (wrap : regex -> regex)
  : option (regex * pystr) :=
  match r with
  | Some (a, c :: rest) =>
      if Ascii.eqb c ")" then Some (wrap a, rest) else None
  | _ => None
  end.

Fixpoint parse_alt (fuel : nat) (inp : pystr) : option (regex * pystr) :=
  match fuel with
  | O => None
  | S fuel' =>
      match parse_seq fuel' inp with
      | Some (a, c :: rest) =>
          if Ascii.eqb c "|" then
            match parse_alt fuel' rest with
            | Some (b, rest') => Some (Alt a b, rest')
            | None => None
            end
          else Some (a, c :: rest)
      | r => r
      end
  end
with parse_seq (fuel : nat) (inp : pystr) : option (regex * pystr) :=
  match fuel with
  | O => None
  | S fuel' =>
      match inp with
      | [] => Some (Eps, [])
      | c :: _ =>
          if Ascii.eqb c "|" || Ascii.eqb c ")" then Some (Eps, inp)
          else
            match parse_atom fuel' inp with
            | Some (a, rest) =>
                match quantify a rest with
                | Some (q, rest') =>
                    match parse_seq fuel' rest' with
                    | Some (r, rest'') => Some (Cat q r, rest'')
                    | None => None
                    end
                | None => None
                end
            | None => None
            end
      end
  end
with parse_atom (fuel : nat) (inp : pystr) : option (regex * pystr) :=
  match fuel with
  | O => None
  | S fuel' =>
      match inp with
      | [] => None
      | c :: rest =>
          if Ascii.eqb c backslash then
            match rest with
            | x :: rest' =>
                if Ascii.eqb x "s" then Some (Chr CSpace, rest')
                else if is_alnum x then None
                else Some (Chr (CLit x), rest')
            | [] => None
            end
          else if Ascii.eqb c "[" then
            if startswith (py "^") rest then None
            else match parse_set [] rest with
                 | Some (cs, rest') => Some (Chr (CSet cs), rest')
                 | None => None
                 end
          else if Ascii.eqb c "." then Some (Chr CAny, rest)
          else if Ascii.eqb c "^" then Some (Bol, rest)
          else if Ascii.eqb c "$" then Some (Eol, rest)
          else if Ascii.eqb c "(" then
            match strip_prefix (py "?P<") rest with
            | Some rest1 =>
                match read_name [] rest1 with
                | Some (name, rest2) =>
                    expect_close (parse_alt fuel' rest2) (Group name)
                | None => None
                end
            | None =>
                match strip_prefix (py "?:") rest with
                | Some rest1 =>
                    expect_close (parse_alt fuel' rest1) (fun a => a)
                | None => None
                end
            end
          else if is_repeat_char c || Ascii.eqb c ")" || Ascii.eqb c "|"
          then None
          else Some (Chr (CLit c), rest)
      end
  end.

(** [re.compile(s)]; a leading [(?i)] sets [re.IGNORECASE]. *)
Definition re_compile (s : pystr) : option pattern :=
  let ic := startswith (py "(?i)") s in
  let src := if ic then skipn 4 s else s in
  match parse_alt (3 * length src + 3) src with
  | Some (r, []) => Some (Pattern ic r)
  | _ => None
  end.

(** [re.escape(s)] (Python 3.7 and later): a backslash before each character
    that is special in a pattern. *)
Definition special_chars : list ascii :=
  py "()[]{}?*+-|^$\.&~# "
    ++ map ascii_of_N [9; 10; 13; 11; 12]%N.

Definition is_special (c : ascii) : bool :=
  existsb (Ascii.eqb c) special_chars.

Definition escaped (c : ascii) : pystr :=
  if is_special c then [backslash; c] else [c].

Definition re_escape (s : pystr) : pystr := flat_map escaped s.

(** ** The plugin: [beetsplug/youtubetitle.py] *)

Definition bind (A B : Type) (x : option A) (f : A -> option B) : option B :=
  match x with
  | Some a => f a
  | None => None
  end.

Notation "x <- e ;; k" := (bind e (fun x => k))
  (at level 61, e at next level, right associativity).

(** A pattern compiled when the module is loaded.  Every pattern text of the
    module compiles (lemma [module_patterns_compile]); the default is never
    used. *)
Definition compiled (src : string) : pattern :=
  match re_compile (py src) with
  | Some p => p
  | None => Pattern false Eps
  end.

Definition YOUTUBE_TITLE_JUNK_src : list string :=
  [ "(?i)(?P<junk>[\(\[\{].*?(?:Explicit|Clean|Parental\sAdvisory).*?[\)\]\}])";
    "(?i)(?P<junk>[\(\[\{].*?(?:HQ|HD|CDQ).*?[\)\]\}])";
    "(?i)(?P<junk>[\(\[\{].*?Audio.*?[\)\]\}])";
    "(?i)(?P<junk>[\(\[\{].*?Album.*?[\)\]\}])";
    "(?i)(?P<junk>[\(\[\{].*?Song.*?[\)\]\}])";
    "(?i)(?P<junk>[\(\[\{].*?Video.*?[\)\]\}])";
    "(?i)(?P<junk>[\(\[\{].*?Lyric.*?[\)\]\}])";
    "(?i)(?P<junk>[\(\[\{].*?Visualizer.*?[\)\]\}])";
    "(?i)(?P<junk>[\(\[\{].*?iTunes.*?[\)\]\}])";
    "(?i)(?P<junk>[\(\[\{].*?Official.*?[\)\]\}])";
    "(?i)(?P<junk>[\(\[\{].*?Original.*?[\)\]\}])";
    "(?i)(?P<junk>[\(\[\{].*?Version.*?[\)\]\}])";
    "(?i)(?P<junk>[\(\[\{].*?Prod(?:uced|\.)?\sBy.*?[\)\]\}])" ]%string.

Definition YOUTUBE_TITLE_JUNK : list pattern :=
  map compiled YOUTUBE_TITLE_JUNK_src.

Definition EXTRA_STRIP_PATTERNS_src : list string :=
  [ "^\s*[-_\|]\s*(?P<title>.+)$";
    "^(?P<title>.+)\s*[-_\|]\s*$" ]%string.

Definition EXTRA_STRIP_PATTERNS : list pattern :=
  map compiled EXTRA_STRIP_PATTERNS_src.

(** *** Paths: [pathlib.PurePosixPath] *)

Record Path : Type := MkPath { root : pystr; parts : list pystr }.

(** [s.split(sep)] *)
Fixpoint split_on (sep : ascii) (s : pystr) : list pystr :=
  match s with
  | [] => [[]]
  | c :: s' =>
      if Ascii.eqb c sep then [] :: split_on sep s'
      else match split_on sep s' with
           | w :: ws => (c :: w) :: ws
           | [] => [[c]]
           end
  end.

Definition pystr_eqb (a b : pystr) : bool :=
  (length a =? length b) && startswith a b.

(** [Path(s)]: the root is [/], or [//] for exactly two leading slashes;
    empty components and [.] are dropped. *)
Definition path_of (s : pystr) : Path :=
  let r :=
    if negb (startswith (py "/") s) then []
    else if startswith (py "//") s && negb (startswith (py "///") s)
         then py "//"
         else py "/" in
  MkPath r (filter (fun x => negb (is_nil x) && negb (pystr_eqb x (py ".")))
                   (split_on "/" s)).

(** [p.name] *)
Definition name (p : Path) : pystr := last (parts p) [].

(** [p.parent] *)
Definition parent (p : Path) : Path := MkPath (root p) (removelast (parts p)).

(** [s.rfind(".")]; [None] for -1. *)
Fixpoint rfind_dot (s : pystr) : option nat :=
  match s with
  | [] => None
  | c :: s' =>
      match rfind_dot s' with
      | Some i => Some (S i)
      | None => if Ascii.eqb c "." then Some 0 else None
      end
  end.

(** [p.stem]: the name up to its last dot, unless that dot is the first or
    the last character. *)
Definition stem (p : Path) : pystr :=
  let n := name p in
  match rfind_dot n with
  | Some i => if (0 <? i) && (i <? length n - 1) then firstn i n else n
  | None => n
  end.

Definition track_title_from_path (p : Path) : pystr := stem p.

Definition album_name_from_path (p : Path) : pystr := name (parent p).

Definition artist_name_from_path (p : Path) : pystr :=
  name (parent (parent p)).

(** *** Patterns made from the album and artist names *)

Definition remove_album_name_pattern (album_name : pystr) : option pattern :=
  re_compile (py "(?i)(?P<junk>\(" ++ re_escape album_name ++ py "\))").

Definition remove_artist_name_pattern (artist_name : pystr)
  : option pattern :=
  re_compile (py "(?i)(?P<junk>\(?" ++ re_escape artist_name ++ py "\)?)").

(** *** The cleaner *)

(** One turn of the first loop of [_replace_junk]. *)
Definition remove_junk (new_title : pystr) (p : pattern) : option pystr :=
  match re_search p new_title with
  | Some match_obj =>
      junk <- group match_obj "junk" ;;
      Some (str_replace new_title junk [])
  | None => Some new_title
  end.

(** One turn of its second loop. *)
Definition strip_leftover (new_title : pystr) (p : pattern) : option pystr :=
  match re_match p new_title with
  | Some match_obj => group match_obj "title"
  | None => Some new_title
  end.

Fixpoint for_each (step : pystr -> pattern -> option pystr)
    (t : pystr) (ps : list pattern) : option pystr :=
  match ps with
  | [] => Some t
  | p :: ps' => t' <- step t p ;; for_each step t' ps'
  end.

Definition _replace_junk (title : pystr) (patterns : list pattern)
  : option pystr :=
  new_title <- for_each remove_junk title patterns ;;
  for_each strip_leftover (strip new_title) EXTRA_STRIP_PATTERNS.

(** *** Items, the plugin and its listener *)

Record Item : Type :=
  MkItem { path : pystr; title : pystr; album : pystr; artist : pystr;
           other_fields : list (string * pystr) }.

Record FromYoutubeTitlePlugin : Type :=
  MkPlugin { infer_album : bool; infer_artist : bool }.

(** [beets.util.displayable_path] decodes the path for display; the text is
    the same. *)
Definition displayable_path (p : pystr) : pystr := p.

Definition get_clean_title (self : FromYoutubeTitlePlugin) (item : Item)
  : option pystr :=
  let p := path_of (displayable_path (path item)) in
  let raw_title := track_title_from_path p in
  album_junk <-
    (if infer_album self
     then pat <- remove_album_name_pattern (album_name_from_path p) ;;
          Some [pat]
     else Some []) ;;
  artist_junk <-
    (if infer_artist self
     then pat <- remove_artist_name_pattern (artist_name_from_path p) ;;
          Some [pat]
     else Some []) ;;
  _replace_junk raw_title (album_junk ++ artist_junk ++ YOUTUBE_TITLE_JUNK).

Definition get_album (self : FromYoutubeTitlePlugin) (item : Item) : pystr :=
  album_name_from_path (path_of (displayable_path (path item))).

Definition get_artist (self : FromYoutubeTitlePlugin) (item : Item) : pystr :=
  artist_name_from_path (path_of (displayable_path (path item))).

(** The items of an import live in a heap; a task holds references into it,
    so that an item listed twice is one object. *)
Definition heap := list Item.

Record ImportTask : Type :=
  MkTask { is_singleton : bool;       (* isinstance(task, SingletonImportTask) *)
           is_album : bool;
           item : option nat;         (* task.item, when the task has one *)
           items : list nat }.

Fixpoint heap_set (h : heap) (r : nat) (v : Item) : heap :=
  match h, r with
  | [], _ => []
  | _ :: h', O => v :: h'
  | x :: h', S r' => x :: heap_set h' r' v
  end.

Definition set_title (it : Item) (v : pystr) : Item :=
  MkItem (path it) v (album it) (artist it) (other_fields it).

Definition set_album (it : Item) (v : pystr) : Item :=
  MkItem (path it) (title it) v (artist it) (other_fields it).

Definition set_artist (it : Item) (v : pystr) : Item :=
  MkItem (path it) (title it) (album it) v (other_fields it).

(** The body of the loop of [clean_youtube_metadata]. *)
Definition clean_item (self : FromYoutubeTitlePlugin) (it : Item)
  : option Item :=
  it1 <- (if is_nil (title it)
          then t <- get_clean_title self it ;; Some (set_title it t)
          else Some it) ;;
  let it2 := if infer_album self && is_nil (album it1)
             then set_album it1 (get_album self it1) else it1 in
  let it3 := if infer_artist self && is_nil (artist it2)
             then set_artist it2 (get_artist self it2) else it2 in
  Some it3.

Definition task_items (task : ImportTask) : option (list nat) :=
  if is_singleton task || negb (is_album task)
  then r <- item task ;; Some [r]
  else Some (items task).

Fixpoint clean_loop (self : FromYoutubeTitlePlugin) (h : heap)
    (refs : list nat) : option heap :=
  match refs with
  | [] => Some h
  | r :: refs' =>
      it <- nth_error h r ;;
      it' <- clean_item self it ;;
      clean_loop self (heap_set h r it') refs'
  end.

(** The listener; its [session] argument is not used. *)
Definition clean_youtube_metadata (self : FromYoutubeTitlePlugin)
    (task : ImportTask) (h : heap) : option heap :=
  refs <- task_items task ;;
  clean_loop self h refs.

(** ** What the specification words differently

    The specification describes the removal step as deleting the first
    occurrence of the captured text only. *)

Fixpoint delete_first (old s : pystr) : pystr :=
  match s with
  | [] => []
  | c :: s' =>
      if startswith old s then skipn (length old) s
      else c :: delete_first old s'
  end.

Definition remove_junk_first (new_title : pystr) (p : pattern)
  : option pystr :=
  match re_search p new_title with
  | Some match_obj =>
      junk <- group match_obj "junk" ;;
      Some (delete_first junk new_title)
  | None => Some new_title
  end.

(** ** The matcher, declaratively

    [denotes ic r st st']: the expression [r] can take the matcher from
    [st] to [st'].  It says which results [matches] has, not in which
    order. *)

Fixpoint denotes (ic : bool) (r : regex) (st st' : mstate) : Prop :=
  match r with
  | Eps => st' = st
  | Chr k =>
      exists x rest, ahead st = x :: rest /\ cclass_ok ic k x = true
                     /\ st' = advance x rest st
  | Bol => consumed st = [] /\ st' = st
  | Eol => (ahead st = [] \/ ahead st = [newline]) /\ st' = st
  | Cat a b => exists m, denotes ic a st m /\ denotes ic b m st'
  | Alt a b => denotes ic a st st' \/ denotes ic b st st'
  | Opt a => denotes ic a st st' \/ st' = st
  | Star _ k =>
      exists w rest, Forall (fun x => cclass_ok ic k x = true) w
                     /\ ahead st = w ++ rest
                     /\ st' = MState (rev w ++ consumed st) rest (groups st)
  | Plus _ k =>
      exists w rest, Forall (fun x => cclass_ok ic k x = true) w
                     /\ w <> []
                     /\ ahead st = w ++ rest
                     /\ st' = MState (rev w ++ consumed st) rest (groups st)
  | Group n a => exists m, denotes ic a st m /\ st' = close_group n st m
  end.

(** [st'] is [st] after reading the word [w]. *)
Definition moved (w : pystr) (st st' : mstate) : Prop :=
  ahead st = w ++ ahead st' /\ consumed st' = rev w ++ consumed st.

(** ** Vocabulary of the statements *)

Definition is_separator (c : ascii) : bool :=
  existsb (Ascii.eqb c) (py "-_|").

Definition head_is (f : ascii -> bool) (s : pystr) : bool :=
  match s with
  | c :: _ => f c
  | [] => false
  end.

Definition last_is (f : ascii -> bool) (s : pystr) : bool :=
  head_is f (rev s).

(** The two patterns of [EXTRA_STRIP_PATTERNS] as [re_compile] reads them
    (lemma [EXTRA_STRIP_PATTERNS_eq]). *)
Definition separators : cclass := CSet (py "-_|").

Definition title_to_end : regex :=
  Cat (Group "title" (Cat (Plus true CAny) Eps)) (Cat Eol Eps).

Definition leading_separator : pattern :=
  Pattern false
    (Cat Bol (Cat (Star true CSpace) (Cat (Chr separators)
      (Cat (Star true CSpace) title_to_end)))).

Definition trailing_separator : pattern :=
  Pattern false
    (Cat Bol (Cat (Group "title" (Cat (Plus true CAny) Eps))
      (Cat (Star true CSpace) (Cat (Chr separators)
        (Cat (Star true CSpace) (Cat Eol Eps)))))).

(** The class of the first character an expression must read, when its
    shape fixes one. *)
Fixpoint first_class (r : regex) : option cclass :=
  match r with
  | Chr k => Some k
  | Plus _ k => Some k
  | Cat a _ => first_class a
  | Group _ a => first_class a
  | _ => None
  end.

Definition opening_brackets : cclass := CSet (py "([{").

(** [deleted_all old s r]: [r] is [s] without its occurrences of [old],
    taken from the left, each one starting after the end of the one before. *)
Definition occurs (old s : pystr) : Prop :=
  exists pre post, s = pre ++ old ++ post.

Inductive deleted_all (old : pystr) : pystr -> pystr -> Prop :=
| deleted_none s : ~ occurs old s -> deleted_all old s s
| deleted_next pre post r :
    (forall pre' post', pre ++ old ++ post = pre' ++ old ++ post' ->
                        length pre <= length pre') ->
    deleted_all old post r ->
    deleted_all old (pre ++ old ++ post) (pre ++ r).

(** The expressions [re_compile] reads from the album and artist pattern
    texts (lemmas [remove_album_name_pattern_eq] and
    [remove_artist_name_pattern_eq]): the name as a chain of literal
    characters between the parentheses. *)
Definition literals (s : pystr) (r : regex) : regex :=
  fold_right (fun c r' => Cat (Chr (CLit c)) r') r s.

Definition album_regex (album_name : pystr) : regex :=
  Cat (Group "junk"
         (Cat (Chr (CLit "("))
              (literals album_name (Cat (Chr (CLit ")")) Eps))))
      Eps.

Definition artist_regex (artist_name : pystr) : regex :=
  Cat (Group "junk"
         (Cat (Opt (Chr (CLit "(")))
              (literals artist_name (Cat (Opt (Chr (CLit ")"))) Eps))))
      Eps.

Definition no_repeat_head (s : pystr) : bool :=
  negb (existsb is_repeat_char (firstn 1 s)).

(** Equality of texts up to case, as [re.IGNORECASE] sees it. *)
Definition ci_eq (a b : pystr) : Prop :=
  Forall2 (fun x y => tolower x = tolower y) a b.

(** [s] is the parenthesis [c], or nothing. *)
Definition paren_opt (c : ascii) (s : pystr) : Prop := s = [] \/ s = [c].

(** The texts the artist pattern and the album pattern are to match. *)
Definition artist_text (artist_name junk : pystr) : Prop :=
  exists op mid cl, junk = op ++ mid ++ cl
    /\ paren_opt "(" op /\ paren_opt ")" cl /\ ci_eq artist_name mid.

Definition album_text (album_name junk : pystr) : Prop :=
  exists mid, junk = "("%char :: mid ++ [")"%char] /\ ci_eq album_name mid.

(** [p] matches the texts of [lang] and nothing else, wherever it is tried,
    and captures the whole matched text as its group "junk". *)
Definition matches_exactly (p : pattern) (lang : pystr -> Prop) : Prop :=
  forall st m,
    In m (matches (ignorecase p) (body p) st) <->
    exists junk rest, lang junk /\ ahead st = junk ++ rest
      /\ m = MState (rev junk ++ consumed st) rest
                    (("junk"%string, junk) :: groups st).

(** The whole of [p] is one group named "junk". *)
Definition is_junk_group (p : pattern) : bool :=
  match body p with
  | Cat (Group n _) Eps => String.eqb n "junk"
  | _ => false
  end.

Definition is_paren (c : ascii) : bool :=
  Ascii.eqb c "(" || Ascii.eqb c ")".

(** A name as it stands between two slashes of a path and is kept by
    [Path]: not empty, without a slash, and other than [.]. *)
Definition has_char (c : ascii) (s : pystr) : bool := existsb (Ascii.eqb c) s.

(** The test [path_of] keeps a piece of the text by. *)
Definition kept (x : pystr) : bool :=
  negb (is_nil x) && negb (pystr_eqb x (py ".")).

Definition is_component (c : pystr) : bool :=
  negb (is_nil c) && negb (has_char "/" c) && negb (pystr_eqb c (py ".")).

(** [subseq r t]: [r] is [t] with some of its characters left out. *)
Inductive subseq : pystr -> pystr -> Prop :=
| subseq_nil : subseq [] []
| subseq_keep c r t : subseq r t -> subseq (c :: r) (c :: t)
| subseq_drop c r t : subseq r t -> subseq r (c :: t).

(** The class of the last character an expression reads, when its shape
    fixes one. *)
Fixpoint last_class (r : regex) : option cclass :=
  match r with
  | Chr k => Some k
  | Plus _ k => Some k
  | Cat a Eps => last_class a
  | Cat _ b => last_class b
  | Group _ a => last_class a
  | _ => None
  end.

Definition closing_brackets : cclass := CSet (py ")]}").

(** The separator cleanup said with string operations: a separator at the
    start goes with the whitespace after it, if something is left; a
    separator at the end goes alone, if something stands before it. *)
Definition without_leading_separator (s : pystr) : pystr :=
  match s with
  | c :: rest =>
      if is_separator c && negb (is_nil (lstrip rest)) then lstrip rest else s
  | [] => []
  end.

Definition without_trailing_separator (s : pystr) : pystr :=
  if last_is is_separator s && (1 <? length s) then removelast s else s.

(** What follows the title in the second pattern. *)
Definition trailing_rest : regex :=
  Cat (Star true CSpace) (Cat (Chr separators)
    (Cat (Star true CSpace) (Cat Eol Eps))).

(** The catalog entries with one keyword, as [re_compile] reads them
    (lemma [catalog_single_keywords]): an opening bracket, a lazy run, the
    keyword, a lazy run, a closing bracket. *)
Definition keyword_tail : regex :=
  Cat (Star false CAny) (Cat (Chr closing_brackets) Eps).

Definition keyword_regex (kw : pystr) : regex :=
  Cat (Group "junk"
         (Cat (Chr opening_brackets)
              (Cat (Star false CAny) (literals kw keyword_tail))))
      Eps.

Definition single_keywords : list string :=
  ["Audio"; "Album"; "Song"; "Video"; "Lyric"; "Visualizer"; "iTunes";
   "Official"; "Original"; "Version"]%string.

(** The texts such a pattern is to match: from an opening bracket to a
    closing one, on one line, with the keyword in between, up to case.  The
    two brackets need not be of the same kind. *)
Definition keyword_text (kw junk : pystr) : Prop :=
  exists o a k b c, junk = o :: a ++ k ++ b ++ [c]
    /\ cclass_ok true opening_brackets o = true
    /\ has_char newline a = false
    /\ ci_eq kw k
    /\ has_char newline b = false
    /\ cclass_ok true closing_brackets c = true.

(** ** Properties *)

Lemma module_patterns_compile :
  Forall (fun src => re_compile (py src) <> None)
         (YOUTUBE_TITLE_JUNK_src ++ EXTRA_STRIP_PATTERNS_src).
Proof. repeat constructor; vm_compute; discriminate. Qed.

(** *** The matcher and its declarative reading agree *)

Lemma run_star_In (greedy : bool) (ok : ascii -> bool) (g : list (string * pystr))
    (rest done : pystr) (st' : mstate) :
  In st' (run_star greedy ok done rest g) <->
  exists w r', Forall (fun x => ok x = true) w /\ rest = w ++ r'
               /\ st' = MState (rev w ++ done) r' g.
Proof.
  revert done. induction rest as [|x rest IH]; intros done; simpl.
  - split.
    + intros [<-|[]]. exists [], []. simpl. auto.
    + intros (w & r' & _ & E & ->). symmetry in E.
      apply app_eq_nil in E as [-> ->]. simpl. auto.
  - destruct (ok x) eqn:Hx.
    + assert (In st' (run_star greedy ok (x :: done) rest g)
              \/ st' = MState done (x :: rest) g <->
              exists w r', Forall (fun x => ok x = true) w
                           /\ x :: rest = w ++ r'
                           /\ st' = MState (rev w ++ done) r' g) as K.
      { rewrite IH. split.
        - intros [(w & r' & Hw & -> & ->)| ->].
          + exists (x :: w), r'. simpl. rewrite <- app_assoc. simpl. auto.
          + exists [], (x :: rest). simpl. auto.
        - intros (w & r' & Hw & E & ->). destruct w as [|y w]; simpl in *.
          + subst r'. auto.
          + injection E as <- ->. inversion Hw; subst. left.
            exists w, r'. rewrite <- app_assoc. simpl. auto. }
      destruct greedy; rewrite <- K.
      * rewrite in_app_iff. simpl. intuition congruence.
      * simpl. intuition congruence.
    + simpl. split.
      * intros [<-|[]]. exists [], (x :: rest). simpl. auto.
      * intros (w & r' & Hw & E & ->). destruct w as [|y w]; simpl in *.
        -- subst r'. auto.
        -- injection E as <- ->. inversion Hw; subst. congruence.
Qed.

Lemma matches_denotes (ic : bool) (r : regex) :
  forall st st', In st' (matches ic r st) <-> denotes ic r st st'.
Proof.
  induction r; intros st st'; simpl.
  - intuition congruence.
  - destruct (ahead st) as [|x rest] eqn:E.
    + split; [intros [] | intros (? & ? & ? & _); discriminate].
    + destruct (cclass_ok ic c x) eqn:Hx; simpl.
      * split.
        -- intros [<-|[]]. eauto.
        -- intros (y & r' & E' & _ & ->). injection E' as <- <-. auto.
      * split; [intros [] |].
        intros (y & r' & E' & Hy & _). injection E' as <- <-. congruence.
  - destruct (consumed st); simpl.
    + intuition congruence.
    + split; [intros [] | intros [? _]; discriminate].
  - destruct (ahead st) as [|x [|y rest]] eqn:E; simpl.
    + intuition congruence.
    + destruct (Ascii.eqb_spec x newline) as [->|N]; simpl.
      * intuition congruence.
      * split; [intros [] |]. intros [[?|E'] _]; [discriminate|].
        congruence.
    + split; [intros [] |]. intros [[?|?] _]; discriminate.
  - rewrite in_flat_map. split.
    + intros (m & Hm & H). exists m. rewrite <- IHr1, <- IHr2. auto.
    + intros (m & Hm & H). exists m. rewrite IHr1, IHr2. auto.
  - rewrite in_app_iff, IHr1, IHr2. tauto.
  - rewrite in_app_iff, IHr. simpl. intuition congruence.
  - apply run_star_In.
  - destruct (ahead st) as [|x rest] eqn:E.
    + split; [intros [] |].
      intros (w & r' & _ & Hn & E' & _). symmetry in E'.
      apply app_eq_nil in E' as [-> _]. congruence.
    + destruct (cclass_ok ic c x) eqn:Hx.
      * rewrite run_star_In. split.
        -- intros (w & r' & Hw & -> & ->). exists (x :: w), r'.
           simpl. rewrite <- app_assoc. simpl.
           repeat split; auto; discriminate.
        -- intros (w & r' & Hw & Hn & E' & ->).
           destruct w as [|y w]; [congruence|]. simpl in E'.
           injection E' as <- ->. inversion Hw; subst.
           exists w, r'. simpl. rewrite <- app_assoc. simpl. auto.
      * split; [intros [] |].
        intros (w & r' & Hw & Hn & E' & _).
        destruct w as [|y w]; [congruence|]. simpl in E'.
        injection E' as <- ->. inversion Hw; subst. congruence.
  - rewrite in_map_iff. split.
    + intros (m & <- & Hm). exists m. rewrite <- IHr. auto.
    + intros (m & Hm & ->). exists m. rewrite IHr. auto.
Qed.

(** *** Worked examples of the specification *)

(** C5: for the path [Artist/Album/01 Track (Official Audio).mp3] the three
    path functions return "01 Track (Official Audio)", "Album" and "Artist",
    and with album and artist inference enabled the clean title is
    "01 Track". *)
Theorem C5_path_example :
  let p := path_of (py "Artist/Album/01 Track (Official Audio).mp3") in
  let it := MkItem (py "Artist/Album/01 Track (Official Audio).mp3")
                   [] [] [] [] in
  track_title_from_path p = py "01 Track (Official Audio)"
  /\ album_name_from_path p = py "Album"
  /\ artist_name_from_path p = py "Artist"
  /\ get_clean_title (MkPlugin true true) it = Some (py "01 Track").
Proof. vm_compute. repeat split. Qed.

(** C6: on "Artist - Song Title (Official Video)" with artist "Artist", the
    artist pattern removes the leading "Artist", the static catalog removes
    "(Official Video)", trimming leaves "- Song Title", the boundary cleanup
    removes the leading "- ", and the result is exactly "Song Title". *)
Theorem C6_artist_example :
  let raw := py "Artist - Song Title (Official Video)" in
  (pat <- remove_artist_name_pattern (py "Artist") ;; remove_junk raw pat)
    = Some (py " - Song Title (Official Video)")
  /\ for_each remove_junk (py " - Song Title (Official Video)")
       YOUTUBE_TITLE_JUNK = Some (py " - Song Title ")
  /\ strip (py " - Song Title ") = py "- Song Title"
  /\ for_each strip_leftover (py "- Song Title") EXTRA_STRIP_PATTERNS
     = Some (py "Song Title")
  /\ (pat <- remove_artist_name_pattern (py "Artist") ;;
      _replace_junk raw (pat :: YOUTUBE_TITLE_JUNK)) = Some (py "Song Title")
  /\ get_clean_title (MkPlugin true true)
       (MkItem (py "Artist/Album/Artist - Song Title (Official Video).mp3")
               [] [] [] [])
     = Some (py "Song Title").
Proof. vm_compute. repeat split. Qed.

(** *** Positions, groups and the first match *)

Lemma moved_refl (st : mstate) : moved [] st st.
Proof. split; reflexivity. Qed.

Lemma moved_trans (w1 w2 : pystr) (a b c : mstate) :
  moved w1 a b -> moved w2 b c -> moved (w1 ++ w2) a c.
Proof.
  intros [A1 C1] [A2 C2]. split.
  - rewrite A1, A2. apply app_assoc.
  - rewrite C2, C1, rev_app_distr. apply app_assoc.
Qed.

Lemma denotes_moved (ic : bool) (r : regex) :
  forall st st', denotes ic r st st' -> exists w, moved w st st'.
Proof.
  induction r; intros st st' H; simpl in H.
  - subst. exists []. apply moved_refl.
  - destruct H as (x & rest & E & _ & ->). exists [x]. split; simpl; auto.
  - destruct H as [_ ->]. exists []. apply moved_refl.
  - destruct H as [_ ->]. exists []. apply moved_refl.
  - destruct H as (m & H1 & H2).
    apply IHr1 in H1 as [w1 M1]. apply IHr2 in H2 as [w2 M2].
    exists (w1 ++ w2). eapply moved_trans; eauto.
  - destruct H as [H|H]; eauto.
  - destruct H as [H| ->]; eauto. exists []. apply moved_refl.
  - destruct H as (w & rest & _ & E & ->). exists w. split; simpl; auto.
  - destruct H as (w & rest & _ & _ & E & ->). exists w. split; simpl; auto.
  - destruct H as (m & H & ->). apply IHr in H as [w M]. exists w.
    destruct M. split; simpl; auto.
Qed.

Lemma close_group_moved (n : string) (w : pystr) (st m : mstate) :
  moved w st m ->
  close_group n st m = MState (consumed m) (ahead m) ((n, w) :: groups m).
Proof.
  intros [_ C]. unfold close_group. rewrite C.
  rewrite length_app, length_rev, Nat.add_sub.
  rewrite <- (length_rev w) at 1. rewrite firstn_app, Nat.sub_diag.
  rewrite firstn_all. simpl. rewrite app_nil_r, rev_involutive. reflexivity.
Qed.

Lemma first_match_denotes (p : pattern) (st m : mstate) :
  first_match p st = Some m -> denotes (ignorecase p) (body p) st m.
Proof.
  unfold first_match. intros H. apply matches_denotes.
  destruct (matches (ignorecase p) (body p) st); simpl in H.
  - discriminate.
  - injection H as ->. left. reflexivity.
Qed.

Lemma first_match_None (p : pattern) (st : mstate) :
  first_match p st = None <->
  forall m, ~ denotes (ignorecase p) (body p) st m.
Proof.
  unfold first_match. split.
  - intros H m D. apply matches_denotes in D.
    destruct (matches (ignorecase p) (body p) st); [destruct D | discriminate].
  - intros H. destruct (matches (ignorecase p) (body p) st) as [|m l] eqn:E.
    + reflexivity.
    + exfalso. apply (H m), matches_denotes. rewrite E. left. reflexivity.
Qed.

Lemma first_match_Some (p : pattern) (st m : mstate) :
  denotes (ignorecase p) (body p) st m -> exists m', first_match p st = Some m'.
Proof.
  intros D. destruct (first_match p st) as [m'|] eqn:E; eauto.
  exfalso. rewrite first_match_None in E. eapply E; eauto.
Qed.

Lemma search_from_Some (p : pattern) (rest done : pystr) (m : mstate) :
  search_from p done rest = Some m ->
  exists pre post, rest = pre ++ post
    /\ first_match p (MState (rev pre ++ done) post []) = Some m
    /\ forall pre1 post1, rest = pre1 ++ post1 -> length pre1 < length pre ->
       first_match p (MState (rev pre1 ++ done) post1 []) = None.
Proof.
  revert done. induction rest as [|x rest IH]; intros done; simpl.
  - destruct (first_match p (MState done [] [])) eqn:E; [|discriminate].
    intros H. injection H as ->. exists [], []. simpl. repeat split; auto.
    intros pre1 post1 _ L. inversion L.
  - destruct (first_match p (MState done (x :: rest) [])) eqn:E.
    + intros H. injection H as ->. exists [], (x :: rest). simpl.
      repeat split; auto. intros pre1 post1 _ L. inversion L.
    + intros H. apply IH in H as (pre & post & -> & F & N).
      exists (x :: pre), post. simpl. rewrite <- app_assoc. simpl.
      repeat split; auto.
      intros pre1 post1 E1 L. destruct pre1 as [|y pre1]; simpl in *.
      * subst post1. exact E.
      * injection E1 as <- E1. rewrite <- app_assoc. simpl.
        apply N; auto. lia.
Qed.

Lemma search_from_None (p : pattern) (rest done : pystr) :
  search_from p done rest = None <->
  forall pre post, rest = pre ++ post ->
    first_match p (MState (rev pre ++ done) post []) = None.
Proof.
  revert done. induction rest as [|x rest IH]; intros done; simpl.
  - destruct (first_match p (MState done [] [])) eqn:E; split; auto.
    + discriminate.
    + intros H. rewrite <- E. apply (H [] []). reflexivity.
    + intros _ pre post E1. symmetry in E1. apply app_eq_nil in E1 as [-> ->].
      exact E.
  - destruct (first_match p (MState done (x :: rest) [])) eqn:E.
    + split; [discriminate|]. intros H. rewrite <- E.
      apply (H [] (x :: rest)). reflexivity.
    + rewrite IH. split.
      * intros H pre post E1. destruct pre as [|y pre]; simpl in *.
        -- subst post. exact E.
        -- injection E1 as <- E1. rewrite <- app_assoc. simpl. auto.
      * intros H pre post E1. specialize (H (x :: pre) post).
        simpl in H. rewrite <- app_assoc in H. simpl in H. apply H.
        f_equal. exact E1.
Qed.

Lemma re_search_Some (p : pattern) (s : pystr) (m : mstate) :
  re_search p s = Some m ->
  exists pre post, s = pre ++ post
    /\ first_match p (MState (rev pre) post []) = Some m.
Proof.
  intros H. apply search_from_Some in H as (pre & post & E & F & _).
  rewrite app_nil_r in F. eauto.
Qed.

Lemma re_search_None (p : pattern) (s : pystr) :
  re_search p s = None <->
  forall pre post, s = pre ++ post ->
    first_match p (MState (rev pre) post []) = None.
Proof.
  unfold re_search. rewrite search_from_None. split; intros H pre post E.
  - specialize (H pre post E). rewrite app_nil_r in H. exact H.
  - rewrite app_nil_r. auto.
Qed.

(** *** Characters *)

Ltac each_char x :=
  destruct x as [[|] [|] [|] [|] [|] [|] [|] [|]].

Lemma separators_ok (x : ascii) :
  cclass_ok false separators x = is_separator x.
Proof.
  unfold is_separator. simpl.
  rewrite !(Ascii.eqb_sym x). reflexivity.
Qed.

Lemma separator_cases (x : ascii) :
  is_separator x = true -> x = "-"%char \/ x = "_"%char \/ x = "|"%char.
Proof.
  unfold is_separator. simpl. rewrite !orb_true_iff, !Ascii.eqb_eq.
  intuition discriminate.
Qed.

Lemma separator_not_space (x : ascii) :
  is_separator x = true -> is_space x = false.
Proof.
  intros H. apply separator_cases in H as [->|[->| ->]]; reflexivity.
Qed.

Lemma space_not_separator (x : ascii) :
  is_space x = true -> is_separator x = false.
Proof.
  intros H. destruct (is_separator x) eqn:E; auto.
  apply separator_not_space in E. congruence.
Qed.

Lemma newline_is_space : is_space newline = true.
Proof. reflexivity. Qed.

Lemma not_space_not_newline (x : ascii) :
  is_space x = false -> Ascii.eqb x newline = false.
Proof.
  intros H. destruct (Ascii.eqb_spec x newline) as [->|]; auto.
Qed.

(** *** [str.strip] *)

Lemma lstrip_spec (s : pystr) :
  exists W, s = W ++ lstrip s /\ Forall (fun x => is_space x = true) W
            /\ head_is is_space (lstrip s) = false.
Proof.
  induction s as [|c s (W & E & F & H)]; simpl.
  - exists []. auto.
  - destruct (is_space c) eqn:Hc.
    + exists (c :: W). simpl. rewrite <- E. auto.
    + exists []. simpl. auto.
Qed.

Lemma lstrip_app_spaces (W s : pystr) :
  Forall (fun x => is_space x = true) W -> lstrip (W ++ s) = lstrip s.
Proof.
  induction 1 as [|x W Hx _ IH]; simpl; auto. rewrite Hx. exact IH.
Qed.

Lemma lstrip_id (s : pystr) : head_is is_space s = false -> lstrip s = s.
Proof. destruct s as [|c s]; simpl; auto. intros ->. reflexivity. Qed.

Lemma rstrip_spec (s : pystr) :
  exists W, s = rstrip s ++ W /\ Forall (fun x => is_space x = true) W
            /\ last_is is_space (rstrip s) = false.
Proof.
  unfold rstrip, last_is. destruct (lstrip_spec (rev s)) as (W & E & F & H).
  exists (rev W). repeat split.
  - rewrite <- rev_app_distr, <- E, rev_involutive. reflexivity.
  - apply Forall_rev. exact F.
  - rewrite rev_involutive. exact H.
Qed.

Lemma rstrip_id (s : pystr) : last_is is_space s = false -> rstrip s = s.
Proof.
  unfold rstrip, last_is. intros H. rewrite lstrip_id by exact H.
  apply rev_involutive.
Qed.

Lemma head_is_app (f : ascii -> bool) (a b : pystr) :
  a <> [] -> head_is f (a ++ b) = head_is f a.
Proof. destruct a; simpl; congruence. Qed.

Lemma last_is_app (f : ascii -> bool) (a b : pystr) :
  b <> [] -> last_is f (a ++ b) = last_is f b.
Proof.
  unfold last_is. intros H. rewrite rev_app_distr. apply head_is_app.
  intros E. apply H. rewrite <- (rev_involutive b), E. reflexivity.
Qed.

Lemma last_is_snoc (f : ascii -> bool) (a : pystr) (x : ascii) :
  last_is f (a ++ [x]) = f x.
Proof. unfold last_is. rewrite rev_app_distr. reflexivity. Qed.

Lemma strip_spec (s : pystr) :
  exists W1 W2, s = W1 ++ strip s ++ W2
    /\ Forall (fun x => is_space x = true) W1
    /\ Forall (fun x => is_space x = true) W2
    /\ head_is is_space (strip s) = false
    /\ last_is is_space (strip s) = false.
Proof.
  unfold strip. destruct (lstrip_spec s) as (W1 & E1 & F1 & H1).
  destruct (rstrip_spec (lstrip s)) as (W2 & E2 & F2 & H2).
  exists W1, W2. repeat split; auto.
  - rewrite <- E2. exact E1.
  - destruct (rstrip (lstrip s)) as [|c r] eqn:E; auto.
    rewrite E2 in H1. exact H1.
Qed.

Lemma strip_id (s : pystr) :
  head_is is_space s = false -> last_is is_space s = false -> strip s = s.
Proof.
  intros H L. unfold strip. rewrite lstrip_id by exact H.
  apply rstrip_id, L.
Qed.

Lemma strip_idempotent (s : pystr) : strip (strip s) = strip s.
Proof.
  destruct (strip_spec s) as (_ & _ & _ & _ & _ & H & L).
  apply strip_id; assumption.
Qed.

Lemma strip_around (W1 W2 : pystr) (c : ascii) :
  Forall (fun x => is_space x = true) W1 ->
  Forall (fun x => is_space x = true) W2 ->
  is_space c = false -> strip (W1 ++ c :: W2) = [c].
Proof.
  intros F1 F2 Hc. unfold strip. rewrite lstrip_app_spaces by exact F1.
  simpl. rewrite Hc. unfold rstrip. simpl.
  rewrite lstrip_app_spaces by (apply Forall_rev; exact F2).
  simpl. rewrite Hc. reflexivity.
Qed.

(** *** The two boundary patterns *)

Lemma EXTRA_STRIP_PATTERNS_eq :
  EXTRA_STRIP_PATTERNS = [leading_separator; trailing_separator].
Proof. vm_compute. reflexivity. Qed.

Lemma close_group_run (n : string) (w rest : pystr) (st : mstate) :
  ahead st = w ++ rest ->
  close_group n st (MState (rev w ++ consumed st) rest (groups st))
  = MState (rev w ++ consumed st) rest ((n, w) :: groups st).
Proof.
  intros E.
  rewrite (@close_group_moved n w st
             (MState (rev w ++ consumed st) rest (groups st))).
  - reflexivity.
  - split; simpl; auto.
Qed.

Lemma title_to_end_denotes (st m : mstate) :
  denotes false title_to_end st m <->
  exists T E, ahead st = T ++ E /\ T <> []
    /\ Forall (fun x => negb (Ascii.eqb x newline) = true) T
    /\ (E = [] \/ E = [newline])
    /\ m = MState (rev T ++ consumed st) E (("title"%string, T) :: groups st).
Proof.
  unfold title_to_end. simpl. split.
  - intros (m1 & (m2 & (m3 & (w & rest & Hw & Hn & E & ->) & ->) & ->)
            & (m4 & [HE ->] & ->)).
    rewrite close_group_run in * by exact E. simpl in HE.
    exists w, rest. auto.
  - intros (T & E & HA & Hn & HT & HE & ->).
    eexists. split.
    + eexists. split; [|reflexivity]. eexists. split; [|reflexivity].
      exists T, E. repeat split; auto.
    + rewrite close_group_run by exact HA. eexists. split; [|reflexivity].
      simpl. auto.
Qed.

(** The first success after a greedy star comes from the longest run that
    lets the rest of the pattern succeed. *)
Lemma run_star_greedy_first (ok : ascii -> bool) (F : mstate -> list mstate)
    (g : list (string * pystr)) (rest done : pystr) (m : mstate) :
  hd_error (flat_map F (run_star true ok done rest g)) = Some m ->
  exists w r', Forall (fun x => ok x = true) w /\ rest = w ++ r'
    /\ hd_error (F (MState (rev w ++ done) r' g)) = Some m
    /\ forall w2 r2, w2 <> [] -> Forall (fun x => ok x = true) w2 ->
         r' = w2 ++ r2 -> F (MState (rev (w ++ w2) ++ done) r2 g) = [].
Proof.
  revert done. induction rest as [|x rest IH]; intros done; simpl.
  - rewrite app_nil_r. intros H. exists [], []. simpl. repeat split; auto.
    intros w2 r2 Hn _ E. symmetry in E. apply app_eq_nil in E as [-> _].
    congruence.
  - destruct (ok x) eqn:Hx; simpl.
    + rewrite flat_map_app. simpl. rewrite app_nil_r.
      destruct (flat_map F (run_star true ok (x :: done) rest g))
        as [|y l] eqn:EL; simpl.
      * intros H. exists [], (x :: rest). simpl. repeat split; auto.
        intros w2 r2 Hn Hw E. destruct w2 as [|z w2]; [congruence|].
        simpl in E. injection E as <- ->. inversion Hw; subst.
        match goal with |- ?t = [] => destruct t as [|q ql] eqn:EF end; auto.
        exfalso.
        assert (In q (flat_map F (run_star true ok (x :: done)
                                   (w2 ++ r2) g))) as HI.
        { apply in_flat_map. eexists. split.
          - apply run_star_In. exists w2, r2. repeat split; auto.
          - simpl in EF. rewrite <- app_assoc in EF. simpl in EF.
            rewrite EF. left. reflexivity. }
        rewrite EL in HI. destruct HI.
      * intros H. injection H as ->.
        assert (hd_error (flat_map F (run_star true ok (x :: done) rest g))
                = Some m) as H by (rewrite EL; reflexivity).
        apply IH in H as (w & r' & Hw & -> & HF & HL).
        exists (x :: w), r'. simpl. rewrite <- !app_assoc. simpl.
        repeat split; auto.
        intros w2 r2 Hn Hw2 E. specialize (HL w2 r2 Hn Hw2 E).
        rewrite <- !app_assoc in *. simpl. exact HL.
    + rewrite app_nil_r. intros H. exists [], (x :: rest). simpl.
      repeat split; auto.
      intros w2 r2 Hn Hw E. destruct w2 as [|z w2]; [congruence|].
      simpl in E. injection E as <- ->. inversion Hw; subst. congruence.
Qed.

Lemma leading_matches_cons (c : ascii) (rest : pystr) :
  is_space c = false ->
  matches false (body leading_separator) (MState [] (c :: rest) [])
  = if is_separator c
    then flat_map (matches false title_to_end)
                  (run_star true is_space [c] rest [])
    else [].
Proof.
  intros Hc. unfold leading_separator, body.
  cbn [matches flat_map app consumed ahead groups run_star cclass_ok].
  rewrite Hc. cbn [matches flat_map app consumed ahead groups advance].
  rewrite separators_ok. destruct (is_separator c).
  - cbn [flat_map app consumed ahead groups advance matches cclass_ok].
    rewrite !app_nil_r. reflexivity.
  - reflexivity.
Qed.

Lemma leading_match_None (s : pystr) :
  head_is is_space s = false -> head_is is_separator s = false ->
  re_match leading_separator s = None.
Proof.
  unfold re_match, first_match. destruct s as [|c rest]; simpl head_is.
  - reflexivity.
  - intros Hc Hs. rewrite leading_matches_cons by exact Hc.
    rewrite Hs. reflexivity.
Qed.

Lemma group_top (n : string) (v c a : pystr) (g : list (string * pystr)) :
  group (MState c a ((n, v) :: g)) n = Some v.
Proof. unfold group. simpl. rewrite String.eqb_refl. reflexivity. Qed.

Lemma leading_match_Some (s : pystr) (m : mstate) :
  head_is is_space s = false -> last_is is_space s = false ->
  re_match leading_separator s = Some m ->
  exists sep W T, s = sep :: W ++ T /\ is_separator sep = true
    /\ Forall (fun x => is_space x = true) W
    /\ T <> [] /\ head_is is_space T = false
    /\ group m "title" = Some T.
Proof.
  unfold re_match, first_match. destruct s as [|c rest]; simpl head_is.
  - discriminate.
  - intros Hc HL. rewrite leading_matches_cons by exact Hc.
    destruct (is_separator c) eqn:Hs; [|discriminate].
    intros H. apply run_star_greedy_first in H
      as (W & r' & HW & -> & HF & Hlong).
    assert (In m (matches false title_to_end
                    (MState (rev W ++ [c]) r' []))) as HI.
    { destruct (matches false title_to_end _); [discriminate|].
      injection HF as ->. left. reflexivity. }
    apply matches_denotes, title_to_end_denotes in HI
      as (T & E & HA & Hn & HT & HE & ->).
    simpl in HA. subst r'.
    assert (E = []) as ->.
    { destruct HE as [->| ->]; auto. exfalso.
      change (c :: W ++ T ++ [newline])
        with ((c :: W) ++ T ++ [newline]) in HL.
      rewrite !app_assoc, last_is_snoc in HL. discriminate. }
    rewrite app_nil_r in *.
    exists c, W, T. repeat split; auto.
    + destruct T as [|x T']; [congruence|]. simpl.
      destruct (is_space x) eqn:Hx; auto. exfalso.
      assert (T' <> []) as Hn'.
      { intros ->. change (c :: W ++ [x]) with ((c :: W) ++ [x]) in HL.
        rewrite last_is_snoc in HL. congruence. }
      specialize (Hlong [x] T').
      assert (matches false title_to_end
                (MState (rev (W ++ [x]) ++ [c]) T' []) = []) as HE'.
      { apply Hlong; auto. discriminate. }
      assert (In (MState (rev T' ++ rev (W ++ [x]) ++ [c]) []
                         [("title"%string, T')])
                 (matches false title_to_end
                    (MState (rev (W ++ [x]) ++ [c]) T' []))) as HI.
      { apply matches_denotes, title_to_end_denotes.
        exists T', []. simpl. rewrite app_nil_r. repeat split; auto.
        inversion HT; auto. }
      rewrite HE' in HI. destruct HI.
Qed.

Lemma trailing_denotes (s : pystr) (m : mstate) :
  denotes false (body trailing_separator) (MState [] s []) m ->
  exists T W1 sep W2 E, s = T ++ W1 ++ sep :: W2 ++ E /\ T <> []
    /\ Forall (fun x => is_space x = true) W1
    /\ is_separator sep = true
    /\ Forall (fun x => is_space x = true) W2
    /\ (E = [] \/ E = [newline])
    /\ group m "title" = Some T.
Proof.
  unfold trailing_separator, body. simpl.
  intros (m1 & [_ ->] & m2 & (m3 & (m4 & (T & r1 & HT & Hn & E1 & ->) & ->)
            & ->) & m5 & (W1 & r2 & HW1 & E2 & ->) & m6
            & (sep & r3 & E3 & Hsep & ->) & m7 & (W2 & r4 & HW2 & E4 & ->)
            & m8 & [HE ->] & ->).
  simpl in E1. subst s.
  rewrite (@close_group_run "title" T r1 (MState [] (T ++ r1) []))
    in * by reflexivity.
  simpl in *. subst r1 r2 r3.
  exists T, W1, sep, W2, r4. rewrite <- separators_ok. repeat split; auto.
Qed.

Lemma trailing_match_Some (s : pystr) (m : mstate) :
  re_match trailing_separator s = Some m ->
  exists T W1 sep W2 E, s = T ++ W1 ++ sep :: W2 ++ E /\ T <> []
    /\ Forall (fun x => is_space x = true) W1
    /\ is_separator sep = true
    /\ Forall (fun x => is_space x = true) W2
    /\ (E = [] \/ E = [newline])
    /\ group m "title" = Some T.
Proof.
  intros H. apply first_match_denotes in H. apply trailing_denotes, H.
Qed.

Lemma last_is_spaces (W : pystr) :
  Forall (fun x => is_space x = true) W -> W <> [] ->
  last_is is_space W = true.
Proof.
  intros F Hn. unfold last_is. apply Forall_rev in F.
  destruct (rev W) as [|x l] eqn:E.
  - exfalso. apply Hn. rewrite <- (rev_involutive W), E. reflexivity.
  - inversion F; subst. assumption.
Qed.

Lemma trailing_match_None (s : pystr) :
  last_is is_space s = false -> last_is is_separator s = false ->
  re_match trailing_separator s = None.
Proof.
  intros Hw Hs. destruct (re_match trailing_separator s) as [m|] eqn:E; auto.
  exfalso. apply trailing_match_Some in E
    as (T & W1 & sep & W2 & E & -> & _ & _ & Hsep & HW2 & HE & _).
  destruct HE as [->| ->].
  - rewrite app_nil_r in *. destruct W2 as [|x W2].
    + rewrite app_assoc, last_is_snoc in Hs. congruence.
    + rewrite !app_assoc in Hw.
      change (((T ++ W1) ++ sep :: x :: W2))
        with ((T ++ W1) ++ [sep] ++ x :: W2) in Hw.
      rewrite !app_assoc, last_is_app in Hw by discriminate.
      rewrite last_is_spaces in Hw; [discriminate|assumption|discriminate].
  - change (T ++ W1 ++ sep :: W2 ++ [newline])
      with (T ++ W1 ++ (sep :: W2) ++ [newline]) in Hw.
    rewrite !app_assoc, last_is_snoc in Hw. discriminate.
Qed.

(** *** Cleaning: the second loop of [_replace_junk] *)

(** The second loop of [_replace_junk] on a trimmed title. *)
Lemma cleanup_spec (s : pystr) :
  head_is is_space s = false -> last_is is_space s = false ->
  exists r, for_each strip_leftover s EXTRA_STRIP_PATTERNS = Some r
    /\ head_is is_space r = false
    /\ (exists pre post, s = pre ++ r ++ post)
    /\ (head_is is_separator s = false -> last_is is_separator s = false ->
        r = s).
Proof.
  intros Hh Hl. rewrite EXTRA_STRIP_PATTERNS_eq. simpl. unfold strip_leftover.
  assert (exists s1, match re_match leading_separator s with
                     | Some match_obj => group match_obj "title"
                     | None => Some s
                     end = Some s1
            /\ head_is is_space s1 = false
            /\ (exists pre, s = pre ++ s1)
            /\ (head_is is_separator s = false -> s1 = s)) as (s1 & -> & H1 & (pre & E1) & K1).
  { destruct (re_match leading_separator s) as [m|] eqn:E.
    - pose proof E as E'.
      apply leading_match_Some in E
        as (sep & W & T & -> & Hsep & HW & Hn & HT & ->); auto.
      exists T. repeat split; auto.
      + exists (sep :: W). reflexivity.
      + simpl. congruence.
    - exists s. repeat split; auto. exists []. reflexivity. }
  simpl.
  destruct (re_match trailing_separator s1) as [m|] eqn:E.
  - pose proof E as E'. apply trailing_match_Some in E
      as (T & W1 & sep & W2 & E0 & -> & Hn & HW1 & Hsep & HW2 & HE & ->).
    exists T. repeat split.
    + rewrite head_is_app in H1 by exact Hn. exact H1.
    + exists pre. eexists. rewrite E1. reflexivity.
    + intros A B. rewrite (K1 A) in E'.
      rewrite trailing_match_None in E'; auto. discriminate.
  - exists s1. repeat split; auto.
    exists pre, []. rewrite app_nil_r. exact E1.
Qed.

Lemma for_each_unmatched (t : pystr) (ps : list pattern) :
  Forall (fun p => re_search p t = None) ps ->
  for_each remove_junk t ps = Some t.
Proof.
  induction 1 as [|p ps Hp _ IH]; simpl; auto.
  unfold remove_junk. rewrite Hp. simpl. exact IH.
Qed.



(** *** The static catalog needs an opening bracket *)

Lemma first_class_denotes (ic : bool) (k : cclass) (r : regex) :
  first_class r = Some k ->
  forall st m, denotes ic r st m ->
  exists x rest, ahead st = x :: rest /\ cclass_ok ic k x = true.
Proof.
  induction r; simpl; try discriminate.
  - intros [= ->] st m (x & rest & E & H & _). eauto.
  - intros H st m (m1 & D & _). eauto.
  - intros [= ->] st m (w & rest & Hw & Hn & E & _).
    destruct w as [|x w]; [congruence|]. inversion Hw; subst.
    exists x, (w ++ rest). auto.
  - intros H st m (m1 & D & _). eauto.
Qed.

Lemma catalog_first_class :
  Forall (fun p => ignorecase p = true
                   /\ first_class (body p) = Some opening_brackets)
         YOUTUBE_TITLE_JUNK.
Proof. repeat constructor. Qed.

Lemma bracket_cases (x : ascii) :
  cclass_ok true opening_brackets x = true ->
  x = "("%char \/ x = "["%char \/ x = "{"%char.
Proof. each_char x; vm_compute; intros H; auto; discriminate. Qed.

Lemma unmatched_without (k : cclass) (p : pattern) (t : pystr) :
  first_class (body p) = Some k ->
  Forall (fun x => cclass_ok (ignorecase p) k x = false) t ->
  re_search p t = None.
Proof.
  intros Hk Ht. apply re_search_None. intros pre post ->.
  apply first_match_None. intros m D.
  destruct (@first_class_denotes (ignorecase p) k (body p) Hk _ _ D)
    as (x & rest & E & Hx).
  simpl in E. subst post. apply Forall_app in Ht as [_ Ht].
  inversion Ht; subst. congruence.
Qed.

Lemma catalog_unmatched (t : pystr) :
  Forall (fun x => cclass_ok true opening_brackets x = false) t ->
  Forall (fun p => re_search p t = None) YOUTUBE_TITLE_JUNK.
Proof.
  intros Ht. eapply Forall_impl; [|exact catalog_first_class].
  intros p [Hi Hk]. eapply unmatched_without; eauto. rewrite Hi. exact Ht.
Qed.

Lemma space_not_bracket (x : ascii) :
  is_space x = true -> cclass_ok true opening_brackets x = false.
Proof.
  intros H. destruct (cclass_ok true opening_brackets x) eqn:E; auto.
  apply bracket_cases in E as [->|[->| ->]]; discriminate.
Qed.

Lemma separator_not_bracket (x : ascii) :
  is_separator x = true -> cclass_ok true opening_brackets x = false.
Proof.
  intros H. apply separator_cases in H as [->|[->| ->]]; reflexivity.
Qed.

(** C7 (amended): with zero patterns [_replace_junk] returns a part of the
    trimmed title, the separator cleanup being applied all the same; it is
    the trimmed title itself when that neither begins nor ends with a
    separator character. *)
Theorem C7_zero_patterns (t : pystr) :
  exists r, _replace_junk t [] = Some r
    /\ (exists pre post, strip t = pre ++ r ++ post)
    /\ (head_is is_separator (strip t) = false ->
        last_is is_separator (strip t) = false -> r = strip t).
Proof.
  unfold _replace_junk. cbn [for_each bind].
  destruct (strip_spec t) as (_ & _ & _ & _ & _ & A & B).
  destruct (@cleanup_spec (strip t) A B) as (r & E & _ & S & K). eauto.
Qed.

Lemma C7_witness : _replace_junk (py " Song ") [] = Some (py "Song").
Proof.
  destruct (C7_zero_patterns (py " Song ")) as (r & E & _ & K).
  rewrite E. f_equal. apply K; reflexivity.
Defined.

(** C7 as stated fails: "- Song" is trimmed already, and loses its leading
    separator. *)
Lemma C7_counterexample :
  _replace_junk (py "- Song") [] <> Some (strip (py "- Song")).
Proof. vm_compute. discriminate. Qed.

(** C9: the result may end with whitespace, as "Song -" shows with no
    pattern and with the static catalog (both give "Song "); it never begins
    with whitespace, whatever the title and the patterns. *)
Theorem C9_trailing_space_kept :
  _replace_junk (py "Song -") [] = Some (py "Song ")
  /\ _replace_junk (py "Song -") YOUTUBE_TITLE_JUNK = Some (py "Song ")
  /\ last_is is_space (py "Song ") = true
  /\ forall t ps, match _replace_junk t ps with
                  | Some r => head_is is_space r = false
                  | None => True
                  end.
Proof.
  repeat split; try reflexivity.
  intros t ps. unfold _replace_junk.
  destruct (for_each remove_junk t ps) as [nt|]; cbn [bind]; auto.
  destruct (strip_spec nt) as (_ & _ & _ & _ & _ & A & B).
  destruct (@cleanup_spec (strip nt) A B) as (r & -> & H & _). exact H.
Qed.

(** *** [str.replace] *)

Lemma startswith_spec (p s : pystr) :
  startswith p s = true <-> exists post, s = p ++ post.
Proof.
  revert s. induction p as [|a p IH]; intros s; simpl.
  - split; eauto.
  - destruct s as [|b s].
    + split; [discriminate | intros [post E]; discriminate].
    + rewrite andb_true_iff, Ascii.eqb_eq, IH. split.
      * intros [-> [post ->]]. eauto.
      * intros [post E]. injection E as -> ->. eauto.
Qed.

Lemma replace_scan_skip (old : pystr) (s : pystr) :
  forall k, replace_scan old [] k s = replace_scan old [] 0 (skipn k s).
Proof.
  induction s as [|c s IH]; intros [|k]; simpl; auto.
Qed.

Lemma str_replace_empty (s : pystr) : str_replace s [] [] = s.
Proof.
  unfold str_replace. simpl. induction s as [|c s IH]; simpl; congruence.
Qed.

Lemma deleted_cons (old : pystr) (c : ascii) (s r : pystr) :
  startswith old (c :: s) = false ->
  deleted_all old s r -> deleted_all old (c :: s) (c :: r).
Proof.
  intros N D.
  assert (forall pre post, c :: s = pre ++ old ++ post ->
            exists pre', pre = c :: pre' /\ s = pre' ++ old ++ post) as K.
  { intros [|x pre] post E; simpl in E.
    - exfalso. assert (startswith old (c :: s) = true) as T
        by (apply startswith_spec; eauto). congruence.
    - injection E as <- ->. eauto. }
  inversion D; subst.
  - apply deleted_none. intros (pre & post & E).
    apply K in E as (pre' & _ & E). apply H. exists pre', post. exact E.
  - apply (@deleted_next old (c :: pre) post r0); auto.
    intros pre' post' E. simpl in E.
    apply K in E as (p' & -> & E). simpl. apply H in E. lia.
Qed.

Lemma replace_scan_deleted (old : pystr) :
  old <> [] ->
  forall n s, length s <= n -> deleted_all old s (replace_scan old [] 0 s).
Proof.
  intros Hn n. induction n as [|n IH]; intros s L.
  - destruct s; simpl in *; [|lia]. apply deleted_none.
    intros (pre & post & E). symmetry in E.
    apply app_eq_nil in E as [_ E]. apply app_eq_nil in E as [E _]. auto.
  - destruct s as [|c s].
    + simpl. apply deleted_none.
      intros (pre & post & E). symmetry in E.
      apply app_eq_nil in E as [_ E]. apply app_eq_nil in E as [E _]. auto.
    + cbn [replace_scan]. destruct (startswith old (c :: s)) eqn:E.
      * apply startswith_spec in E as [post E].
        destruct old as [|a old']; [congruence|].
        simpl in E. injection E as <- ->.
        rewrite replace_scan_skip. cbn [length]. rewrite Nat.sub_succ, Nat.sub_0_r.
        rewrite skipn_app, skipn_all, Nat.sub_diag. simpl skipn.
        apply (@deleted_next (c :: old') [] post).
        -- intros; simpl; lia.
        -- apply IH. simpl in *. rewrite length_app in L. lia.
      * apply deleted_cons; auto. apply IH. simpl in L. lia.
Qed.

Lemma str_replace_deleted (s old : pystr) :
  old <> [] -> deleted_all old s (str_replace s old []).
Proof.
  intros Hn. unfold str_replace. destruct old as [|a old]; [congruence|].
  apply replace_scan_deleted with (n := length s); auto.
Qed.

(** C1 (amended): when a pattern matches, every occurrence of the captured
    junk text is deleted from the title, scanning from the left: the first
    one and those after it too.  An empty capture leaves the title as it is,
    and so does a pattern that does not match. *)
Theorem C1_every_occurrence_deleted (new_title : pystr) (p : pattern) :
  match re_search p new_title with
  | None => remove_junk new_title p = Some new_title
  | Some m =>
      match group m "junk" with
      | None => remove_junk new_title p = None
      | Some junk =>
          exists r, remove_junk new_title p = Some r
            /\ (junk = [] -> r = new_title)
            /\ (junk <> [] -> deleted_all junk new_title r)
      end
  end.
Proof.
  unfold remove_junk. destruct (re_search p new_title) as [m|]; auto.
  destruct (group m "junk") as [junk|]; cbn [bind]; auto.
  eexists. split; [reflexivity|]. split.
  - intros ->. apply str_replace_empty.
  - apply str_replace_deleted.
Qed.

(** C1 as stated fails: the junk "(Audio)" occurs twice in the title; the
    code deletes both occurrences, the first-occurrence reading only one. *)
Lemma C1_counterexample :
  let audio := compiled "(?i)(?P<junk>[\(\[\{].*?Audio.*?[\)\]\}])" in
  remove_junk (py "One (Audio) Two (Audio)") audio = Some (py "One  Two ")
  /\ remove_junk_first (py "One (Audio) Two (Audio)") audio
     = Some (py "One  Two (Audio)")
  /\ remove_junk (py "One (Audio) Two (Audio)") audio
     <> remove_junk_first (py "One (Audio) Two (Audio)") audio.
Proof. vm_compute. repeat split. discriminate. Qed.

(** *** The listener *)

Lemma get_clean_title_path (self : FromYoutubeTitlePlugin) (a b : Item) :
  path a = path b -> get_clean_title self a = get_clean_title self b.
Proof. unfold get_clean_title. intros ->. reflexivity. Qed.

Lemma is_nil_true (A : Type) (l : list A) : is_nil l = true <-> l = [].
Proof. destruct l; simpl; split; congruence. Qed.

(** What one turn of the loop does to an item. *)
Lemma clean_item_frame (self : FromYoutubeTitlePlugin) (it it' : Item) :
  clean_item self it = Some it' ->
  path it' = path it /\ other_fields it' = other_fields it
  /\ (title it <> [] -> title it' = title it)
  /\ (title it = [] -> get_clean_title self it = Some (title it'))
  /\ (album it <> [] \/ infer_album self = false -> album it' = album it)
  /\ (album it = [] -> infer_album self = true ->
      album it' = get_album self it)
  /\ (artist it <> [] \/ infer_artist self = false ->
      artist it' = artist it)
  /\ (artist it = [] -> infer_artist self = true ->
      artist it' = get_artist self it).
Proof.
  unfold clean_item.
  destruct it as [p t al ar o]; cbn [title album artist path other_fields].
  destruct t as [|c t]; cbn [is_nil].
  - destruct (get_clean_title self (MkItem p [] al ar o)) as [T|] eqn:E;
      cbn [bind]; [|discriminate].
    intros [= <-].
    destruct (infer_album self), (infer_artist self), al, ar; simpl;
      repeat split; intros; try reflexivity; try congruence;
      intuition congruence.
  - cbn [bind]. intros [= <-].
    destruct (infer_album self), (infer_artist self), al, ar; simpl;
      repeat split; intros; try reflexivity; try congruence;
      intuition congruence.
Qed.

Lemma clean_item_idempotent (self : FromYoutubeTitlePlugin) (it it' : Item) :
  clean_item self it = Some it' -> clean_item self it' = Some it'.
Proof.
  destruct it as [p t al ar o].
  assert (exists A, forall x, path x = p -> get_album self x = A)
    as [A HA]
    by (exists (album_name_from_path (path_of (displayable_path p)));
        intros x <-; reflexivity).
  assert (exists R, forall x, path x = p -> get_artist self x = R)
    as [R HR]
    by (exists (artist_name_from_path (path_of (displayable_path p)));
        intros x <-; reflexivity).
  assert (exists G, forall x, path x = p -> get_clean_title self x = G)
    as [G HG].
  { exists (get_clean_title self (MkItem p [] [] [] [])). intros x E.
    apply get_clean_title_path. exact E. }
  unfold clean_item. cbn [title album artist path other_fields].
  rewrite ?HG by reflexivity.
  destruct t as [|c t], G as [T|]; cbn [is_nil bind]; try discriminate;
    intros [= <-];
    destruct (infer_album self), (infer_artist self), al, ar, A, R;
    try destruct T;
    do 4 (cbn [andb is_nil title album artist path other_fields set_title
               set_album set_artist bind];
          rewrite ?HG, ?HA, ?HR by reflexivity);
    reflexivity.
Qed.

Lemma heap_set_length (h : heap) (r : nat) (v : Item) :
  length (heap_set h r v) = length h.
Proof. revert r. induction h; intros [|r]; simpl; auto. Qed.

Lemma heap_set_same (h : heap) (r : nat) (v x : Item) :
  nth_error h r = Some x -> nth_error (heap_set h r v) r = Some v.
Proof.
  revert r. induction h; intros [|r]; simpl; try discriminate; auto.
Qed.

Lemma heap_set_other (h : heap) (r r' : nat) (v : Item) :
  r <> r' -> nth_error (heap_set h r v) r' = nth_error h r'.
Proof.
  revert r r'. induction h; intros [|r] [|r']; simpl; auto; congruence.
Qed.

(** The loop, with the references already visited. *)
Lemma clean_loop_spec (self : FromYoutubeTitlePlugin) (h0 : heap) :
  forall refs seen h h',
  (forall r it, nth_error h0 r = Some it ->
     exists c, nth_error h r = Some c
       /\ (In r seen -> clean_item self it = Some c)
       /\ (~ In r seen -> c = it)) ->
  (forall r, nth_error h0 r = None -> nth_error h r = None) ->
  clean_loop self h refs = Some h' ->
  (forall r it, nth_error h0 r = Some it ->
     exists c, nth_error h' r = Some c
       /\ (In r seen \/ In r refs -> clean_item self it = Some c)
       /\ (~ (In r seen \/ In r refs) -> c = it))
  /\ (forall r, nth_error h0 r = None -> nth_error h' r = None).
Proof.
  induction refs as [|r0 refs IH]; intros seen h h' Inv InvN; simpl.
  - intros [= <-]. split; auto. intros r it Hr.
    destruct (Inv r it Hr) as (c & Hc & A & B). exists c. intuition.
  - destruct (nth_error h r0) as [cur|] eqn:Hcur; cbn [bind]; [|discriminate].
    destruct (clean_item self cur) as [cur'|] eqn:Hcl; cbn [bind];
      [|discriminate].
    intros H. apply (IH (r0 :: seen)) in H.
    + destruct H as [H HN]. split; auto. intros r it Hr.
      destruct (H r it Hr) as (c & Hc & A & B). exists c. simpl in *.
      intuition.
    + intros r it Hr. destruct (Inv r it Hr) as (c & Hc & A & B).
      destruct (Nat.eq_dec r0 r) as [->|Ne].
      * exists cur'. rewrite Hc in Hcur. injection Hcur as ->.
        split; [eapply heap_set_same; eauto|]. split.
        -- intros _. destruct (in_dec Nat.eq_dec r seen) as [I|I].
           ++ specialize (A I). pose proof A as A'.
              apply clean_item_idempotent in A'. congruence.
           ++ rewrite <- (B I). exact Hcl.
        -- simpl. intuition.
      * exists c. rewrite heap_set_other by exact Ne. simpl. intuition.
    + intros r Hr. destruct (Nat.eq_dec r0 r) as [->|Ne].
      * rewrite (InvN r Hr) in Hcur. discriminate.
      * rewrite heap_set_other by exact Ne. auto.
Qed.

Lemma clean_loop_length (self : FromYoutubeTitlePlugin) :
  forall refs h h', clean_loop self h refs = Some h' -> length h' = length h.
Proof.
  induction refs as [|r refs IH]; intros h h'; simpl.
  - intros [= <-]. reflexivity.
  - destruct (nth_error h r) as [cur|]; cbn [bind]; [|discriminate].
    destruct (clean_item self cur) as [cur'|]; cbn [bind]; [|discriminate].
    intros H. apply IH in H. rewrite H. apply heap_set_length.
Qed.

(** C4: the listener never overwrites a non-empty title, album or artist:
    the title is written only when it is empty, the album only when
    [parent_is_album] is set and the album is empty, the artist only when
    [parent_parent_is_artist] is set and the artist is empty; the path and
    all the other fields of every item stay as they were, and an item the
    task does not list is not touched. *)
Theorem C4_fields_not_overwritten (self : FromYoutubeTitlePlugin)
    (task : ImportTask) (h h' : heap) :
  clean_youtube_metadata self task h = Some h' ->
  length h' = length h
  /\ forall r it, nth_error h r = Some it ->
     exists it', nth_error h' r = Some it'
       /\ path it' = path it /\ other_fields it' = other_fields it
       /\ (title it <> [] -> title it' = title it)
       /\ (album it <> [] \/ infer_album self = false ->
           album it' = album it)
       /\ (artist it <> [] \/ infer_artist self = false ->
           artist it' = artist it)
       /\ forall refs, task_items task = Some refs ->
          (~ In r refs -> it' = it)
          /\ (In r refs -> title it = [] ->
              get_clean_title self it = Some (title it'))
          /\ (In r refs -> album it = [] -> infer_album self = true ->
              album it' = get_album self it)
          /\ (In r refs -> artist it = [] -> infer_artist self = true ->
              artist it' = get_artist self it).
Proof.
  unfold clean_youtube_metadata.
  destruct (task_items task) as [refs|]; cbn [bind]; [|discriminate].
  intros H. split; [eapply clean_loop_length; eauto|].
  apply (@clean_loop_spec self h refs [] h h') in H.
  - destruct H as [H _]. intros r it Hr.
    destruct (H r it Hr) as (c & Hc & A & B). exists c.
    split; [exact Hc|].
    destruct (in_dec Nat.eq_dec r refs) as [I|I].
    + assert (clean_item self it = Some c) as K by auto.
      apply clean_item_frame in K
        as (Kp & Ko & Kt & Kt' & Ka & Ka' & Kr & Kr').
      repeat split; auto; intros;
        repeat match goal with
               | E : Some _ = Some _ |- _ => injection E as <-
               end; intuition.
    + assert (c = it) as -> by (apply B; simpl; tauto).
      repeat split; auto; intros;
        repeat match goal with
               | E : Some _ = Some _ |- _ => injection E as <-
               end; intuition.
  - intros r it Hr. exists it. simpl. intuition.
  - auto.
Qed.

Lemma C4_witness :
  let self := MkPlugin true true in
  let h := [ MkItem (py "Artist/Album/01 Track (Official Audio).mp3")
                    [] [] (py "Someone") [];
             MkItem (py "A/B/x.mp3") (py "Kept") [] []
                    [("year"%string, py "1999")] ] in
  let task := MkTask false true None [0; 1; 0] in
  exists h', clean_youtube_metadata self task h = Some h'
    /\ length h' = length h
    /\ nth_error h' 0
       = Some (MkItem (py "Artist/Album/01 Track (Official Audio).mp3")
                      (py "01 Track") (py "Album") (py "Someone") []).
Proof.
  intros self h task. eexists. split; [vm_compute; reflexivity|].
  split.
  - eapply (@C4_fields_not_overwritten self task h). vm_compute. reflexivity.
  - reflexivity.
Defined.

(** *** Reading an escaped name *)

Lemma re_escape_cons (c : ascii) (s : pystr) :
  re_escape (c :: s) = escaped c ++ re_escape s.
Proof. reflexivity. Qed.

Lemma quantify_none (a : regex) (s : pystr) :
  no_repeat_head s = true -> quantify a s = Some (a, s).
Proof.
  unfold no_repeat_head, quantify. destruct s as [|q s]; simpl; auto.
  rewrite orb_false_r. destruct (is_repeat_char q); simpl; congruence.
Qed.

Lemma no_repeat_head_escaped (c : ascii) (s : pystr) :
  no_repeat_head (escaped c ++ s) = true.
Proof. each_char c; reflexivity. Qed.

Lemma parse_seq_escaped (c : ascii) (rest : pystr) (f : nat) :
  no_repeat_head rest = true ->
  parse_seq (S (S f)) (escaped c ++ rest)
  = match parse_seq (S f) rest with
    | Some (r, rest') => Some (Cat (Chr (CLit c)) r, rest')
    | None => None
    end.
Proof.
  intros H.
  assert (parse_atom (S f) (escaped c ++ rest) = Some (Chr (CLit c), rest)) as A
    by (each_char c; reflexivity).
  assert (exists x s, escaped c ++ rest = x :: s
            /\ (Ascii.eqb x "|" || Ascii.eqb x ")")%bool = false) as (x & s & E & N)
    by (each_char c; eexists; eexists; split; reflexivity).
  change (parse_seq (S (S f)) (escaped c ++ rest))
    with (match escaped c ++ rest with
          | [] => Some (Eps, [])
          | c0 :: _ =>
              if (Ascii.eqb c0 "|" || Ascii.eqb c0 ")")%bool
              then Some (Eps, escaped c ++ rest)
              else
                match parse_atom (S f) (escaped c ++ rest) with
                | Some (a, rest0) =>
                    match quantify a rest0 with
                    | Some (q, rest') =>
                        match parse_seq (S f) rest' with
                        | Some (r, rest'') => Some (Cat q r, rest'')
                        | None => None
                        end
                    | None => None
                    end
                | None => None
                end
          end).
  rewrite A. rewrite E, N. rewrite quantify_none by exact H. reflexivity.
Qed.

Lemma no_repeat_head_escape (name rest : pystr) :
  no_repeat_head rest = true -> no_repeat_head (re_escape name ++ rest) = true.
Proof.
  destruct name as [|c name]; simpl; auto. intros _.
  rewrite <- app_assoc. apply no_repeat_head_escaped.
Qed.

Lemma parse_seq_escape (name rest : pystr) (f : nat) :
  no_repeat_head rest = true ->
  parse_seq (S (length name + f)) (re_escape name ++ rest)
  = match parse_seq (S f) rest with
    | Some (r, rest') => Some (literals name r, rest')
    | None => None
    end.
Proof.
  intros H. induction name as [|c name IH].
  - cbn [length Nat.add re_escape flat_map app literals fold_right].
    destruct (parse_seq (S f) rest) as [[r rest']|]; reflexivity.
  - rewrite re_escape_cons, <- app_assoc. cbn [length Nat.add].
    rewrite parse_seq_escaped by (apply no_repeat_head_escape, H).
    rewrite IH. destruct (parse_seq (S f) rest) as [[r rest']|]; reflexivity.
Qed.

Lemma parse_alt_S (f : nat) (inp : pystr) :
  parse_alt (S f) inp
  = match parse_seq f inp with
    | Some (a, c :: rest) =>
        if Ascii.eqb c "|" then
          match parse_alt f rest with
          | Some (b, rest') => Some (Alt a b, rest')
          | None => None
          end
        else Some (a, c :: rest)
    | r => r
    end.
Proof. reflexivity. Qed.

Lemma parse_seq_S (f : nat) (inp : pystr) :
  parse_seq (S f) inp
  = match inp with
    | [] => Some (Eps, [])
    | c :: _ =>
        if (Ascii.eqb c "|" || Ascii.eqb c ")")%bool then Some (Eps, inp)
        else
          match parse_atom f inp with
          | Some (a, rest) =>
              match quantify a rest with
              | Some (q, rest') =>
                  match parse_seq f rest' with
                  | Some (r, rest'') => Some (Cat q r, rest'')
                  | None => None
                  end
              | None => None
              end
          | None => None
          end
    end.
Proof. reflexivity. Qed.

Lemma quantify_opt (k : cclass) (rest : pystr) :
  no_repeat_head rest = true ->
  quantify (Chr k) ("?"%char :: rest) = Some (Opt (Chr k), rest).
Proof.
  destruct rest as [|q s]; [reflexivity|].
  each_char q; vm_compute; intros H; (discriminate || reflexivity).
Qed.

Lemma parse_close_paren (f : nat) :
  parse_seq (S (S f)) (py "\)?)")
  = Some (Cat (Opt (Chr (CLit ")"))) Eps, py ")").
Proof. reflexivity. Qed.

Lemma parse_artist_body (name : pystr) (f : nat) :
  parse_seq (S (S (length name + S f)))
            (py "\(?" ++ re_escape name ++ py "\)?)")
  = Some (Cat (Opt (Chr (CLit "(")))
              (literals name (Cat (Opt (Chr (CLit ")"))) Eps)), py ")").
Proof.
  rewrite parse_seq_S.
  cbn [py list_ascii_of_string app Ascii.eqb Bool.eqb orb andb].
  change (parse_atom (S (length name + S f)) ?i)
    with (Some (Chr (CLit "("), tl (tl i))).
  cbn [tl]. rewrite quantify_opt by (apply no_repeat_head_escape; reflexivity).
  rewrite parse_seq_escape by reflexivity.
  rewrite parse_close_paren. reflexivity.
Qed.

Lemma parse_album_body (name : pystr) (f : nat) :
  parse_seq (S (S (length name + S f)))
            (py "\(" ++ re_escape name ++ py "\))")
  = Some (Cat (Chr (CLit "("))
              (literals name (Cat (Chr (CLit ")")) Eps)), py ")").
Proof.
  rewrite parse_seq_S.
  cbn [py list_ascii_of_string app Ascii.eqb Bool.eqb orb andb].
  change (parse_atom (S (length name + S f)) ?i)
    with (Some (Chr (CLit "("), tl (tl i))).
  cbn [tl]. rewrite quantify_none by (apply no_repeat_head_escape; reflexivity).
  rewrite parse_seq_escape by reflexivity. reflexivity.
Qed.

Lemma parse_junk_group (body : regex) (inp : pystr) (f : nat) :
  parse_seq (S f) inp = Some (body, py ")") ->
  parse_alt (S (S (S (S (S f))))) (py "(?P<junk>" ++ inp)
  = Some (Cat (Group "junk" body) Eps, []).
Proof.
  intros H.
  assert (parse_atom (S (S (S f))) (py "(?P<junk>" ++ inp)
          = Some (Group "junk" body, [])) as A.
  { change (parse_atom (S (S (S f))) (py "(?P<junk>" ++ inp))
      with (expect_close (parse_alt (S (S f)) inp) (Group "junk")).
    rewrite parse_alt_S, H. reflexivity. }
  rewrite parse_alt_S, parse_seq_S.
  cbn [py list_ascii_of_string app Ascii.eqb Bool.eqb orb andb].
  change ("("%char :: "?"%char :: "P"%char :: "<"%char :: "j"%char
          :: "u"%char :: "n"%char :: "k"%char :: ">"%char :: inp)
    with (py "(?P<junk>" ++ inp).
  rewrite A. reflexivity.
Qed.

Lemma re_escape_length (name : pystr) : length name <= length (re_escape name).
Proof.
  induction name as [|c name IH]; simpl; auto.
  rewrite length_app. unfold escaped. destruct (is_special c); simpl; lia.
Qed.

Lemma re_compile_junk_group (body : regex) (inp : pystr) (n : nat) :
  (forall f, parse_seq (S (S (n + S f))) inp = Some (body, py ")")) ->
  n + 8 <= 3 * length inp ->
  re_compile (py "(?i)(?P<junk>" ++ inp)
  = Some (Pattern true (Cat (Group "junk" body) Eps)).
Proof.
  intros H L. unfold re_compile.
  cbn [py list_ascii_of_string app startswith Ascii.eqb Bool.eqb andb skipn].
  change ("("%char :: "?"%char :: "P"%char :: "<"%char :: "j"%char
          :: "u"%char :: "n"%char :: "k"%char :: ">"%char :: inp)
    with (py "(?P<junk>" ++ inp).
  set (src := py "(?P<junk>" ++ inp).
  assert (exists f, 3 * length src + 3
                    = S (S (S (S (S (S (n + S f))))))) as [f ->].
  { exists (3 * length src + 3 - n - 7). subst src.
    rewrite length_app. simpl length. lia. }
  subst src. rewrite (@parse_junk_group body inp (S (n + S f))) by apply H.
  reflexivity.
Qed.

Lemma remove_artist_name_pattern_eq (artist_name : pystr) :
  remove_artist_name_pattern artist_name
  = Some (Pattern true (artist_regex artist_name)).
Proof.
  unfold remove_artist_name_pattern, artist_regex.
  change (py "(?i)(?P<junk>\(?" ++ re_escape artist_name ++ py "\)?)")
    with (py "(?i)(?P<junk>"
            ++ (py "\(?" ++ re_escape artist_name ++ py "\)?)")).
  apply re_compile_junk_group with (n := length artist_name).
  - intros f. apply parse_artist_body.
  - rewrite !length_app. pose proof (re_escape_length artist_name).
    simpl length. lia.
Qed.

Lemma remove_album_name_pattern_eq (album_name : pystr) :
  remove_album_name_pattern album_name
  = Some (Pattern true (album_regex album_name)).
Proof.
  unfold remove_album_name_pattern, album_regex.
  change (py "(?i)(?P<junk>\(" ++ re_escape album_name ++ py "\))")
    with (py "(?i)(?P<junk>"
            ++ (py "\(" ++ re_escape album_name ++ py "\))")).
  apply re_compile_junk_group with (n := length album_name).
  - intros f. apply parse_album_body.
  - rewrite !length_app. pose proof (re_escape_length album_name).
    simpl length. lia.
Qed.

(** *** What the album and artist patterns match *)

Lemma char_eq_ci (c x : ascii) :
  char_eq true c x = true <-> tolower c = tolower x.
Proof. unfold char_eq. apply Ascii.eqb_eq. Qed.

Lemma char_eq_open (x : ascii) : char_eq true "(" x = true <-> x = "("%char.
Proof.
  split; [|intros ->; reflexivity].
  each_char x; vm_compute; intros H; (discriminate || reflexivity).
Qed.

Lemma char_eq_close (x : ascii) : char_eq true ")" x = true <-> x = ")"%char.
Proof.
  split; [|intros ->; reflexivity].
  each_char x; vm_compute; intros H; (discriminate || reflexivity).
Qed.

Lemma literals_denotes (name : pystr) (r : regex) :
  forall st m,
  denotes true (literals name r) st m <->
  exists mid rest, ahead st = mid ++ rest /\ ci_eq name mid
    /\ denotes true r (MState (rev mid ++ consumed st) rest (groups st)) m.
Proof.
  induction name as [|c name IH]; intros st m; cbn [literals fold_right].
  - split.
    + intros D. exists [], (ahead st). simpl. repeat split; [constructor|].
      destruct st; exact D.
    + intros (mid & rest & E & C & D). inversion C; subst. simpl in *.
      destruct st; simpl in *; subst; exact D.
  - fold (literals name r). cbn [denotes cclass_ok]. split.
    + intros (m1 & (x & rest & E & Hx & ->) & D).
      apply IH in D as (mid & rest' & E' & C & D). simpl in *. subst rest.
      exists (x :: mid), rest'. simpl. rewrite <- app_assoc. simpl.
      repeat split; auto. constructor; auto. apply char_eq_ci, Hx.
    + intros (mid & rest & E & C & D). inversion C as [|? x ? mid' Hx C']; subst.
      exists (advance x (mid' ++ rest) st). split.
      * exists x, (mid' ++ rest). repeat split; auto. apply char_eq_ci, Hx.
      * apply IH. exists mid', rest. simpl. repeat split; auto.
        simpl in D. rewrite <- app_assoc in D. exact D.
Qed.

Lemma opt_paren_denotes (c : ascii) (st m : mstate) :
  (forall x, char_eq true c x = true <-> x = c) ->
  denotes true (Opt (Chr (CLit c))) st m <->
  exists op rest, ahead st = op ++ rest /\ paren_opt c op
    /\ m = MState (rev op ++ consumed st) rest (groups st).
Proof.
  intros Hc. cbn [denotes cclass_ok]. split.
  - intros [(x & rest & E & Hx & ->)| ->].
    + apply Hc in Hx as ->. exists [c], rest. repeat split; auto.
      right. reflexivity.
    + exists [], (ahead st). repeat split; [left; reflexivity|].
      destruct st; reflexivity.
  - intros (op & rest & E & [->| ->] & ->); simpl in *.
    + right. destruct st; simpl in *; subst; reflexivity.
    + left. exists c, rest. repeat split; auto. apply Hc. reflexivity.
Qed.

Lemma opt_paren_end (c : ascii) (st m : mstate) :
  (forall x, char_eq true c x = true <-> x = c) ->
  denotes true (Cat (Opt (Chr (CLit c))) Eps) st m <->
  exists op rest, ahead st = op ++ rest /\ paren_opt c op
    /\ m = MState (rev op ++ consumed st) rest (groups st).
Proof.
  intros Hc. rewrite <- (@opt_paren_denotes c st m Hc).
  change (denotes true (Cat (Opt (Chr (CLit c))) Eps) st m)
    with (exists m0, denotes true (Opt (Chr (CLit c))) st m0 /\ m = m0).
  split.
  - intros (m0 & D & ->). exact D.
  - intros D. eauto.
Qed.

Lemma junk_group_denotes (ic : bool) (a : regex) (st m : mstate) :
  denotes ic (Cat (Group "junk" a) Eps) st m <->
  exists m0 w, denotes ic a st m0 /\ moved w st m0
    /\ m = MState (consumed m0) (ahead m0) (("junk"%string, w) :: groups m0).
Proof.
  change (denotes ic (Cat (Group "junk" a) Eps) st m)
    with (exists m1, (exists m0, denotes ic a st m0
                                 /\ m1 = close_group "junk" st m0)
                     /\ m = m1).
  split.
  - intros (m1 & (m0 & D & ->) & ->).
    destruct (@denotes_moved ic a st m0 D) as [w M].
    exists m0, w. repeat split; auto; try apply M.
    apply close_group_moved, M.
  - intros (m0 & w & D & M & ->). eexists. split; [|reflexivity].
    exists m0. split; auto. symmetry. apply close_group_moved, M.
Qed.

Lemma moved_unique (w w' : pystr) (st m : mstate) :
  moved w st m -> moved w' st m -> w = w'.
Proof.
  intros [_ A] [_ B]. rewrite A in B. apply app_inv_tail in B.
  rewrite <- (rev_involutive w), B. apply rev_involutive.
Qed.

Lemma artist_denotes (name : pystr) (st m : mstate) :
  denotes true (artist_regex name) st m <->
  exists op mid cl rest, ahead st = op ++ mid ++ cl ++ rest
    /\ paren_opt "(" op /\ paren_opt ")" cl /\ ci_eq name mid
    /\ m = MState (rev (op ++ mid ++ cl) ++ consumed st) rest
                  (("junk"%string, op ++ mid ++ cl) :: groups st).
Proof.
  unfold artist_regex. rewrite junk_group_denotes.
  set (tail := literals name (Cat (Opt (Chr (CLit ")"))) Eps)).
  change (denotes true (Cat (Opt (Chr (CLit "("))) tail) st)
    with (fun m0 => exists m1, denotes true (Opt (Chr (CLit "("))) st m1
                               /\ denotes true tail m1 m0).
  cbv beta. subst tail. split.
  - intros (m0 & w & (m1 & Hop & D) & M & ->).
    apply (proj1 (@opt_paren_denotes "(" st m1 char_eq_open)) in Hop
      as (op & r1 & E1 & Pop & ->).
    apply literals_denotes in D as (mid & r2 & E2 & C & Hcl).
    apply (proj1 (@opt_paren_end ")" _ m0 char_eq_close)) in Hcl
      as (cl & r3 & E3 & Pcl & ->).
    cbn [ahead consumed groups] in *. subst r1 r2.
    exists op, mid, cl, r3.
    assert (moved (op ++ mid ++ cl) st
              (MState (rev cl ++ rev mid ++ rev op ++ consumed st) r3
                      (groups st))) as M'.
    { split; cbn [ahead consumed].
      - rewrite E1, <- ?app_assoc. reflexivity.
      - rewrite ?rev_app_distr, <- ?app_assoc. reflexivity. }
    rewrite (@moved_unique _ _ _ _ M M'). repeat split; auto.
    rewrite ?rev_app_distr, <- ?app_assoc. reflexivity.
  - intros (op & mid & cl & rest & E & Pop & Pcl & C & ->).
    exists (MState (rev cl ++ rev mid ++ rev op ++ consumed st) rest
                   (groups st)), (op ++ mid ++ cl).
    split; [|split].
    + exists (MState (rev op ++ consumed st) (mid ++ cl ++ rest) (groups st)).
      split.
      * apply (proj2 (@opt_paren_denotes "(" _ _ char_eq_open)).
        exists op. eauto.
      * apply literals_denotes. exists mid, (cl ++ rest).
        cbn [ahead consumed groups]. repeat split; auto.
        apply (proj2 (@opt_paren_end ")" _ _ char_eq_close)).
        exists cl, rest.
        cbn [ahead consumed groups]. rewrite <- ?app_assoc. auto.
    + split; cbn [ahead consumed].
      * rewrite E, <- ?app_assoc. reflexivity.
      * rewrite ?rev_app_distr, <- ?app_assoc. reflexivity.
    + cbn [ahead consumed groups].
      rewrite ?rev_app_distr, <- ?app_assoc. reflexivity.
Qed.

Lemma literals_app (a b : pystr) (r : regex) :
  literals (a ++ b) r = literals a (literals b r).
Proof. unfold literals. apply fold_right_app. Qed.

Lemma album_denotes (name : pystr) (st m : mstate) :
  denotes true (album_regex name) st m <->
  exists mid rest, ahead st = ("("%char :: mid ++ [")"%char]) ++ rest
    /\ ci_eq name mid
    /\ m = MState (rev ("("%char :: mid ++ [")"%char]) ++ consumed st) rest
                  (("junk"%string, "("%char :: mid ++ [")"%char])
                     :: groups st).
Proof.
  unfold album_regex. rewrite junk_group_denotes.
  change (Cat (Chr (CLit "(")) (literals name (Cat (Chr (CLit ")")) Eps)))
    with (literals ["("%char] (literals name (literals [")"%char] Eps))).
  replace (literals ["("%char] (literals name (literals [")"%char] Eps)))
    with (literals ("("%char :: name ++ [")"%char]) Eps)
    by (rewrite (literals_app ["("%char] (name ++ [")"%char])), literals_app;
        reflexivity).
  split.
  - intros (m0 & w & D & M & ->).
    apply literals_denotes in D as (txt & rest & E & C & D).
    cbn [denotes] in D. subst m0.
    inversion C as [|? x ? txt' Hx C']; subst. clear C.
    apply Forall2_app_inv_l in C' as (mid & c & C & Cc & ->).
    inversion Cc as [|? y ? ? Hy Cc']; subst. inversion Cc'; subst.
    apply char_eq_ci, char_eq_open in Hx as ->.
    apply char_eq_ci, char_eq_close in Hy as ->.
    exists mid, rest. cbn [app] in *. repeat split; auto.
    assert (moved ("("%char :: mid ++ [")"%char]) st
              (MState (rev ("("%char :: mid ++ [")"%char]) ++ consumed st)
                      rest (groups st))) as M'
      by (split; auto).
    rewrite (@moved_unique _ _ _ _ M M'). reflexivity.
  - intros (mid & rest & E & C & ->).
    exists (MState (rev ("("%char :: mid ++ [")"%char]) ++ consumed st) rest
                   (groups st)), ("("%char :: mid ++ [")"%char]).
    split; [|split].
    + apply literals_denotes. exists ("("%char :: mid ++ [")"%char]), rest.
      repeat split; auto.
      constructor; [reflexivity|].
      apply Forall2_app; [exact C|repeat constructor].
    + split; auto.
    + reflexivity.
Qed.

Lemma artist_matches_exactly (name : pystr) :
  matches_exactly (Pattern true (artist_regex name)) (artist_text name).
Proof.
  intros st m. cbn [ignorecase body]. rewrite matches_denotes, artist_denotes.
  split.
  - intros (op & mid & cl & rest & E & Pop & Pcl & C & ->).
    exists (op ++ mid ++ cl), rest. repeat split; auto.
    + exists op, mid, cl. auto.
    + rewrite E, <- !app_assoc. reflexivity.
  - intros (junk & rest & (op & mid & cl & -> & Pop & Pcl & C) & E & ->).
    exists op, mid, cl, rest. repeat split; auto.
    rewrite E, <- !app_assoc. reflexivity.
Qed.

Lemma album_matches_exactly (name : pystr) :
  matches_exactly (Pattern true (album_regex name)) (album_text name).
Proof.
  intros st m. cbn [ignorecase body]. rewrite matches_denotes, album_denotes.
  split.
  - intros (mid & rest & E & C & ->). eexists. exists rest.
    repeat split; eauto. exists mid. auto.
  - intros (junk & rest & (mid & -> & C) & E & ->). exists mid, rest. auto.
Qed.

(** What [re_search] finds follows from what the pattern matches. *)
Lemma search_of_language (p : pattern) (lang : pystr -> Prop) :
  matches_exactly p lang ->
  (forall t m, re_search p t = Some m ->
     exists pre junk post, t = pre ++ junk ++ post /\ lang junk
       /\ group m "junk" = Some junk
       /\ consumed m = rev (pre ++ junk) /\ ahead m = post)
  /\ (forall pre junk post, lang junk ->
        re_search p (pre ++ junk ++ post) <> None).
Proof.
  intros L. split.
  - intros t m H. apply re_search_Some in H as (pre & post & -> & F).
    apply first_match_denotes, matches_denotes, L in F
      as (junk & rest & Hj & E & ->).
    cbn [ahead consumed groups] in *. subst post.
    exists pre, junk, rest. repeat split; auto.
    rewrite rev_app_distr. reflexivity.
  - intros pre junk post Hj N.
    rewrite re_search_None in N. specialize (N pre (junk ++ post) eq_refl).
    rewrite first_match_None in N. eapply N, matches_denotes, L.
    exists junk, post. cbn [ahead consumed groups]. eauto.
Qed.

(** C8: the artist pattern compiles for every name; under [re.IGNORECASE]
    it matches exactly the name taken literally, up to case, with an opening
    and a closing parenthesis each present or not, and captures all of the
    matched text, parentheses included, as "junk".  The album pattern
    matches exactly the name between both parentheses and captures it with
    them.  [re_search] finds such a text whenever the title holds one, and
    nothing else. *)
Theorem C8_name_patterns (name : pystr) :
  (exists p, remove_artist_name_pattern name = Some p
     /\ ignorecase p = true
     /\ matches_exactly p (artist_text name)
     /\ (forall t m, re_search p t = Some m ->
           exists pre junk post, t = pre ++ junk ++ post
             /\ artist_text name junk /\ group m "junk" = Some junk
             /\ consumed m = rev (pre ++ junk) /\ ahead m = post)
     /\ (forall pre junk post, artist_text name junk ->
           re_search p (pre ++ junk ++ post) <> None))
  /\ (exists p, remove_album_name_pattern name = Some p
        /\ ignorecase p = true
        /\ matches_exactly p (album_text name)
        /\ (forall t m, re_search p t = Some m ->
              exists pre junk post, t = pre ++ junk ++ post
                /\ album_text name junk /\ group m "junk" = Some junk
                /\ consumed m = rev (pre ++ junk) /\ ahead m = post)
        /\ (forall pre junk post, album_text name junk ->
              re_search p (pre ++ junk ++ post) <> None)).
Proof.
  split.
  - exists (Pattern true (artist_regex name)).
    split; [apply remove_artist_name_pattern_eq|]. split; [reflexivity|].
    split; [apply artist_matches_exactly|].
    apply search_of_language, artist_matches_exactly.
  - exists (Pattern true (album_regex name)).
    split; [apply remove_album_name_pattern_eq|]. split; [reflexivity|].
    split; [apply album_matches_exactly|].
    apply search_of_language, album_matches_exactly.
Qed.

(** *** The pipeline never raises *)

Lemma junk_group_captures (p : pattern) (t : pystr) (m : mstate) :
  is_junk_group p = true -> re_search p t = Some m ->
  exists junk, group m "junk" = Some junk.
Proof.
  unfold is_junk_group. destruct p as [ic r]. cbn [body].
  destruct r as [| | | |a b| | | | |]; try discriminate.
  destruct a as [| | | | | | | | |n a]; try discriminate.
  destruct b; try discriminate.
  intros Hn H. apply String.eqb_eq in Hn as ->.
  apply re_search_Some in H as (pre & post & _ & F).
  apply first_match_denotes in F. cbn [ignorecase body] in F.
  apply junk_group_denotes in F as (m0 & w & _ & _ & ->).
  exists w. apply group_top.
Qed.

Lemma remove_junk_total (p : pattern) (t : pystr) :
  is_junk_group p = true -> exists r, remove_junk t p = Some r.
Proof.
  intros Hp. unfold remove_junk.
  destruct (re_search p t) as [m|] eqn:E; eauto.
  destruct (@junk_group_captures p t m Hp E) as [junk ->]. cbn [bind]. eauto.
Qed.

Lemma for_each_remove_junk_total (ps : list pattern) :
  Forall (fun p => is_junk_group p = true) ps ->
  forall t, exists r, for_each remove_junk t ps = Some r.
Proof.
  induction 1 as [|p ps Hp _ IH]; intros t; cbn [for_each]; eauto.
  destruct (@remove_junk_total p t Hp) as [r ->]. cbn [bind]. apply IH.
Qed.

Lemma replace_junk_total (ps : list pattern) (t : pystr) :
  Forall (fun p => is_junk_group p = true) ps ->
  exists r, _replace_junk t ps = Some r.
Proof.
  intros Hps. unfold _replace_junk.
  destruct (@for_each_remove_junk_total ps Hps t) as [nt ->]. cbn [bind].
  destruct (strip_spec nt) as (_ & _ & _ & _ & _ & A & B).
  destruct (@cleanup_spec (strip nt) A B) as (r & E & _). eauto.
Qed.

Lemma catalog_junk_groups :
  Forall (fun p => is_junk_group p = true) YOUTUBE_TITLE_JUNK.
Proof. repeat constructor. Qed.

(** [get_clean_title] returns a title for every item, whatever its path. *)
Lemma get_clean_title_total (self : FromYoutubeTitlePlugin) (it : Item) :
  exists t, get_clean_title self it = Some t.
Proof.
  unfold get_clean_title.
  rewrite remove_album_name_pattern_eq, remove_artist_name_pattern_eq.
  cbn [bind].
  destruct (infer_album self), (infer_artist self); cbn [bind app];
    apply replace_junk_total;
    repeat first [apply catalog_junk_groups | constructor; [reflexivity|]].
Qed.

Lemma clean_item_total (self : FromYoutubeTitlePlugin) (it : Item) :
  exists it', clean_item self it = Some it'.
Proof.
  unfold clean_item. destruct (get_clean_title_total self it) as [t ->].
  cbn [bind]. destruct (is_nil (title it)); cbn [bind]; eauto.
Qed.

Lemma clean_loop_total (self : FromYoutubeTitlePlugin) (refs : list nat) :
  forall h, Forall (fun r => r < length h) refs ->
  exists h', clean_loop self h refs = Some h'.
Proof.
  induction refs as [|r refs IH]; intros h Hr; cbn [clean_loop]; eauto.
  inversion Hr as [|? ? Hlt Hrest]; subst.
  destruct (nth_error h r) as [cur|] eqn:E.
  - cbn [bind]. destruct (clean_item_total self cur) as [cur' ->].
    cbn [bind]. apply IH. rewrite heap_set_length. exact Hrest.
  - apply nth_error_None in E. lia.
Qed.

(** The listener runs to the end on every task whose references are items
    of the heap. *)
Lemma clean_youtube_metadata_total (self : FromYoutubeTitlePlugin)
    (task : ImportTask) (h : heap) (refs : list nat) :
  task_items task = Some refs -> Forall (fun r => r < length h) refs ->
  exists h', clean_youtube_metadata self task h = Some h'.
Proof.
  intros E Hr. unfold clean_youtube_metadata. rewrite E. cbn [bind].
  apply clean_loop_total, Hr.
Qed.

(** *** An empty artist name *)

Lemma empty_artist_text (junk : pystr) :
  artist_text [] junk ->
  junk = [] \/ junk = py "(" \/ junk = py ")" \/ junk = py "()".
Proof.
  intros (op & mid & cl & -> & [->| ->] & [->| ->] & C);
    inversion C; subst; simpl; auto.
Qed.

Lemma empty_artist_search (title : pystr) :
  head_is is_paren title = false ->
  exists m, re_search (Pattern true (artist_regex [])) title = Some m
    /\ group m "junk" = Some [].
Proof.
  intros Hh. set (p := Pattern true (artist_regex [])).
  assert (artist_text [] []) as T0.
  { exists [], [], []. split; [reflexivity|].
    split; [left; reflexivity|]. split; [left; reflexivity|constructor]. }
  destruct (re_search p title) as [m|] eqn:E.
  - exists m. split; [reflexivity|].
    apply search_from_Some in E as (pre & post & -> & F & Min).
    assert (pre = []) as ->.
    { destruct pre as [|x pre]; auto. exfalso.
      specialize (Min [] ((x :: pre) ++ post) eq_refl).
      cbn [length rev app] in Min. specialize (Min (Nat.lt_0_succ _)).
      rewrite first_match_None in Min. eapply Min.
      apply matches_denotes, (artist_matches_exactly []).
      exists [], ((x :: pre) ++ post). cbn [ahead consumed groups app rev].
      eauto. }
    apply first_match_denotes, matches_denotes,
      (artist_matches_exactly []) in F as (junk & rest & Hj & Ej & ->).
    cbn [ahead consumed groups app rev] in *. subst post.
    apply empty_artist_text in Hj as [->|[->|[->| ->]]];
      try reflexivity; discriminate.
  - exfalso.
    destruct (search_of_language (artist_matches_exactly [])) as [_ C].
    apply (C [] [] title T0). exact E.
Qed.

(** C10 (amended): with an empty artist name, as a path without a
    grandparent directory gives, [remove_artist_name_pattern] succeeds; its
    pattern matches the empty string with an empty "junk" capture and is
    found in every title; applied to a title that does not begin with a
    parenthesis it captures the empty string and leaves the title as it is;
    and [get_clean_title] returns a title for every item, whatever the depth
    of its path. *)
Theorem C10_empty_artist_name :
  artist_name_from_path (path_of (py "Song.mp3")) = []
  /\ exists p, remove_artist_name_pattern [] = Some p
     /\ (exists m, re_match p [] = Some m /\ group m "junk" = Some [])
     /\ (forall title, re_search p title <> None)
     /\ (forall title, head_is is_paren title = false ->
           (exists m, re_search p title = Some m
                      /\ group m "junk" = Some [])
           /\ remove_junk title p = Some title)
     /\ (forall self it, exists t, get_clean_title self it = Some t).
Proof.
  split; [reflexivity|].
  exists (Pattern true (artist_regex [])).
  split; [apply remove_artist_name_pattern_eq|].
  split; [eexists; split; reflexivity|].
  split; [|split].
  - intros title.
    destruct (search_of_language (artist_matches_exactly [])) as [_ C].
    apply (C [] [] title).
    exists [], [], []. split; [reflexivity|].
    split; [left; reflexivity|]. split; [left; reflexivity|constructor].
  - intros title Hh. destruct (empty_artist_search title Hh) as (m & E & G).
    split; [eauto|]. unfold remove_junk. rewrite E, G. cbn [bind].
    rewrite str_replace_empty. reflexivity.
  - apply get_clean_title_total.
Qed.

Lemma C10_witness :
  remove_junk (py "Live Song (x)") (Pattern true (artist_regex []))
  = Some (py "Live Song (x)").
Proof.
  destruct C10_empty_artist_name as (_ & p & E & _ & _ & K & _).
  rewrite remove_artist_name_pattern_eq in E. injection E as <-.
  apply K. reflexivity.
Defined.

(** C10 as stated fails: with an empty artist name the pattern captures the
    opening parenthesis of "(Live) Song", and the title loses it. *)
Lemma C10_counterexample :
  (p <- remove_artist_name_pattern [] ;; remove_junk (py "(Live) Song") p)
    = Some (py "Live) Song")
  /\ (p <- remove_artist_name_pattern [] ;; remove_junk (py "(Live) Song") p)
     <> Some (py "(Live) Song")
  /\ get_clean_title (MkPlugin true true)
       (MkItem (py "(Live) Song.mp3") [] [] [] [])
     = Some (py "Live) Song").
Proof. vm_compute. repeat split. discriminate. Qed.

(** *** Instances *)

Lemma C1_witness :
  deleted_all (py "(Audio)") (py "One (Audio) Two (Audio)") (py "One  Two ").
Proof.
  pose proof (C1_every_occurrence_deleted (py "One (Audio) Two (Audio)")
                (compiled "(?i)(?P<junk>[\(\[\{].*?Audio.*?[\)\]\}])")) as H.
  vm_compute in H. destruct H as (r & E & _ & K). injection E as <-.
  apply K. discriminate.
Defined.

Lemma C8_witness :
  exists p, remove_artist_name_pattern (py "Artist") = Some p
    /\ re_search p (py "x (ARTIST) y") <> None.
Proof.
  destruct (C8_name_patterns (py "Artist")) as [(p & E & _ & _ & _ & C) _].
  exists p. split; [exact E|].
  apply (C (py "x ") (py "(ARTIST)") (py " y")).
  exists (py "("), (py "ARTIST"), (py ")").
  split; [reflexivity|]. split; [right; reflexivity|].
  split; [right; reflexivity|]. repeat constructor.
Defined.

(** *** Paths *)

Lemma split_on_nonempty (sep : ascii) (s : pystr) : split_on sep s <> [].
Proof.
  induction s as [|c s IH]; simpl; [discriminate|].
  destruct (Ascii.eqb c sep); [discriminate|].
  destruct (split_on sep s); discriminate.
Qed.

Lemma split_on_app (sep : ascii) (a b : pystr) :
  split_on sep (a ++ sep :: b) = split_on sep a ++ split_on sep b.
Proof.
  induction a as [|x a IH]; simpl.
  - rewrite Ascii.eqb_refl. reflexivity.
  - destruct (Ascii.eqb x sep); [rewrite IH; reflexivity|].
    rewrite IH. pose proof (split_on_nonempty sep a) as N.
    destruct (split_on sep a); [congruence|reflexivity].
Qed.

Lemma split_on_plain (sep : ascii) (s : pystr) :
  has_char sep s = false -> split_on sep s = [s].
Proof.
  unfold has_char. induction s as [|c s IH]; simpl; auto.
  rewrite orb_false_iff, Ascii.eqb_sym. intros [-> H]. rewrite IH; auto.
Qed.

Lemma split_on_pieces (sep : ascii) (s : pystr) :
  Forall (fun w => has_char sep w = false) (split_on sep s).
Proof.
  induction s as [|c s IH]; simpl.
  - repeat constructor.
  - destruct (Ascii.eqb c sep) eqn:E.
    + constructor; auto.
    + assert (has_char sep [c] = false) as Hc
        by (unfold has_char; simpl; rewrite Ascii.eqb_sym, E; reflexivity).
      destruct (split_on sep s) as [|w ws].
      * repeat constructor. exact Hc.
      * inversion IH as [|? ? Hw Hws]; subst. constructor; auto.
        unfold has_char in *. simpl in *. rewrite orb_false_r in Hc.
        rewrite Hc. exact Hw.
Qed.

Lemma pystr_eqb_eq (a b : pystr) : pystr_eqb a b = true <-> a = b.
Proof.
  unfold pystr_eqb. rewrite andb_true_iff, Nat.eqb_eq. split.
  - intros [L S]. apply startswith_spec in S as [post ->].
    rewrite length_app in L.
    destruct post; [symmetry; apply app_nil_r|simpl in L; lia].
  - intros ->. split; auto. apply startswith_spec. exists []. 
    symmetry. apply app_nil_r.
Qed.

Lemma parts_path_of (s : pystr) :
  parts (path_of s) = filter kept (split_on "/" s).
Proof. reflexivity. Qed.

Lemma component_kept (c : pystr) :
  is_component c = true -> filter kept (split_on "/" c) = [c].
Proof.
  unfold is_component. rewrite !andb_true_iff, !negb_true_iff.
  intros [[N S] D]. rewrite split_on_plain by exact S. simpl.
  unfold kept. rewrite N, D. reflexivity.
Qed.

(** The parts of [d/c] are those of [d], then [c]. *)
Lemma parts_snoc (d c : pystr) :
  is_component c = true ->
  parts (path_of (d ++ "/"%char :: c)) = parts (path_of d) ++ [c].
Proof.
  intros H. rewrite !parts_path_of, split_on_app, filter_app.
  rewrite (@component_kept c H). reflexivity.
Qed.

Lemma parts_single (c : pystr) :
  is_component c = true -> parts (path_of c) = [c].
Proof. intros H. rewrite parts_path_of. apply component_kept, H. Qed.

Lemma no_dot_rfind (s : pystr) : has_char "." s = false -> rfind_dot s = None.
Proof.
  unfold has_char. induction s as [|c s IH]; cbn [existsb rfind_dot]; auto.
  intros H. apply orb_false_iff in H as [Hc Hs].
  rewrite IH by exact Hs. rewrite Ascii.eqb_sym, Hc. reflexivity.
Qed.

Lemma rfind_dot_last (base ext : pystr) :
  has_char "." ext = false ->
  rfind_dot (base ++ "."%char :: ext) = Some (length base).
Proof.
  intros H. induction base as [|c base IH]; cbn [app rfind_dot length].
  - rewrite no_dot_rfind by exact H. rewrite Ascii.eqb_refl. reflexivity.
  - rewrite IH. reflexivity.
Qed.

Lemma name_snoc (d c : pystr) :
  is_component c = true -> name (path_of (d ++ "/"%char :: c)) = c.
Proof. intros H. unfold name. rewrite parts_snoc by exact H. apply last_last. Qed.

Lemma name_single (c : pystr) :
  is_component c = true -> name (path_of c) = c.
Proof. intros H. unfold name. rewrite parts_single by exact H. reflexivity. Qed.

Lemma parent_snoc (d c : pystr) :
  is_component c = true ->
  parts (parent (path_of (d ++ "/"%char :: c))) = parts (path_of d).
Proof.
  intros H. unfold parent. cbn [parts]. rewrite parts_snoc by exact H.
  apply removelast_last.
Qed.

Lemma parts_deep (pre a b c : pystr) :
  is_component a = true -> is_component b = true -> is_component c = true ->
  parts (path_of (pre ++ py "/" ++ a ++ py "/" ++ b ++ py "/" ++ c))
  = parts (path_of pre) ++ [a; b; c].
Proof.
  intros Ha Hb Hc. cbn [py list_ascii_of_string app].
  replace (pre ++ "/"%char :: a ++ "/"%char :: b ++ "/"%char :: c)
    with (((pre ++ "/"%char :: a) ++ "/"%char :: b) ++ "/"%char :: c)
    by (rewrite <- !app_assoc; reflexivity).
  rewrite !parts_snoc by assumption. rewrite <- !app_assoc. reflexivity.
Qed.

Lemma parts_three (a b c : pystr) :
  is_component a = true -> is_component b = true -> is_component c = true ->
  parts (path_of (a ++ py "/" ++ b ++ py "/" ++ c)) = [a; b; c].
Proof.
  intros Ha Hb Hc. cbn [py list_ascii_of_string app].
  replace (a ++ "/"%char :: b ++ "/"%char :: c)
    with ((a ++ "/"%char :: b) ++ "/"%char :: c)
    by (rewrite <- !app_assoc; reflexivity).
  rewrite !parts_snoc, parts_single by assumption. reflexivity.
Qed.

Lemma names_of_parts (p : Path) (l : list pystr) (a b c : pystr) :
  parts p = l ++ [a; b; c] ->
  name p = c /\ album_name_from_path p = b /\ artist_name_from_path p = a.
Proof.
  intros E. unfold album_name_from_path, artist_name_from_path, name, parent.
  cbn [parts]. rewrite E.
  change [a; b; c] with ([a; b] ++ [c]).
  rewrite app_assoc, removelast_last, last_last.
  change [a; b] with ([a] ++ [b]).
  rewrite app_assoc, removelast_last, !last_last. auto.
Qed.

(** X1: in a path that ends in [artist/album/file], whatever stands before,
    the file name, the album and the artist are read back as they were
    written. *)
Theorem X1_names_of_deep_path (d artist album file : pystr) :
  is_component artist = true -> is_component album = true ->
  is_component file = true ->
  let rel := artist ++ py "/" ++ album ++ py "/" ++ file in
  (name (path_of rel) = file
   /\ album_name_from_path (path_of rel) = album
   /\ artist_name_from_path (path_of rel) = artist)
  /\ (name (path_of (d ++ py "/" ++ rel)) = file
      /\ album_name_from_path (path_of (d ++ py "/" ++ rel)) = album
      /\ artist_name_from_path (path_of (d ++ py "/" ++ rel)) = artist).
Proof.
  intros Ha Hb Hf rel. split.
  - apply (@names_of_parts _ []). apply parts_three; assumption.
  - apply (@names_of_parts _ (parts (path_of d))).
    apply parts_deep; assumption.
Qed.

Lemma X1_witness :
  let rel := py "Artist" ++ py "/" ++ py "Album (HD)" ++ py "/"
             ++ py "01 Track.mp3" in
  (name (path_of rel) = py "01 Track.mp3"
   /\ album_name_from_path (path_of rel) = py "Album (HD)"
   /\ artist_name_from_path (path_of rel) = py "Artist")
  /\ (name (path_of (py "/home/me/music" ++ py "/" ++ rel))
      = py "01 Track.mp3"
      /\ album_name_from_path (path_of (py "/home/me/music" ++ py "/" ++ rel))
         = py "Album (HD)"
      /\ artist_name_from_path
           (path_of (py "/home/me/music" ++ py "/" ++ rel)) = py "Artist").
Proof.
  apply (@X1_names_of_deep_path (py "/home/me/music") (py "Artist")
           (py "Album (HD)") (py "01 Track.mp3")); reflexivity.
Defined.

(** X2: a path too short for the convention gives empty names: without a
    slash there is no album and no artist, and with one directory, [album/file],
    there is no artist. *)
Theorem X2_names_of_shallow_path (s album file : pystr) :
  has_char "/" s = false ->
  is_component album = true -> is_component file = true ->
  album_name_from_path (path_of s) = []
  /\ artist_name_from_path (path_of s) = []
  /\ album_name_from_path (path_of (album ++ py "/" ++ file)) = album
  /\ artist_name_from_path (path_of (album ++ py "/" ++ file)) = [].
Proof.
  intros Hs Ha Hf. unfold album_name_from_path, artist_name_from_path, name,
    parent. cbn [parts py list_ascii_of_string app].
  rewrite (@parts_snoc album file Hf), (@parts_single album Ha).
  rewrite parts_path_of, split_on_plain by exact Hs.
  cbn [filter]. destruct (kept s); repeat split.
Qed.

Lemma X2_witness :
  album_name_from_path (path_of (py "Song.mp3")) = []
  /\ artist_name_from_path (path_of (py "Song.mp3")) = []
  /\ album_name_from_path (path_of (py "Album" ++ py "/" ++ py "Song.mp3"))
     = py "Album"
  /\ artist_name_from_path (path_of (py "Album" ++ py "/" ++ py "Song.mp3"))
     = [].
Proof.
  apply (@X2_names_of_shallow_path (py "Song.mp3") (py "Album")
           (py "Song.mp3")); reflexivity.
Defined.

Lemma has_char_app (c : ascii) (a b : pystr) :
  has_char c (a ++ b) = has_char c a || has_char c b.
Proof. apply existsb_app. Qed.

Lemma file_name_component (base ext : pystr) :
  base <> [] -> ext <> [] ->
  has_char "/" base = false -> has_char "/" ext = false ->
  is_component (base ++ py "." ++ ext) = true.
Proof.
  intros Nb Ne Sb Se. unfold is_component.
  rewrite !andb_true_iff, !negb_true_iff. repeat split.
  - destruct base; [congruence|reflexivity].
  - rewrite !has_char_app, Sb, Se. reflexivity.
  - apply not_true_is_false. intros E. apply pystr_eqb_eq in E.
    apply (f_equal (@length _)) in E. rewrite !length_app in E.
    destruct base; [congruence|]. destruct ext; [congruence|].
    simpl in E. lia.
Qed.

Lemma stem_last_extension (p : Path) (base ext : pystr) :
  name p = base ++ py "." ++ ext -> base <> [] -> ext <> [] ->
  has_char "." ext = false -> stem p = base.
Proof.
  intros E Nb Ne D. unfold stem. rewrite E.
  cbn [py list_ascii_of_string app]. rewrite rfind_dot_last by exact D.
  rewrite length_app. cbn [length].
  destruct base as [|x base]; [congruence|].
  destruct ext as [|y ext]; [congruence|]. cbn [length].
  replace ((0 <? S (length base))
           && (S (length base) <? S (length base) + S (S (length ext)) - 1))
    with true
    by (symmetry; apply andb_true_iff; split; apply Nat.ltb_lt; lia).
  change (S (length base)) with (length (x :: base)).
  rewrite firstn_app, firstn_all, Nat.sub_diag. cbn [firstn].
  apply app_nil_r.
Qed.

(** X3: the track title is the file name without its last extension, and
    only the last one: what stands before the last dot is kept whole, dots
    included. *)
Theorem X3_title_drops_last_extension (d base ext : pystr) :
  base <> [] -> ext <> [] ->
  has_char "/" base = false -> has_char "/" ext = false ->
  has_char "." ext = false ->
  track_title_from_path (path_of (d ++ py "/" ++ base ++ py "." ++ ext))
  = base
  /\ track_title_from_path (path_of (base ++ py "." ++ ext)) = base.
Proof.
  intros Nb Ne Sb Se D.
  pose proof (file_name_component Nb Ne Sb Se) as C.
  unfold track_title_from_path. split.
  - apply (@stem_last_extension _ base ext); auto. apply name_snoc, C.
  - apply (@stem_last_extension _ base ext); auto. apply name_single, C.
Qed.

Lemma X3_witness :
  track_title_from_path
    (path_of (py "Artist/Album" ++ py "/" ++ py "01 Track.tar" ++ py "."
              ++ py "gz")) = py "01 Track.tar"
  /\ track_title_from_path (path_of (py "01 Track.tar" ++ py "." ++ py "gz"))
     = py "01 Track.tar".
Proof.
  apply (@X3_title_drops_last_extension (py "Artist/Album")
           (py "01 Track.tar") (py "gz")); (discriminate || reflexivity).
Defined.

(** X4: a file name without an extension is the track title as it is: a
    name without a dot, a name whose only dot comes first, and a name that
    ends with a dot. *)
Theorem X4_title_without_extension (d f : pystr) :
  is_component f = true ->
  has_char "." f = false
  \/ (exists rest, f = "."%char :: rest /\ has_char "." rest = false)
  \/ (exists base, f = base ++ py ".") ->
  track_title_from_path (path_of (d ++ py "/" ++ f)) = f
  /\ track_title_from_path (path_of f) = f.
Proof.
  intros C H.
  assert (forall p, name p = f -> stem p = f) as K.
  { intros p E. unfold stem. rewrite E.
    destruct H as [H|[(rest & -> & H)|(base & ->)]].
    - rewrite no_dot_rfind by exact H. reflexivity.
    - pose proof (@rfind_dot_last [] rest H) as R. cbn [app length] in R.
      rewrite R. reflexivity.
    - cbn [py list_ascii_of_string]. rewrite rfind_dot_last by reflexivity.
      rewrite length_app. cbn [length].
      replace (length base <? length base + 1 - 1) with false
        by (symmetry; apply Nat.ltb_ge; lia).
      rewrite andb_false_r. reflexivity. }
  unfold track_title_from_path. split; apply K.
  - apply name_snoc, C.
  - apply name_single, C.
Qed.

Lemma X4_witness :
  track_title_from_path (path_of (py "a/b" ++ py "/" ++ py ".hidden"))
  = py ".hidden"
  /\ track_title_from_path (path_of (py ".hidden")) = py ".hidden".
Proof.
  apply (@X4_title_without_extension (py "a/b") (py ".hidden")).
  - reflexivity.
  - right. left. exists (py "hidden"). split; reflexivity.
Defined.

Lemma Forall_last (A : Type) (P : A -> Prop) (l : list A) (d : A) :
  Forall P l -> P d -> P (last l d).
Proof.
  induction 1 as [|x l Hx Hl IH]; simpl; auto.
  destruct l; auto.
Qed.

Lemma Forall_removelast (A : Type) (P : A -> Prop) (l : list A) :
  Forall P l -> Forall P (removelast l).
Proof.
  induction 1 as [|x l Hx Hl IH]; simpl; auto.
  destruct l; auto.
Qed.

Lemma has_char_firstn (c : ascii) (n : nat) (s : pystr) :
  has_char c s = false -> has_char c (firstn n s) = false.
Proof.
  intros H. rewrite <- (firstn_skipn n s), has_char_app in H.
  apply orb_false_iff in H as [H _]. exact H.
Qed.

Lemma parts_invariant (s : pystr) :
  Forall (fun w => has_char "/" w = false /\ w <> py ".")
         (parts (path_of s)).
Proof.
  rewrite parts_path_of. apply Forall_forall. intros w Hw.
  apply filter_In in Hw as [Hw K]. split.
  - pose proof (split_on_pieces "/" s) as F.
    rewrite Forall_forall in F. apply F, Hw.
  - intros ->. discriminate K.
Qed.

(** X5: whatever the path, the three names taken from it hold no slash, and
    neither the album nor the artist is ever the directory [.]. *)
Theorem X5_names_without_slash (s : pystr) :
  has_char "/" (track_title_from_path (path_of s)) = false
  /\ has_char "/" (album_name_from_path (path_of s)) = false
  /\ has_char "/" (artist_name_from_path (path_of s)) = false
  /\ album_name_from_path (path_of s) <> py "."
  /\ artist_name_from_path (path_of s) <> py ".".
Proof.
  pose proof (parts_invariant s) as F.
  assert (forall l, Forall (fun w => has_char "/" w = false /\ w <> py ".") l ->
            has_char "/" (last l []) = false /\ last l [] <> py ".") as K.
  { intros l Hl. apply (Forall_last _ Hl). split; [reflexivity|discriminate]. }
  unfold album_name_from_path, artist_name_from_path, name, parent.
  cbn [parts].
  destruct (K _ F) as [N _].
  destruct (K _ (Forall_removelast F)) as [A1 A2].
  destruct (K _ (Forall_removelast (Forall_removelast F))) as [R1 R2].
  repeat split; auto.
  unfold track_title_from_path, stem, name.
  destruct (rfind_dot (last (parts (path_of s)) [])) as [i|]; auto.
  destruct ((0 <? i) && _); auto. apply has_char_firstn, N.
Qed.

(** *** The listener, run again and on other orders *)

Lemma clean_loop_refs (self : FromYoutubeTitlePlugin) (refs : list nat) :
  forall h h', clean_loop self h refs = Some h' ->
  Forall (fun r => r < length h) refs.
Proof.
  induction refs as [|r refs IH]; intros h h'; cbn [clean_loop]; auto.
  destruct (nth_error h r) as [cur|] eqn:E; cbn [bind]; [|discriminate].
  destruct (clean_item self cur) as [cur'|]; cbn [bind]; [|discriminate].
  intros H. constructor.
  - apply nth_error_Some. congruence.
  - apply IH in H. rewrite heap_set_length in H. exact H.
Qed.

(** What the loop leaves in each cell, from the heap it started on. *)
Lemma clean_loop_cells (self : FromYoutubeTitlePlugin) (refs : list nat)
    (h h' : heap) :
  clean_loop self h refs = Some h' ->
  forall r, nth_error h' r
            = match nth_error h r with
              | Some it => if in_dec Nat.eq_dec r refs
                           then clean_item self it else Some it
              | None => None
              end.
Proof.
  intros H r.
  destruct (@clean_loop_spec self h refs [] h h') as [S N]; auto.
  - intros r0 it Hr. exists it. simpl. intuition.
  - destruct (nth_error h r) as [it|] eqn:E; [|auto].
    destruct (S r it E) as (c & -> & A & B).
    destruct (in_dec Nat.eq_dec r refs) as [I|I].
    + symmetry. apply A. auto.
    + f_equal. apply B. simpl. tauto.
Qed.

Lemma clean_loop_same_refs (self : FromYoutubeTitlePlugin)
    (refs1 refs2 : list nat) (h h1 : heap) :
  (forall r, In r refs1 <-> In r refs2) ->
  clean_loop self h refs1 = Some h1 -> clean_loop self h refs2 = Some h1.
Proof.
  intros Same H1.
  assert (Forall (fun r => r < length h) refs2) as V.
  { apply Forall_forall. intros r Hr. apply Same in Hr.
    pose proof (@clean_loop_refs self refs1 h h1 H1) as F.
    rewrite Forall_forall in F. auto. }
  destruct (@clean_loop_total self refs2 h V) as [h2 H2]. rewrite H2. f_equal.
  apply nth_error_ext. intros r.
  rewrite (@clean_loop_cells self refs1 h h1 H1 r),
    (@clean_loop_cells self refs2 h h2 H2 r).
  destruct (nth_error h r); auto.
  destruct (in_dec Nat.eq_dec r refs1) as [I1|I1],
           (in_dec Nat.eq_dec r refs2) as [I2|I2]; auto;
    exfalso; apply Same in I1 || apply Same in I2; auto.
Qed.

(** X6: running the listener a second time on the heap it produced changes
    nothing: every field it could fill is filled by the first run, or is
    filled again with the same value. *)
Theorem X6_listener_idempotent (self : FromYoutubeTitlePlugin)
    (task : ImportTask) (h h1 : heap) :
  clean_youtube_metadata self task h = Some h1 ->
  clean_youtube_metadata self task h1 = Some h1.
Proof.
  unfold clean_youtube_metadata.
  destruct (task_items task) as [refs|]; cbn [bind]; [|discriminate].
  intros H1.
  assert (Forall (fun r => r < length h1) refs) as V.
  { rewrite (@clean_loop_length self refs h h1 H1).
    apply (@clean_loop_refs self refs h h1 H1). }
  destruct (@clean_loop_total self refs h1 V) as [h2 H2]. rewrite H2. f_equal.
  apply nth_error_ext. intros r.
  rewrite (@clean_loop_cells self refs h1 h2 H2 r),
    (@clean_loop_cells self refs h h1 H1 r).
  destruct (nth_error h r) as [it|]; auto.
  destruct (in_dec Nat.eq_dec r refs) as [I|I]; auto.
  destruct (clean_item self it) as [c|] eqn:E; auto.
  apply clean_item_idempotent in E. exact E.
Qed.

Lemma X6_witness :
  let self := MkPlugin true true in
  let task := MkTask false true None [0; 0] in
  let h1 := [ MkItem (py "Artist/Album/01 Track (Official Audio).mp3")
                     (py "01 Track") (py "Album") (py "Artist") [] ] in
  clean_youtube_metadata self task h1 = Some h1.
Proof.
  intros self task h1.
  apply (@X6_listener_idempotent self task
           [ MkItem (py "Artist/Album/01 Track (Official Audio).mp3")
                    [] [] [] [] ] h1).
  vm_compute. reflexivity.
Defined.

(** X7: the outcome of the listener depends on which items the task
    lists, not on their order nor on how often each one is listed. *)
Theorem X7_listener_order_independent (self : FromYoutubeTitlePlugin)
    (task1 task2 : ImportTask) (refs1 refs2 : list nat) (h : heap) :
  task_items task1 = Some refs1 -> task_items task2 = Some refs2 ->
  (forall r, In r refs1 <-> In r refs2) ->
  clean_youtube_metadata self task1 h = clean_youtube_metadata self task2 h.
Proof.
  intros E1 E2 Same. unfold clean_youtube_metadata. rewrite E1, E2.
  cbn [bind].
  destruct (clean_loop self h refs1) as [h1|] eqn:H1.
  - symmetry. eapply clean_loop_same_refs; eauto.
  - destruct (clean_loop self h refs2) as [h2|] eqn:H2; auto.
    apply (@clean_loop_same_refs self refs2 refs1 h h2) in H2.
    + congruence.
    + intros r. symmetry. apply Same.
Qed.

Lemma X7_witness :
  let self := MkPlugin true true in
  let h := [ MkItem (py "A/B/x (HD).mp3") [] [] [] [];
             MkItem (py "A/B/y.mp3") [] [] [] [] ] in
  clean_youtube_metadata self (MkTask false true None [0; 1]) h
  = clean_youtube_metadata self (MkTask false true None [1; 0; 1]) h.
Proof.
  intros self h.
  apply (@X7_listener_order_independent self _ _ [0; 1] [1; 0; 1] h);
    try reflexivity.
  intros r. simpl. tauto.
Defined.

(** X8: for an item whose path ends in [artist/album/base.ext], the album
    and the artist are the two directory names as they are, never cleaned,
    and the clean title is [_replace_junk] applied to [base] with the album
    pattern (if album inference is on), the artist pattern (if artist
    inference is on) and the static catalog, in this order. *)
Theorem X8_clean_title_of_deep_path (ia ir : bool)
    (d artist album base ext t al ar : pystr) (o : list (string * pystr)) :
  is_component artist = true -> is_component album = true ->
  base <> [] -> ext <> [] ->
  has_char "/" base = false -> has_char "/" ext = false ->
  has_char "." ext = false ->
  let it := MkItem (d ++ py "/" ++ artist ++ py "/" ++ album ++ py "/"
                      ++ (base ++ py "." ++ ext)) t al ar o in
  get_album (MkPlugin ia ir) it = album
  /\ get_artist (MkPlugin ia ir) it = artist
  /\ get_clean_title (MkPlugin ia ir) it
     = _replace_junk base
         ((if ia then [Pattern true (album_regex album)] else [])
          ++ (if ir then [Pattern true (artist_regex artist)] else [])
          ++ YOUTUBE_TITLE_JUNK).
Proof.
  intros Ha Hb Nb Ne Sb Se D it.
  pose proof (file_name_component Nb Ne Sb Se) as Hf.
  pose proof (@parts_deep d artist album (base ++ py "." ++ ext) Ha Hb Hf) as P.
  apply names_of_parts in P as (Pn & Pa & Pr).
  unfold get_album, get_artist, get_clean_title, displayable_path, it.
  cbn [path infer_album infer_artist]. rewrite Pa, Pr.
  rewrite remove_album_name_pattern_eq, remove_artist_name_pattern_eq.
  unfold track_title_from_path.
  rewrite (@stem_last_extension _ base ext Pn Nb Ne D).
  destruct ia, ir; repeat split.
Qed.

Lemma X8_witness :
  let it := MkItem (py "/music" ++ py "/" ++ py "Artist" ++ py "/"
                      ++ py "Album [HD]" ++ py "/"
                      ++ (py "01 Track (Official Audio)" ++ py "." ++ py "mp3"))
                   [] [] [] [] in
  get_album (MkPlugin true false) it = py "Album [HD]"
  /\ get_artist (MkPlugin true false) it = py "Artist"
  /\ get_clean_title (MkPlugin true false) it
     = _replace_junk (py "01 Track (Official Audio)")
         ((if true then [Pattern true (album_regex (py "Album [HD]"))] else [])
          ++ (if false then [Pattern true (artist_regex (py "Artist"))] else [])
          ++ YOUTUBE_TITLE_JUNK).
Proof.
  apply (@X8_clean_title_of_deep_path true false (py "/music") (py "Artist")
           (py "Album [HD]") (py "01 Track (Official Audio)") (py "mp3")
           [] [] [] []); (discriminate || reflexivity).
Defined.

(** *** The cleaner only deletes *)

Lemma subseq_refl (s : pystr) : subseq s s.
Proof. induction s; constructor; auto. Qed.

Lemma subseq_trans (a b c : pystr) : subseq a b -> subseq b c -> subseq a c.
Proof.
  intros H1 H2. revert a H1.
  induction H2; intros a H1.
  - exact H1.
  - inversion H1; subst.
    + constructor. auto.
    + apply subseq_drop. auto.
  - apply subseq_drop. auto.
Qed.

Lemma subseq_app (a a' b b' : pystr) :
  subseq a a' -> subseq b b' -> subseq (a ++ b) (a' ++ b').
Proof.
  intros H1 H2. induction H1; simpl; auto; constructor; auto.
Qed.

Lemma subseq_nil_l (s : pystr) : subseq [] s.
Proof. induction s; constructor; auto. Qed.

Lemma subseq_middle (pre r post : pystr) : subseq r (pre ++ r ++ post).
Proof.
  change r with ([] ++ r) at 1. apply subseq_app; [apply subseq_nil_l|].
  rewrite <- (app_nil_r r) at 1.
  apply subseq_app; [apply subseq_refl | apply subseq_nil_l].
Qed.

Lemma subseq_length (r t : pystr) : subseq r t -> length r <= length t.
Proof. induction 1; simpl; lia. Qed.

Lemma replace_scan_subseq (old : pystr) (s : pystr) :
  forall k, subseq (replace_scan old [] k s) s.
Proof.
  induction s as [|c s IH]; intros k.
  - constructor.
  - cbn [replace_scan]. destruct k as [|k].
    + destruct (startswith old (c :: s)).
      * cbn [app]. apply subseq_drop, IH.
      * apply subseq_keep, IH.
    + apply subseq_drop, IH.
Qed.

Lemma str_replace_subseq (s old : pystr) : subseq (str_replace s old []) s.
Proof.
  destruct old as [|o old].
  - rewrite str_replace_empty. apply subseq_refl.
  - apply replace_scan_subseq.
Qed.

Lemma remove_junk_subseq (t r : pystr) (p : pattern) :
  remove_junk t p = Some r -> subseq r t.
Proof.
  unfold remove_junk. destruct (re_search p t) as [m|].
  - destruct (group m "junk") as [junk|]; cbn [bind]; [|discriminate].
    intros [= <-]. apply str_replace_subseq.
  - intros [= <-]. apply subseq_refl.
Qed.

Lemma for_each_remove_junk_subseq (ps : list pattern) :
  forall t r, for_each remove_junk t ps = Some r -> subseq r t.
Proof.
  induction ps as [|p ps IH]; intros t r; cbn [for_each].
  - intros [= <-]. apply subseq_refl.
  - destruct (remove_junk t p) as [t'|] eqn:E; cbn [bind]; [|discriminate].
    intros H. eapply subseq_trans; [apply IH, H|].
    eapply remove_junk_subseq, E.
Qed.

Lemma strip_subseq (s : pystr) : subseq (strip s) s.
Proof.
  destruct (strip_spec s) as (W1 & W2 & E & _).
  rewrite E at 2. apply subseq_middle.
Qed.

(** X9: whatever the patterns, the cleaner only deletes: its result is the
    title with some characters left out, the others in their order. *)
Theorem X9_cleaner_only_deletes (title r : pystr) (patterns : list pattern) :
  _replace_junk title patterns = Some r ->
  subseq r title /\ length r <= length title.
Proof.
  unfold _replace_junk.
  destruct (for_each remove_junk title patterns) as [t|] eqn:E;
    cbn [bind]; [|discriminate].
  intros H.
  assert (subseq r title) as S.
  { destruct (strip_spec t) as (W1 & W2 & _ & _ & _ & Hh & Hl).
    destruct (@cleanup_spec _ Hh Hl) as (r' & Hr & _ & (pre & post & Hs) & _).
    rewrite Hr in H. injection H as <-.
    eapply subseq_trans; [|eapply for_each_remove_junk_subseq, E].
    eapply subseq_trans; [|apply strip_subseq].
    rewrite Hs. apply subseq_middle. }
  split; [exact S | apply subseq_length, S].
Qed.

Lemma X9_witness :
  subseq (py "Song") (py "- Song (Official Video) ")
  /\ length (py "Song") <= length (py "- Song (Official Video) ").
Proof.
  apply (@X9_cleaner_only_deletes (py "- Song (Official Video) ") (py "Song")
           YOUTUBE_TITLE_JUNK).
  vm_compute. reflexivity.
Defined.

(** *** The static catalog needs a closing bracket too *)

Lemma last_class_denotes (ic : bool) (k : cclass) (r : regex) :
  last_class r = Some k ->
  forall st m, denotes ic r st m ->
  exists x done, consumed m = x :: done /\ cclass_ok ic k x = true.
Proof.
  induction r; cbn [last_class]; try discriminate.
  - intros [= ->] st m (x & rest & E & H & ->). cbn. eauto.
  - intros H st m (m1 & D1 & D2).
    destruct r2; try (eapply IHr2; eauto; fail).
    cbn in D2. subst m. eapply IHr1; eauto.
  - intros [= ->] st m (w & rest & Hw & Hn & E & ->). cbn [consumed].
    destruct (@exists_last _ w Hn) as (w' & x & ->).
    rewrite rev_app_distr. cbn [rev app].
    apply Forall_app in Hw as [_ Hw]. inversion Hw; subst. eauto.
  - intros H st m (m1 & D & ->). cbn [close_group consumed]. eauto.
Qed.

Lemma catalog_last_class :
  Forall (fun p => ignorecase p = true
                   /\ last_class (body p) = Some closing_brackets)
         YOUTUBE_TITLE_JUNK.
Proof. repeat constructor. Qed.

Lemma unmatched_without_last (k : cclass) (p : pattern) (t : pystr) :
  last_class (body p) = Some k ->
  Forall (fun x => cclass_ok (ignorecase p) k x = false) t ->
  re_search p t = None.
Proof.
  intros Hk Ht. apply re_search_None. intros pre post ->.
  apply first_match_None. intros m D.
  destruct (@last_class_denotes (ignorecase p) k (body p) Hk _ _ D)
    as (x & done & E & Hx).
  destruct (denotes_moved _ _ _ _ D) as (w & Hw1 & Hw2).
  cbn [ahead consumed] in Hw1, Hw2. subst post.
  assert (In x (pre ++ w ++ ahead m)) as I.
  { rewrite E in Hw2.
    assert (In x (rev w ++ rev pre)) as I by (rewrite <- Hw2; left; auto).
    apply in_app_iff in I. rewrite <- !in_rev in I.
    rewrite !in_app_iff. tauto. }
  rewrite Forall_forall in Ht. apply Ht in I. congruence.
Qed.

(** X10: a title that has no opening bracket, or no closing bracket, passes
    the thirteen patterns of the catalog unchanged; only the trimming and
    the separator cleanup are left to act on it. *)
Theorem X10_catalog_needs_both_brackets (t : pystr) :
  Forall (fun x => cclass_ok true opening_brackets x = false) t
  \/ Forall (fun x => cclass_ok true closing_brackets x = false) t ->
  for_each remove_junk t YOUTUBE_TITLE_JUNK = Some t
  /\ _replace_junk t YOUTUBE_TITLE_JUNK
     = for_each strip_leftover (strip t) EXTRA_STRIP_PATTERNS.
Proof.
  intros H.
  assert (for_each remove_junk t YOUTUBE_TITLE_JUNK = Some t) as E.
  { apply for_each_unmatched. destruct H as [H|H].
    - apply catalog_unmatched, H.
    - eapply Forall_impl; [|exact catalog_last_class].
      intros p [Hi Hk]. eapply unmatched_without_last; eauto.
      rewrite Hi. exact H. }
  split; [exact E|]. unfold _replace_junk. rewrite E. reflexivity.
Qed.

Lemma X10_witness :
  for_each remove_junk (py "Song (Official Video") YOUTUBE_TITLE_JUNK
    = Some (py "Song (Official Video")
  /\ _replace_junk (py "Song (Official Video") YOUTUBE_TITLE_JUNK
     = for_each strip_leftover (strip (py "Song (Official Video"))
         EXTRA_STRIP_PATTERNS.
Proof.
  apply (@X10_catalog_needs_both_brackets (py "Song (Official Video")).
  right. repeat constructor.
Defined.

(** *** The separator cleanup as string operations *)

Lemma one_line_Forall (s : pystr) :
  has_char newline s = false ->
  Forall (fun x => negb (Ascii.eqb x newline) = true) s.
Proof.
  unfold has_char. induction s as [|x s IH]; cbn [existsb]; intros H.
  - constructor.
  - apply orb_false_iff in H as [H1 H2]. constructor; auto.
    rewrite Ascii.eqb_sym, H1. reflexivity.
Qed.

Lemma flat_map_singleton (A : Type) (l : list A) :
  flat_map (fun x => [x]) l = l.
Proof. induction l; simpl; congruence. Qed.

Lemma flat_map_map (A B C : Type) (f : B -> list C) (g : A -> B)
    (l : list A) :
  flat_map f (map g l) = flat_map (fun x => f (g x)) l.
Proof. induction l; simpl; congruence. Qed.

Lemma leading_exact (s : pystr) :
  head_is is_space s = false -> last_is is_space s = false ->
  has_char newline s = false ->
  strip_leftover s leading_separator = Some (without_leading_separator s).
Proof.
  intros Hh Hl Hn. unfold strip_leftover.
  destruct s as [|c rest]; [reflexivity|].
  cbn [head_is] in Hh. cbn [without_leading_separator].
  destruct (is_separator c) eqn:Hs; cbn [andb].
  - destruct (re_match leading_separator (c :: rest)) as [m|] eqn:E.
    + apply leading_match_Some in E
        as (sep & W & T & E0 & _ & HW & HT & HhT & ->); auto.
      injection E0 as <- ->.
      rewrite lstrip_app_spaces by exact HW.
      rewrite lstrip_id by exact HhT.
      destruct T; [congruence|]. reflexivity.
    + destruct (lstrip rest) as [|x T] eqn:ET; [reflexivity|].
      exfalso. unfold re_match, first_match in E.
      rewrite leading_matches_cons in E by exact Hh. rewrite Hs in E.
      destruct (lstrip_spec rest) as (W & ER & HW & _). rewrite ET in ER.
      assert (In (MState (rev (x :: T) ++ rev W ++ [c]) []
                         [("title"%string, x :: T)])
                 (flat_map (matches false title_to_end)
                           (run_star true is_space [c] rest []))) as I.
      { apply in_flat_map. exists (MState (rev W ++ [c]) (x :: T) []). split.
        - apply run_star_In. exists W, (x :: T). auto.
        - apply matches_denotes, title_to_end_denotes.
          exists (x :: T), []. cbn [ahead consumed groups].
          rewrite app_nil_r. repeat split; auto; [discriminate|].
          apply one_line_Forall in Hn. rewrite ER in Hn.
          inversion Hn as [|? ? _ Hn']; subst.
          apply Forall_app in Hn' as [_ Hn']. exact Hn'. }
      destruct (flat_map _ _); [destruct I | discriminate].
  - rewrite leading_match_None; auto.
Qed.

Lemma trailing_rest_denotes (st m : mstate) :
  denotes false trailing_rest st m <->
  exists W1 sep W2 E, ahead st = W1 ++ sep :: W2 ++ E
    /\ Forall (fun x => is_space x = true) W1
    /\ is_separator sep = true
    /\ Forall (fun x => is_space x = true) W2
    /\ (E = [] \/ E = [newline])
    /\ m = MState (rev W2 ++ sep :: rev W1 ++ consumed st) E (groups st).
Proof.
  unfold trailing_rest. cbn [denotes]. split.
  - intros (m1 & (W1 & r1 & HW1 & E1 & ->) & m2
            & (sep & r2 & E2 & Hsep & ->) & m3
            & (W2 & r3 & HW2 & E3 & ->) & m4 & [HE ->] & ->).
    cbn [ahead consumed groups advance] in *. subst r1 r2.
    exists W1, sep, W2, r3. rewrite <- separators_ok. repeat split; auto.
  - intros (W1 & sep & W2 & E & HA & HW1 & Hsep & HW2 & HE & ->).
    eexists. split; [exists W1, (sep :: W2 ++ E); repeat split; auto|].
    eexists. split.
    { exists sep, (W2 ++ E). cbn [ahead]. rewrite separators_ok.
      repeat split; auto. }
    eexists. split.
    { exists W2, E. cbn [ahead advance]. repeat split; auto. }
    eexists. split; [|reflexivity]. cbn [ahead advance consumed groups].
    split; auto.
Qed.

Lemma trailing_matches_cons (x : ascii) (rest : pystr) :
  Ascii.eqb x newline = false ->
  matches false (body trailing_separator) (MState [] (x :: rest) [])
  = flat_map (fun st' => matches false trailing_rest
                (close_group "title" (MState [] (x :: rest) []) st'))
      (run_star true (cclass_ok false CAny) [x] rest []).
Proof.
  intros Hx. unfold trailing_separator, body.
  change (Cat (Star true CSpace) (Cat (Chr separators)
            (Cat (Star true CSpace) (Cat Eol Eps)))) with trailing_rest.
  cbn [matches flat_map app consumed ahead groups cclass_ok].
  rewrite Hx. cbn [negb]. rewrite app_nil_r.
  rewrite flat_map_singleton, flat_map_map. reflexivity.
Qed.

Lemma trailing_exact (s : pystr) :
  last_is is_space s = false -> has_char newline s = false ->
  strip_leftover s trailing_separator = Some (without_trailing_separator s).
Proof.
  intros Hl Hn. unfold strip_leftover, without_trailing_separator.
  destruct (last_is is_separator s) eqn:Hs; cbn [andb];
    [|rewrite trailing_match_None; auto].
  destruct s as [|x rest]; [discriminate|].
  pose proof (one_line_Forall _ Hn) as Hn'.
  assert (Ascii.eqb x newline = false) as Hx.
  { inversion Hn'; subst. apply negb_true_iff. assumption. }
  unfold re_match, first_match. rewrite trailing_matches_cons by exact Hx.
  destruct (@exists_last _ (x :: rest) ltac:(discriminate))
    as (body0 & sep & Eb).
  rewrite Eb in Hs. rewrite last_is_snoc in Hs.
  destruct rest as [|y rest'].
  { (* the separator alone: nothing stands before it *)
    cbn [run_star flat_map length Nat.ltb Nat.leb app].
    rewrite app_nil_r.
    match goal with |- context [matches false trailing_rest ?st] =>
      destruct (matches false trailing_rest st) as [|m l] eqn:EM end;
      [reflexivity|].
    exfalso.
    assert (In m (matches false trailing_rest
              (close_group "title" (MState [] [x] []) (MState [x] [] []))))
      as I by (rewrite EM; left; reflexivity).
    apply matches_denotes, trailing_rest_denotes in I
      as (W1 & sp & W2 & E & HA & _).
    cbn [close_group ahead] in HA. destruct W1; discriminate. }
  change (1 <? length (x :: y :: rest')) with true. cbv iota.
  destruct (hd_error _) as [m|] eqn:E.
  - apply run_star_greedy_first in E as (w & r' & Hw & Er & HF & Hlong).
    assert (In m (matches false trailing_rest
              (close_group "title" (MState [] (x :: y :: rest') [])
                 (MState (rev w ++ [x]) r' [])))) as I.
    { destruct (matches false trailing_rest _); [discriminate|].
      injection HF as ->. left. reflexivity. }
    rewrite (@close_group_moved "title" (x :: w)) in I
      by (split; cbn [ahead consumed]; [rewrite Er; reflexivity
                                        | rewrite app_nil_r; reflexivity]).
    apply matches_denotes, trailing_rest_denotes in I
      as (W1 & sp & W2 & E & HA & HW1 & Hsp & HW2 & HE & ->).
    cbn [ahead consumed groups] in *. rewrite group_top. f_equal.
    subst r'.
    assert (E = []) as ->.
    { destruct HE as [->| ->]; auto. exfalso.
      rewrite Er in Hl.
      change (x :: w ++ W1 ++ sp :: W2 ++ [newline])
        with ((x :: w) ++ W1 ++ (sp :: W2) ++ [newline]) in Hl.
      rewrite !app_assoc, last_is_snoc in Hl. discriminate. }
    rewrite app_nil_r in *.
    assert (W2 = []) as ->.
    { destruct W2 as [|z W2]; auto. exfalso. rewrite Er in Hl.
      change (x :: w ++ W1 ++ sp :: z :: W2)
        with ((x :: w) ++ W1 ++ [sp] ++ z :: W2) in Hl.
      rewrite !app_assoc, last_is_app in Hl by discriminate.
      rewrite last_is_spaces in Hl; [discriminate|assumption|discriminate]. }
    assert (W1 = []) as ->.
    { destruct W1 as [|z W1]; auto. exfalso.
      assert (cclass_ok false CAny z = true) as Hz.
      { rewrite Er in Hn'. inversion Hn' as [|? ? _ Hn2]; subst.
        apply Forall_app in Hn2 as [_ Hn2]. inversion Hn2; subst.
        assumption. }
      specialize (Hlong [z] (W1 ++ [sp]) ltac:(discriminate)
                    ltac:(repeat constructor; exact Hz) eq_refl).
      assert (In (MState (sp :: rev W1 ++ rev (w ++ [z]) ++ [x]) []
                         [("title"%string, x :: w ++ [z])])
                 (matches false trailing_rest
                    (close_group "title" (MState [] (x :: y :: rest') [])
                       (MState (rev (w ++ [z]) ++ [x]) (W1 ++ [sp]) []))))
        as I.
      { rewrite (@close_group_moved "title" (x :: w ++ [z])).
        - apply matches_denotes, trailing_rest_denotes.
          exists W1, sp, [], []. cbn [ahead consumed groups rev app].
          inversion HW1; subst. repeat split; auto.
        - split; cbn [ahead consumed].
          + rewrite Er. cbn [app]. rewrite <- app_assoc. reflexivity.
          + rewrite app_nil_r. reflexivity. }
      rewrite Hlong in I. destruct I. }
    cbn [app] in Er. rewrite Er.
    change (x :: w ++ [sp]) with ((x :: w) ++ [sp]).
    rewrite removelast_last. reflexivity.
  - exfalso.
    destruct body0 as [|b0 body0]; [discriminate|].
    injection Eb as <- Eb.
    assert (In (MState (sep :: rev body0 ++ [x]) []
                       [("title"%string, x :: body0)])
               (flat_map (fun st' => matches false trailing_rest
                            (close_group "title"
                               (MState [] (x :: y :: rest') []) st'))
                  (run_star true (cclass_ok false CAny) [x] (y :: rest') [])))
      as I.
    { apply in_flat_map. exists (MState (rev body0 ++ [x]) [sep] []). split.
      - apply run_star_In. exists body0, [sep]. repeat split; auto.
        rewrite Eb in Hn'. inversion Hn' as [|? ? _ Hn2]; subst.
        apply Forall_app in Hn2 as [Hn2 _]. exact Hn2.
      - rewrite (@close_group_moved "title" (x :: body0)).
        + apply matches_denotes, trailing_rest_denotes.
          exists [], sep, [], []. cbn [ahead consumed groups rev app].
          repeat split; auto.
        + split; cbn [ahead consumed].
          * rewrite Eb. reflexivity.
          * rewrite app_nil_r. reflexivity. }
    match type of E with
    | hd_error ?l = None => destruct l; [destruct I | discriminate]
    end.
Qed.

Lemma without_leading_shape (s : pystr) :
  head_is is_space s = false -> last_is is_space s = false ->
  has_char newline s = false ->
  last_is is_space (without_leading_separator s) = false
  /\ has_char newline (without_leading_separator s) = false.
Proof.
  intros Hh Hl Hn. destruct s as [|c rest]; [auto|].
  cbn [without_leading_separator].
  destruct (is_separator c && negb (is_nil (lstrip rest))) eqn:C; [|auto].
  apply andb_true_iff in C as [_ C]. apply negb_true_iff in C.
  destruct (lstrip_spec rest) as (W & ER & _).
  destruct (lstrip rest) as [|x T]; [discriminate|].
  rewrite ER in Hl, Hn. split.
  - change (c :: W ++ x :: T) with ((c :: W) ++ x :: T) in Hl.
    rewrite last_is_app in Hl by discriminate. exact Hl.
  - change (c :: W ++ x :: T) with ((c :: W) ++ x :: T) in Hn.
    rewrite has_char_app in Hn. apply orb_false_iff in Hn as [_ Hn].
    exact Hn.
Qed.

(** X11: on a title whose trimmed text is on one line, the two separator
    patterns act as two string operations: a leading separator is dropped
    with the whitespace after it if something is left, then a trailing
    separator is dropped alone if something stands before it.  One
    separator is taken from each end, not a run of them. *)
Theorem X11_separator_cleanup (t : pystr) :
  has_char newline (strip t) = false ->
  for_each strip_leftover (strip t) EXTRA_STRIP_PATTERNS
  = Some (without_trailing_separator (without_leading_separator (strip t)))
  /\ _replace_junk t []
     = Some (without_trailing_separator
               (without_leading_separator (strip t))).
Proof.
  intros Hn.
  destruct (strip_spec t) as (W1 & W2 & _ & _ & _ & Hh & Hl).
  assert (for_each strip_leftover (strip t) EXTRA_STRIP_PATTERNS
          = Some (without_trailing_separator
                    (without_leading_separator (strip t)))) as E.
  { rewrite EXTRA_STRIP_PATTERNS_eq. cbn [for_each].
    rewrite leading_exact by assumption. cbn [bind].
    destruct (without_leading_shape _ Hh Hl Hn) as [Hl' Hn'].
    rewrite trailing_exact by assumption. reflexivity. }
  split; [exact E|]. unfold _replace_junk. cbn [for_each bind]. exact E.
Qed.

Lemma X11_witness :
  for_each strip_leftover (strip (py " -- Song - Two -- ")) EXTRA_STRIP_PATTERNS
  = Some (without_trailing_separator
            (without_leading_separator (strip (py " -- Song - Two -- "))))
  /\ _replace_junk (py " -- Song - Two -- ") []
     = Some (without_trailing_separator
               (without_leading_separator (strip (py " -- Song - Two -- ")))).
Proof.
  apply (@X11_separator_cleanup (py " -- Song - Two -- ")). reflexivity.
Defined.

(** *** The catalog entries with one keyword *)

Lemma catalog_single_keywords :
  Forall (fun kw => In (Pattern true (keyword_regex (py kw)))
                       YOUTUBE_TITLE_JUNK)
         single_keywords.
Proof.
  unfold single_keywords.
  repeat (apply Forall_cons;
          [vm_compute; repeat first [left; reflexivity | right]|]).
  apply Forall_nil.
Qed.

Lemma one_line_iff (s : pystr) :
  has_char newline s = false <->
  Forall (fun x => cclass_ok true CAny x = true) s.
Proof.
  unfold has_char. cbn [cclass_ok].
  induction s as [|x s IH]; cbn [existsb].
  - split; auto.
  - rewrite orb_false_iff, IH, (Ascii.eqb_sym newline x). split.
    + intros [A B]. constructor; auto. rewrite A. reflexivity.
    + intros H. inversion H; subst. split; auto.
      apply negb_true_iff. assumption.
Qed.

Lemma keyword_tail_denotes (st m : mstate) :
  denotes true keyword_tail st m <->
  exists b c rest, ahead st = b ++ c :: rest
    /\ has_char newline b = false
    /\ cclass_ok true closing_brackets c = true
    /\ m = MState (c :: rev b ++ consumed st) rest (groups st).
Proof.
  unfold keyword_tail. cbn [denotes]. split.
  - intros (m1 & (b & r1 & Hb & E1 & ->) & m2
            & (c & r2 & E2 & Hc & ->) & ->).
    cbn [ahead consumed groups advance] in *. subst r1.
    exists b, c, r2. rewrite one_line_iff. auto.
  - intros (b & c & rest & E & Hb & Hc & ->).
    eexists. split.
    { exists b, (c :: rest). rewrite <- one_line_iff. auto. }
    eexists. split; [|reflexivity].
    exists c, rest. cbn [ahead]. auto.
Qed.

Lemma keyword_matches_exactly (kw : pystr) :
  matches_exactly (Pattern true (keyword_regex kw)) (keyword_text kw).
Proof.
  intros st m. cbn [ignorecase body]. rewrite matches_denotes.
  unfold keyword_regex. rewrite junk_group_denotes. split.
  - intros (m0 & w & D & M & ->).
    cbn [denotes] in D.
    destruct D as (m1 & (o & r1 & E1 & Ho & ->) & m2
                   & (a & r2 & Ha & E2 & ->) & D).
    apply literals_denotes in D as (k & r3 & E3 & Hk & D).
    apply keyword_tail_denotes in D as (b & c & r4 & E4 & Hb & Hc & ->).
    cbn [ahead consumed groups advance] in *. subst r1 r2 r3.
    assert (w = o :: a ++ k ++ b ++ [c]) as ->.
    { apply (@moved_unique _ _ st
               (MState (c :: rev b ++ rev k ++ rev a ++ o :: consumed st)
                       r4 (groups st))); [exact M|].
      split; cbn [ahead consumed].
      - rewrite E1. cbn [app]. rewrite <- !app_assoc. reflexivity.
      - cbn [rev]. rewrite !rev_app_distr. cbn [rev app].
        rewrite <- !app_assoc. reflexivity. }
    exists (o :: a ++ k ++ b ++ [c]), r4. split; [|split].
    + exists o, a, k, b, c. apply one_line_iff in Ha. auto 10.
    + rewrite E1. cbn [app]. rewrite <- !app_assoc. reflexivity.
    + f_equal. cbn [rev]. rewrite !rev_app_distr. cbn [rev app].
      rewrite <- !app_assoc. reflexivity.
  - intros (junk & rest & (o & a & k & b & c & -> & Ho & Ha & Hk & Hb & Hc)
            & E & ->).
    exists (MState (c :: rev b ++ rev k ++ rev a ++ o :: consumed st)
                   rest (groups st)), (o :: a ++ k ++ b ++ [c]).
    split; [|split].
    + cbn [denotes]. eexists. split.
      { exists o, (a ++ k ++ b ++ c :: rest). split; [|split; auto].
        rewrite E. cbn [app]. rewrite <- !app_assoc. reflexivity. }
      eexists. split.
      { exists a, (k ++ b ++ c :: rest). cbn [ahead advance].
        rewrite <- one_line_iff. auto. }
      apply literals_denotes. exists k, (b ++ c :: rest).
      cbn [ahead consumed groups advance]. split; [reflexivity|].
      split; [exact Hk|].
      apply keyword_tail_denotes. exists b, c, rest.
      cbn [ahead consumed groups]. rewrite <- ?app_assoc. auto.
    + split; cbn [ahead consumed].
      * rewrite E. cbn [app]. rewrite <- !app_assoc. reflexivity.
      * cbn [rev]. rewrite !rev_app_distr. cbn [rev app].
        rewrite <- !app_assoc. reflexivity.
    + cbn [ahead consumed groups]. f_equal.
      cbn [rev]. rewrite !rev_app_distr. cbn [rev app].
      rewrite <- !app_assoc. reflexivity.
Qed.

(** X12: ten entries of the catalog have one keyword (Audio, Album, Song,
    Video, Lyric, Visualizer, iTunes, Official, Original, Version).  What
    such an entry finds in a title is a text from an opening bracket to a
    closing bracket on one line with the keyword in between, in any case,
    the brackets not necessarily of one kind; it finds one whenever the
    title holds one; and a title that holds none is left as it is. *)
Theorem X12_keyword_patterns (kw : string) :
  In kw single_keywords ->
  let p := Pattern true (keyword_regex (py kw)) in
  In p YOUTUBE_TITLE_JUNK
  /\ (forall t m, re_search p t = Some m ->
        exists pre junk post, t = pre ++ junk ++ post
          /\ keyword_text (py kw) junk /\ group m "junk" = Some junk)
  /\ (forall pre junk post, keyword_text (py kw) junk ->
        re_search p (pre ++ junk ++ post) <> None)
  /\ (forall t,
        (forall pre junk post, t = pre ++ junk ++ post ->
                               ~ keyword_text (py kw) junk) ->
        remove_junk t p = Some t).
Proof.
  intros Hkw p.
  pose proof catalog_single_keywords as C. rewrite Forall_forall in C.
  destruct (search_of_language (@keyword_matches_exactly (py kw)))
    as [Sound Complete].
  split; [apply C, Hkw|]. split; [|split].
  - intros t m H. apply Sound in H
      as (pre & junk & post & E & L & G & _).
    exists pre, junk, post. auto.
  - exact Complete.
  - intros t Hno. unfold remove_junk.
    destruct (re_search p t) as [m|] eqn:E; [|reflexivity].
    exfalso. apply Sound in E as (pre & junk & post & E & L & _).
    exact (Hno pre junk post E L).
Qed.

Lemma X12_witness :
  let p := Pattern true (keyword_regex (py "Audio")) in
  In p YOUTUBE_TITLE_JUNK
  /\ (forall t m, re_search p t = Some m ->
        exists pre junk post, t = pre ++ junk ++ post
          /\ keyword_text (py "Audio") junk /\ group m "junk" = Some junk)
  /\ (forall pre junk post, keyword_text (py "Audio") junk ->
        re_search p (pre ++ junk ++ post) <> None)
  /\ (forall t,
        (forall pre junk post, t = pre ++ junk ++ post ->
                               ~ keyword_text (py "Audio") junk) ->
        remove_junk t p = Some t).
Proof.
  apply (@X12_keyword_patterns "Audio"). left. reflexivity.
Defined.

(** *** Which span a keyword entry removes *)

(** The first success after a lazy star comes from the shortest run that
    lets the rest of the pattern succeed. *)
Lemma run_star_lazy_first (ok : ascii -> bool) (F : mstate -> list mstate)
    (g : list (string * pystr)) (rest done : pystr) (m : mstate) :
  hd_error (flat_map F (run_star false ok done rest g)) = Some m ->
  exists w r', Forall (fun x => ok x = true) w /\ rest = w ++ r'
    /\ hd_error (F (MState (rev w ++ done) r' g)) = Some m
    /\ forall w1 w2, w = w1 ++ w2 -> w2 <> [] ->
         F (MState (rev w1 ++ done) (w2 ++ r') g) = [].
Proof.
  revert done. induction rest as [|x rest IH]; intros done;
    cbn [run_star].
  - cbn [flat_map]. rewrite app_nil_r. intros H. exists [], [].
    repeat split; auto.
    intros w1 w2 E Hn. symmetry in E. apply app_eq_nil in E as [_ ->].
    congruence.
  - destruct (ok x) eqn:Hx.
    + cbn [flat_map].
      destruct (F (MState done (x :: rest) g)) as [|y l] eqn:EF.
      * cbn [app]. intros H.
        apply IH in H as (w & r' & Hw & -> & HF & Hmin).
        exists (x :: w), r'. cbn [rev app]. rewrite <- app_assoc.
        repeat split; auto.
        intros w1 w2 E Hn. destruct w1 as [|z w1]; cbn [app] in E.
        -- subst w2. cbn [rev app]. exact EF.
        -- injection E as <- ->. cbn [rev]. rewrite <- app_assoc.
           apply Hmin; auto.
      * cbn [app hd_error]. intros [= <-]. exists [], (x :: rest).
        cbn [rev app]. rewrite EF. repeat split; auto.
        intros w1 w2 E Hn. symmetry in E. apply app_eq_nil in E as [_ ->].
        congruence.
    + cbn [flat_map]. rewrite app_nil_r. intros H. exists [], (x :: rest).
      repeat split; auto.
      intros w1 w2 E Hn. symmetry in E. apply app_eq_nil in E as [_ ->].
      congruence.
Qed.

Lemma flat_map_eps (ic : bool) (l : list mstate) :
  flat_map (matches ic Eps) l = l.
Proof.
  induction l as [|a l IH]; [reflexivity|].
  change (a :: flat_map (matches ic Eps) l = a :: l). f_equal. exact IH.
Qed.

Lemma hd_error_map (A B : Type) (f : A -> B) (l : list A) (y : B) :
  hd_error (map f l) = Some y ->
  exists x, hd_error l = Some x /\ y = f x.
Proof. destruct l; simpl; [discriminate|]. intros [= <-]. eauto. Qed.

Lemma keyword_matches_cons (kw done rest : pystr) (o : ascii)
    (g : list (string * pystr)) :
  matches true (keyword_regex kw) (MState done (o :: rest) g)
  = if cclass_ok true opening_brackets o
    then map (close_group "junk" (MState done (o :: rest) g))
           (flat_map (matches true (literals kw keyword_tail))
              (run_star false (cclass_ok true CAny) (o :: done) rest g))
    else [].
Proof.
  unfold keyword_regex.
  change (matches true (Cat (Group "junk"
            (Cat (Chr opening_brackets)
               (Cat (Star false CAny) (literals kw keyword_tail)))) Eps)
            (MState done (o :: rest) g))
    with (flat_map (matches true Eps)
            (map (close_group "junk" (MState done (o :: rest) g))
               (flat_map
                  (fun st => flat_map (matches true (literals kw keyword_tail))
                     (run_star false (cclass_ok true CAny) (consumed st)
                        (ahead st) (groups st)))
                  (if cclass_ok true opening_brackets o
                   then [advance o rest (MState done (o :: rest) g)]
                   else [])))).
  rewrite flat_map_eps.
  destruct (cclass_ok true opening_brackets o); [|reflexivity].
  cbn [flat_map advance consumed ahead groups]. rewrite app_nil_r.
  reflexivity.
Qed.

Lemma literals_first (kw : pystr) (r : regex) :
  forall st m,
  hd_error (matches true (literals kw r) st) = Some m ->
  exists k rest, ahead st = k ++ rest /\ ci_eq kw k
    /\ hd_error (matches true r
                   (MState (rev k ++ consumed st) rest (groups st))) = Some m.
Proof.
  induction kw as [|c kw IH]; intros st m; cbn [literals fold_right].
  - intros H. exists [], (ahead st). repeat split; [constructor|].
    destruct st; exact H.
  - fold (literals kw r).
    change (matches true (Cat (Chr (CLit c)) (literals kw r)) st)
      with (flat_map (matches true (literals kw r))
              (match ahead st with
               | x :: rest => if char_eq true c x
                              then [advance x rest st] else []
               | [] => []
               end)).
    destruct (ahead st) as [|x rest] eqn:E; [discriminate|].
    destruct (char_eq true c x) eqn:Hx; [|discriminate].
    cbn [flat_map]. rewrite app_nil_r. intros H.
    apply IH in H as (k & rest' & E' & Hk & H).
    cbn [advance ahead consumed groups] in *. subst rest.
    exists (x :: k), rest'. repeat split.
    + constructor; auto. apply char_eq_ci, Hx.
    + cbn [rev]. rewrite <- app_assoc. exact H.
Qed.

Lemma keyword_tail_first (st m : mstate) :
  hd_error (matches true keyword_tail st) = Some m ->
  exists y c r, ahead st = y ++ c :: r
    /\ Forall (fun x => cclass_ok true closing_brackets x = false) y
    /\ cclass_ok true closing_brackets c = true
    /\ ahead m = r.
Proof.
  unfold keyword_tail.
  change (matches true (Cat (Star false CAny)
                          (Cat (Chr closing_brackets) Eps)) st)
    with (flat_map (matches true (Cat (Chr closing_brackets) Eps))
            (run_star false (cclass_ok true CAny) (consumed st) (ahead st)
               (groups st))).
  intros H. apply run_star_lazy_first in H as (y & r' & _ & E & HF & Hmin).
  assert (In m (matches true (Cat (Chr closing_brackets) Eps)
                  (MState (rev y ++ consumed st) r' (groups st)))) as I.
  { destruct (matches true (Cat (Chr closing_brackets) Eps) _);
      [discriminate|].
    injection HF as ->. left. reflexivity. }
  apply matches_denotes in I. cbn [denotes] in I.
  destruct I as (m1 & (c & r & Er & Hc & ->) & ->).
  cbn [ahead] in Er. subst r'.
  exists y, c, r. repeat split; auto.
  apply Forall_forall. intros z Hz.
  apply in_split in Hz as (y1 & y2 & ->).
  specialize (Hmin y1 (z :: y2) eq_refl ltac:(discriminate)).
  destruct (cclass_ok true closing_brackets z) eqn:Hcz; auto.
  exfalso.
  assert (In (advance z (y2 ++ c :: r)
                (MState (rev y1 ++ consumed st) ((z :: y2) ++ c :: r)
                        (groups st)))
             (matches true (Cat (Chr closing_brackets) Eps)
                (MState (rev y1 ++ consumed st) ((z :: y2) ++ c :: r)
                        (groups st)))) as I.
  { apply matches_denotes. cbn [denotes]. eexists. split; [|reflexivity].
    exists z, (y2 ++ c :: r). auto. }
  rewrite Hmin in I. destruct I.
Qed.

(** The first match of a keyword entry tried at an opening bracket. *)
Lemma keyword_first_match (kw done rest : pystr) (o : ascii) (m : mstate) :
  first_match (Pattern true (keyword_regex kw)) (MState done (o :: rest) [])
    = Some m ->
  exists x k y c r, rest = x ++ k ++ y ++ c :: r
    /\ ci_eq kw k
    /\ Forall (fun z => cclass_ok true closing_brackets z = false) y
    /\ cclass_ok true closing_brackets c = true
    /\ (forall x1 x2, x = x1 ++ x2 -> x2 <> [] ->
          matches true (literals kw keyword_tail)
            (MState (rev x1 ++ o :: done) (x2 ++ k ++ y ++ c :: r) []) = [])
    /\ group m "junk" = Some (o :: x ++ k ++ y ++ [c]).
Proof.
  intros H. pose proof (first_match_denotes _ _ H) as D.
  cbn [ignorecase body] in D. unfold keyword_regex in D.
  apply junk_group_denotes in D as (m0' & w & _ & [Mw _] & Em).
  unfold first_match in H. cbn [ignorecase body] in H.
  rewrite keyword_matches_cons in H.
  destruct (cclass_ok true opening_brackets o); [|discriminate].
  apply hd_error_map in H as (m0 & H & Em0).
  apply run_star_lazy_first in H as (x & r1 & _ & E1 & H & Hmin).
  apply literals_first in H as (k & r2 & E2 & Hk & H).
  apply keyword_tail_first in H as (y & c & r & E3 & Hy & Hc & Er).
  cbn [ahead consumed groups] in *. subst r1 r2 rest.
  exists x, k, y, c, r. repeat split; auto.
  assert (ahead m = r) as Ea.
  { rewrite Em0. cbn [close_group ahead]. exact Er. }
  rewrite Em in Ea |- *. cbn [ahead] in Ea. rewrite group_top. f_equal.
  rewrite Ea in Mw.
  apply (app_inv_tail r).
  rewrite <- Mw. cbn [app]. rewrite <- !app_assoc. reflexivity.
Qed.

Lemma first_closer_unique (P : ascii -> bool) (y : pystr) :
  forall (i r1 r2 : pystr) (c1 c2 : ascii),
  y ++ c1 :: r1 = i ++ c2 :: r2 ->
  Forall (fun x => P x = false) y -> P c1 = true ->
  Forall (fun x => P x = false) i -> P c2 = true ->
  y = i /\ c1 = c2 /\ r1 = r2.
Proof.
  induction y as [|a y IH]; intros i r1 r2 c1 c2 E Hy H1 Hi H2.
  - destruct i as [|b i]; cbn [app] in E.
    + injection E as -> ->. auto.
    + injection E as -> _. inversion Hi; subst. congruence.
  - destruct i as [|b i]; cbn [app] in E.
    + injection E as -> _. inversion Hy; subst. congruence.
    + injection E as -> E. inversion Hy; subst. inversion Hi; subst.
      destruct (IH i r1 r2 c1 c2 E) as (-> & -> & ->); auto.
Qed.

Lemma app_same_length (A : Type) (a b c d : list A) :
  a ++ b = c ++ d -> length a = length c -> a = c /\ b = d.
Proof.
  revert c. induction a as [|x a IH]; intros [|y c] E L;
    try discriminate; cbn [app] in E.
  - auto.
  - injection E as -> E. injection L as L.
    destruct (IH c E L) as [-> ->]. auto.
Qed.

Lemma ci_eq_length (a b : pystr) : ci_eq a b -> length a = length b.
Proof. induction 1; simpl; congruence. Qed.

(** Deleting [old] from a text where it cannot start before a given place. *)
Lemma replace_scan_keep (o : ascii) (old' s post : pystr) :
  Forall (fun x => Ascii.eqb o x = false) s ->
  replace_scan (o :: old') [] 0 (s ++ post)
  = s ++ replace_scan (o :: old') [] 0 post.
Proof.
  induction s as [|x s IH]; intros H; [reflexivity|].
  inversion H; subst. cbn [app replace_scan startswith].
  rewrite H2. cbn [andb]. f_equal. apply IH. assumption.
Qed.

Lemma skipn_app_length (A : Type) (l r : list A) :
  skipn (length l) (l ++ r) = r.
Proof. induction l; simpl; auto. Qed.

Lemma replace_scan_here (old post : pystr) :
  old <> [] ->
  replace_scan old [] 0 (old ++ post) = replace_scan old [] 0 post.
Proof.
  intros Hn. destruct old as [|o old']; [congruence|].
  cbn [app replace_scan].
  assert (startswith (o :: old') (o :: old' ++ post) = true) as ->.
  { apply startswith_spec. exists post. reflexivity. }
  replace (length (o :: old') - 1) with (length old')
    by (cbn [length]; lia).
  cbn [app].
  rewrite replace_scan_skip, skipn_app_length. reflexivity.
Qed.

Lemma opening_differs (o x : ascii) :
  cclass_ok true opening_brackets o = true ->
  cclass_ok true opening_brackets x = false ->
  Ascii.eqb o x = false.
Proof.
  intros Ho Hx. destruct (Ascii.eqb_spec o x) as [->|]; congruence.
Qed.

Lemma keyword_span (kw pre a k b post : pystr) (o c : ascii) :
  Forall (fun x => cclass_ok true opening_brackets x = false) pre ->
  cclass_ok true opening_brackets o = true ->
  ci_eq kw k ->
  has_char newline (a ++ k ++ b) = false ->
  Forall (fun x => cclass_ok true closing_brackets x = false) (a ++ k ++ b) ->
  cclass_ok true closing_brackets c = true ->
  exists m,
    re_search (Pattern true (keyword_regex kw))
      (pre ++ (o :: a ++ k ++ b ++ [c]) ++ post) = Some m
    /\ group m "junk" = Some (o :: a ++ k ++ b ++ [c]).
Proof.
  intros Hpre Ho Hk Hline Hclose Hc.
  set (p := Pattern true (keyword_regex kw)).
  set (junk := o :: a ++ k ++ b ++ [c]).
  rewrite !has_char_app in Hline.
  apply orb_false_iff in Hline as [La Hline].
  apply orb_false_iff in Hline as [Lk Lb].
  assert (keyword_text kw junk) as KT.
  { exists o, a, k, b, c. auto 10. }
  destruct (search_of_language (@keyword_matches_exactly kw))
    as [_ Complete].
  destruct (re_search p (pre ++ junk ++ post)) as [m|] eqn:ES;
    [|exfalso; exact (Complete pre junk post KT ES)].
  exists m. split; [reflexivity|].
  unfold re_search in ES.
  apply search_from_Some in ES as (pre' & post' & E & FM & Hleft).
  rewrite app_nil_r in FM.
  (* the match starts at the opening bracket *)
  assert (length pre' = length pre) as L.
  { destruct (Nat.lt_trichotomy (length pre') (length pre)) as [Lt|[Eq|Gt]];
      [exfalso | exact Eq | exfalso].
    - pose proof (first_match_denotes _ _ FM) as D.
      apply (@first_class_denotes true opening_brackets) in D
        as (x & rest & Ex & Hx); [|reflexivity].
      cbn [ahead] in Ex. subst post'.
      assert (In x pre) as I.
      { assert (firstn (length pre) (pre' ++ x :: rest) = pre) as F.
        { rewrite <- E. rewrite firstn_app, Nat.sub_diag, firstn_all.
          cbn [firstn]. apply app_nil_r. }
        rewrite <- F. rewrite firstn_app.
        apply in_or_app. right.
        destruct (length pre - length pre') eqn:Ed; [lia|].
        left. reflexivity. }
      rewrite Forall_forall in Hpre. apply Hpre in I. congruence.
    - specialize (Hleft pre (junk ++ post) eq_refl Gt).
      rewrite app_nil_r in Hleft.
      pose proof (proj1 (first_match_None _ _) Hleft) as N. eapply N.
      apply matches_denotes, keyword_matches_exactly.
      exists junk, post. cbn [ahead consumed groups]. eauto. }
  symmetry in E. destruct (app_same_length _ _ _ _ E L) as [-> ->].
  unfold junk in FM. cbn [app] in FM.
  apply keyword_first_match in FM
    as (x & k' & y & c' & r & E1 & Hk' & Hy & Hc' & Hmin & G).
  rewrite G. unfold junk. f_equal. f_equal.
  rewrite <- !app_assoc in E1. cbn [app] in E1.
  (* the lazy run before the keyword is no longer than [a] *)
  assert (exists l, a = x ++ l
                    /\ k' ++ y ++ c' :: r = l ++ k ++ b ++ c :: post)
    as (l & -> & E2).
  { apply app_eq_app in E1 as (l & [[Ea E2]|[-> E2]]).
    - exists l. auto.
    - destruct l as [|z l].
      + exists []. rewrite !app_nil_r. cbn [app] in E2 |- *. auto.
      + exfalso.
        specialize (Hmin a (z :: l) eq_refl ltac:(discriminate)).
        assert (In (MState (c :: rev b ++ rev k ++ rev a ++ o :: rev pre)
                           post [])
                   (matches true (literals kw keyword_tail)
                      (MState (rev a ++ o :: rev pre)
                         ((z :: l) ++ k' ++ y ++ c' :: r) []))) as I.
        { apply matches_denotes, literals_denotes.
          exists k, (b ++ c :: post). cbn [ahead consumed groups].
          split; [symmetry; exact E2|]. split; [exact Hk|].
          apply keyword_tail_denotes. exists b, c, post.
          cbn [ahead consumed groups]. rewrite <- ?app_assoc. auto. }
        rewrite Hmin in I. destruct I. }
  (* the keyword read lies inside the span *)
  assert (exists l2, l ++ k = k' ++ l2
                     /\ y ++ c' :: r = l2 ++ b ++ c :: post)
    as (l2 & E3 & E4).
  { assert (length k' = length k) as Lk'.
    { rewrite <- (ci_eq_length Hk), <- (ci_eq_length Hk'). reflexivity. }
    rewrite (app_assoc l k) in E2.
    apply app_eq_app in E2 as (l' & [[E3 E4]|[E3 E4]]); [|exists l'; auto].
    - assert (length k' = length l + length k + length l') as Ll.
      { rewrite E3, !length_app. reflexivity. }
      assert (l = []) as -> by (destruct l; [auto|cbn in Ll; lia]).
      assert (l' = []) as -> by (destruct l'; [auto|cbn in Ll; lia]).
      exists []. cbn [app] in *. rewrite app_nil_r in *.
      split; [symmetry; exact E3 | symmetry; exact E4]. }
  assert (Forall (fun z => cclass_ok true closing_brackets z = false)
                 (l2 ++ b)) as Hl2.
  { rewrite <- !app_assoc in Hclose.
    apply Forall_app in Hclose as [_ Hclose].
    rewrite app_assoc, E3, <- app_assoc in Hclose.
    apply Forall_app in Hclose as [_ Hclose]. exact Hclose. }
  rewrite app_assoc in E4.
  destruct (@first_closer_unique (cclass_ok true closing_brackets)
              y (l2 ++ b) r post c' c E4 Hy Hc' Hl2 Hc) as (-> & -> & ->).
  rewrite <- !app_assoc.
  rewrite (app_assoc k' l2), <- E3, <- !app_assoc. reflexivity.
Qed.

(** X13: when a title holds, after a part without opening bracket, a
    bracketed span on one line that contains a keyword of the catalog, in
    any case, and no closing bracket before its own, the entry of that
    keyword captures exactly this span, brackets included, and the turn of
    the loop deletes it: the part before it stays, and so does the part
    after it if no opening bracket is left there. *)
Theorem X13_bracketed_keyword_removed (kw : string)
    (pre a k b post : pystr) (o c : ascii) :
  In kw single_keywords ->
  Forall (fun x => cclass_ok true opening_brackets x = false) pre ->
  cclass_ok true opening_brackets o = true ->
  ci_eq (py kw) k ->
  has_char newline (a ++ k ++ b) = false ->
  Forall (fun x => cclass_ok true closing_brackets x = false) (a ++ k ++ b) ->
  cclass_ok true closing_brackets c = true ->
  let p := Pattern true (keyword_regex (py kw)) in
  let junk := o :: a ++ k ++ b ++ [c] in
  In p YOUTUBE_TITLE_JUNK
  /\ (exists m, re_search p (pre ++ junk ++ post) = Some m
                /\ group m "junk" = Some junk)
  /\ remove_junk (pre ++ junk ++ post) p
     = Some (pre ++ str_replace post junk [])
  /\ (Forall (fun x => cclass_ok true opening_brackets x = false) post ->
      remove_junk (pre ++ junk ++ post) p = Some (pre ++ post)).
Proof.
  intros Hkw Hpre Ho Hk Hline Hclose Hc p junk.
  pose proof catalog_single_keywords as C. rewrite Forall_forall in C.
  destruct (@keyword_span (py kw) pre a k b post o c Hpre Ho Hk Hline
              Hclose Hc) as (m & ES & G).
  fold p in ES. fold junk in ES, G.
  assert (remove_junk (pre ++ junk ++ post) p
          = Some (pre ++ str_replace post junk [])) as R.
  { unfold remove_junk. rewrite ES, G. cbn [bind]. f_equal.
    unfold junk, str_replace.
    rewrite replace_scan_keep.
    - rewrite replace_scan_here by discriminate. reflexivity.
    - eapply Forall_impl; [|exact Hpre].
      intros x Hx. apply opening_differs; assumption. }
  split; [apply C, Hkw|]. split; [eauto|]. split; [exact R|].
  intros Hpost. rewrite R. f_equal. f_equal.
  unfold junk, str_replace.
  rewrite <- (app_nil_r post) at 1.
  rewrite replace_scan_keep.
  - cbn [replace_scan]. apply app_nil_r.
  - eapply Forall_impl; [|exact Hpost].
    intros x Hx. apply opening_differs; assumption.
Qed.

Lemma X13_witness :
  let p := Pattern true (keyword_regex (py "Official")) in
  let junk := "("%char :: [] ++ py "OFFICIAL" ++ py " Video" ++ [")"%char] in
  In p YOUTUBE_TITLE_JUNK
  /\ (exists m, re_search p (py "Song " ++ junk ++ py " live") = Some m
                /\ group m "junk" = Some junk)
  /\ remove_junk (py "Song " ++ junk ++ py " live") p
     = Some (py "Song " ++ str_replace (py " live") junk [])
  /\ (Forall (fun x => cclass_ok true opening_brackets x = false)
             (py " live") ->
      remove_junk (py "Song " ++ junk ++ py " live") p
      = Some (py "Song " ++ py " live")).
Proof.
  apply (@X13_bracketed_keyword_removed "Official" (py "Song ") []
           (py "OFFICIAL") (py " Video") (py " live") "(" ")");
    try reflexivity.
  - right. right. right. right. right. right. right. left. reflexivity.
  - repeat constructor.
  - repeat constructor.
  - repeat constructor.
Defined.

(** *** Every catalog entry removes bracketed text *)

Lemma moved_group (n : string) (w : pystr) (st m1 : mstate) :
  moved w st (close_group n st m1) -> moved w st m1.
Proof. intros [A B]. split; [exact A | exact B]. Qed.

Lemma first_class_moved (ic : bool) (k : cclass) (r : regex) :
  first_class r = Some k ->
  forall st m w, denotes ic r st m -> moved w st m ->
  exists x w', w = x :: w' /\ cclass_ok ic k x = true.
Proof.
  induction r; cbn [first_class]; try discriminate.
  - intros [= ->] st m w (x & rest & E & H & ->) M.
    assert (moved [x] st (advance x rest st)) as M'
      by (split; [exact E | reflexivity]).
    rewrite (moved_unique M M'). eauto.
  - intros H st m w (m1 & D1 & D2) M.
    destruct (denotes_moved _ _ _ _ D1) as [w1 M1].
    destruct (denotes_moved _ _ _ _ D2) as [w2 M2].
    rewrite (moved_unique M (moved_trans M1 M2)).
    destruct (IHr1 H st m1 w1 D1 M1) as (x & w' & -> & Hx).
    exists x, (w' ++ w2). auto.
  - intros [= ->] st m w (w0 & rest & Hw & Hn & E & ->) M.
    assert (moved w0 st (MState (rev w0 ++ consumed st) rest (groups st)))
      as M' by (split; [exact E | reflexivity]).
    rewrite (moved_unique M M').
    destruct w0 as [|x w0]; [congruence|]. inversion Hw; subst. eauto.
  - intros H st m w (m1 & D & ->) M. apply moved_group in M. eauto.
Qed.

Lemma last_class_moved (ic : bool) (k : cclass) (r : regex) :
  last_class r = Some k ->
  forall st m w, denotes ic r st m -> moved w st m ->
  exists w' x, w = w' ++ [x] /\ cclass_ok ic k x = true.
Proof.
  induction r; cbn [last_class]; try discriminate.
  - intros [= ->] st m w (x & rest & E & H & ->) M.
    assert (moved [x] st (advance x rest st)) as M'
      by (split; [exact E | reflexivity]).
    rewrite (moved_unique M M'). exists [], x. auto.
  - intros H st m w (m1 & D1 & D2) M.
    destruct (denotes_moved _ _ _ _ D1) as [w1 M1].
    destruct (denotes_moved _ _ _ _ D2) as [w2 M2].
    assert (last_class r2 = Some k ->
            exists w' x, w = w' ++ [x] /\ cclass_ok ic k x = true) as Tail.
    { intros H'.
      rewrite (moved_unique M (moved_trans M1 M2)).
      destruct (IHr2 H' m1 m w2 D2 M2) as (w' & x & -> & Hx).
      exists (w1 ++ w'), x. rewrite app_assoc. auto. }
    destruct r2; try (apply Tail; exact H).
    cbn [denotes] in D2. subst m. eauto.
  - intros [= ->] st m w (w0 & rest & Hw & Hn & E & ->) M.
    assert (moved w0 st (MState (rev w0 ++ consumed st) rest (groups st)))
      as M' by (split; [exact E | reflexivity]).
    rewrite (moved_unique M M').
    destruct (@exists_last _ w0 Hn) as (w' & x & ->).
    apply Forall_app in Hw as [_ Hw]. inversion Hw; subst. eauto.
  - intros H st m w (m1 & D & ->) M. apply moved_group in M. eauto.
Qed.

Lemma catalog_shape :
  Forall (fun p => ignorecase p = true
                   /\ exists a, body p = Cat (Group "junk" a) Eps
                        /\ first_class a = Some opening_brackets
                        /\ last_class a = Some closing_brackets)
         YOUTUBE_TITLE_JUNK.
Proof.
  unfold YOUTUBE_TITLE_JUNK, YOUTUBE_TITLE_JUNK_src. cbn [map].
  repeat (apply Forall_cons;
          [split; [reflexivity|];
           eexists; split; [vm_compute; reflexivity|];
           split; reflexivity|]).
  apply Forall_nil.
Qed.

Lemma opening_not_closing (x : ascii) :
  cclass_ok true opening_brackets x = true ->
  cclass_ok true closing_brackets x = true -> False.
Proof.
  intros H. apply bracket_cases in H as [->|[->| ->]]; discriminate.
Qed.

(** X14: whatever an entry of the catalog finds in a title begins with an
    opening bracket and ends with a closing bracket; so a turn of the first
    loop with such an entry either leaves the title as it is or deletes the
    occurrences of one bracketed text of it. *)
Theorem X14_catalog_removes_bracketed_text (p : pattern) (t : pystr) :
  In p YOUTUBE_TITLE_JUNK ->
  (re_search p t = None /\ remove_junk t p = Some t)
  \/ exists pre o mid c post,
       t = pre ++ (o :: mid ++ [c]) ++ post
       /\ cclass_ok true opening_brackets o = true
       /\ cclass_ok true closing_brackets c = true
       /\ (exists m, re_search p t = Some m
                     /\ group m "junk" = Some (o :: mid ++ [c]))
       /\ remove_junk t p = Some (str_replace t (o :: mid ++ [c]) []).
Proof.
  intros Hp. pose proof catalog_shape as C. rewrite Forall_forall in C.
  destruct (C p Hp) as (Hic & a & Hb & Hfirst & Hlast).
  unfold remove_junk.
  destruct (re_search p t) as [m|] eqn:ES; [right | left; auto].
  pose proof ES as ES'.
  apply re_search_Some in ES as (pre & post0 & -> & FM).
  apply first_match_denotes in FM. rewrite Hic, Hb in FM.
  apply junk_group_denotes in FM as (m0 & w & D & M & ->).
  destruct (@first_class_moved true _ a Hfirst _ _ _ D M)
    as (o & w1 & E1 & Ho).
  destruct (@last_class_moved true _ a Hlast _ _ _ D M)
    as (w2 & c & E2 & Hc).
  assert (exists mid, w = o :: mid ++ [c]) as [mid ->].
  { destruct w2 as [|z w2].
    - exfalso. rewrite E1 in E2. cbn [app] in E2. injection E2 as -> _.
      exact (opening_not_closing _ Ho Hc).
    - rewrite E1 in E2. cbn [app] in E2. injection E2 as <- ->.
      exists w2. exact E1. }
  destruct M as [Ma _]. cbn [ahead] in Ma.
  exists pre, o, mid, c, (ahead m0). rewrite group_top. cbn [bind].
  repeat split; auto.
  - rewrite Ma. reflexivity.
  - eexists. split; [reflexivity|]. apply group_top.
Qed.

Lemma X14_witness :
  let p := compiled "(?i)(?P<junk>[\(\[\{].*?(?:HQ|HD|CDQ).*?[\)\]\}])" in
  let t := py "Song [hd] live" in
  (re_search p t = None /\ remove_junk t p = Some t)
  \/ exists pre o mid c post,
       t = pre ++ (o :: mid ++ [c]) ++ post
       /\ cclass_ok true opening_brackets o = true
       /\ cclass_ok true closing_brackets c = true
       /\ (exists m, re_search p t = Some m
                     /\ group m "junk" = Some (o :: mid ++ [c]))
       /\ remove_junk t p = Some (str_replace t (o :: mid ++ [c]) []).
Proof.
  intros p t. apply (@X14_catalog_removes_bracketed_text p t).
  right. left. reflexivity.
Defined.

(** *** A file name without junk, from the path to the title *)

Lemma not_opening_not_paren (x : ascii) :
  cclass_ok true opening_brackets x = false ->
  cclass_ok true (CLit "(") x = false.
Proof.
  unfold opening_brackets. cbn [cclass_ok py list_ascii_of_string existsb].
  intros H. apply orb_false_iff in H as [H _]. exact H.
Qed.

Lemma album_unmatched (album_name t : pystr) :
  Forall (fun x => cclass_ok true opening_brackets x = false) t ->
  re_search (Pattern true (album_regex album_name)) t = None.
Proof.
  intros H. apply (@unmatched_without (CLit "(")); [reflexivity|].
  cbn [ignorecase]. eapply Forall_impl; [|exact H].
  intros x. apply not_opening_not_paren.
Qed.

Lemma artist_unmatched (artist_name t : pystr) :
  (forall pre mid post, t = pre ++ mid ++ post -> ~ ci_eq artist_name mid) ->
  re_search (Pattern true (artist_regex artist_name)) t = None.
Proof.
  intros H.
  destruct (search_of_language (@artist_matches_exactly artist_name))
    as [Sound _].
  destruct (re_search (Pattern true (artist_regex artist_name)) t)
    as [m|] eqn:E; [|reflexivity].
  exfalso. apply Sound in E
    as (pre & junk & post & -> & (op & mid & cl & -> & _ & _ & Hci) & _).
  apply (H (pre ++ op) mid (cl ++ post)); [|exact Hci].
  rewrite <- !app_assoc. reflexivity.
Qed.

(** X15: from the path to the title, when there is nothing to remove.  For
    an item whose path ends in [artist/album/base.ext], where [base] has no
    opening bracket, its trimmed text is on one line and, if the artist is
    inferred, the artist name does not occur in [base] in any case, the
    clean title is [base] trimmed, less one separator at each end. *)
Theorem X15_clean_title_of_plain_name (ia ir : bool)
    (d artist album base ext t al ar : pystr) (o : list (string * pystr)) :
  is_component artist = true -> is_component album = true ->
  base <> [] -> ext <> [] ->
  has_char "/" base = false -> has_char "/" ext = false ->
  has_char "." ext = false ->
  Forall (fun x => cclass_ok true opening_brackets x = false) base ->
  has_char newline (strip base) = false ->
  (ir = true ->
   forall pre mid post, base = pre ++ mid ++ post -> ~ ci_eq artist mid) ->
  get_clean_title (MkPlugin ia ir)
    (MkItem (d ++ py "/" ++ artist ++ py "/" ++ album ++ py "/"
               ++ (base ++ py "." ++ ext)) t al ar o)
  = Some (without_trailing_separator
            (without_leading_separator (strip base))).
Proof.
  intros Ha Hb Nb Ne Sb Se D Hopen Hline Hartist.
  pose proof (file_name_component Nb Ne Sb Se) as Hf.
  pose proof (@parts_deep d artist album (base ++ py "." ++ ext) Ha Hb Hf)
    as P.
  apply names_of_parts in P as (Pn & Pa & Pr).
  unfold get_clean_title, displayable_path.
  cbn [path infer_album infer_artist]. rewrite Pa, Pr.
  rewrite remove_album_name_pattern_eq, remove_artist_name_pattern_eq.
  unfold track_title_from_path.
  rewrite (@stem_last_extension _ base ext Pn Nb Ne D).
  assert (forall ps, Forall (fun p => re_search p base = None) ps ->
            _replace_junk base ps
            = Some (without_trailing_separator
                      (without_leading_separator (strip base)))) as Clean.
  { intros ps Hps. unfold _replace_junk.
    rewrite (@for_each_unmatched base ps Hps). cbn [bind].
    destruct (strip_spec base) as (W1 & W2 & _ & _ & _ & Hh & Hl).
    rewrite EXTRA_STRIP_PATTERNS_eq. cbn [for_each].
    rewrite leading_exact by assumption. cbn [bind].
    destruct (without_leading_shape _ Hh Hl Hline) as [Hl' Hn'].
    rewrite trailing_exact by assumption. reflexivity. }
  pose proof (@catalog_unmatched base Hopen) as Hcat.
  pose proof (@album_unmatched album base Hopen) as Halb.
  destruct ia, ir; cbn [bind app]; apply Clean.
  - apply Forall_cons; [exact Halb|].
    apply Forall_cons; [apply artist_unmatched, Hartist; reflexivity|].
    exact Hcat.
  - apply Forall_cons; [exact Halb | exact Hcat].
  - apply Forall_cons; [apply artist_unmatched, Hartist; reflexivity|].
    exact Hcat.
  - exact Hcat.
Qed.

Lemma X15_witness :
  get_clean_title (MkPlugin true true)
    (MkItem (py "/music" ++ py "/" ++ py "XTC" ++ py "/" ++ py "War" ++ py "/"
               ++ (py "- 01 Sunday -" ++ py "." ++ py "mp3")) [] [] [] [])
  = Some (without_trailing_separator
            (without_leading_separator (strip (py "- 01 Sunday -")))).
Proof.
  apply (@X15_clean_title_of_plain_name true true (py "/music") (py "XTC")
           (py "War") (py "- 01 Sunday -") (py "mp3") [] [] [] []);
    try reflexivity; try discriminate.
  - repeat constructor.
  - intros _ pre mid post E C.
    inversion C as [|x1 y1 l1 l1' H1 C1]; subst.
    assert (In y1 (py "- 01 Sunday -")) as I
      by (rewrite E; apply in_or_app; right; left; reflexivity).
    revert H1. cbn in I.
    repeat (destruct I as [<-|I]; [vm_compute; discriminate|]).
    destruct I.
Defined.

(** *** A title that is one separator between whitespace *)

Lemma lone_cleanup (sep : ascii) :
  is_separator sep = true ->
  for_each strip_leftover [sep] EXTRA_STRIP_PATTERNS = Some [sep].
Proof.
  intros Hs. apply separator_cases in Hs as [->|[->| ->]]; reflexivity.
Qed.

Lemma blank_strip (t : pystr) :
  Forall (fun x => is_space x = true) t -> strip t = [].
Proof.
  intros H. unfold strip.
  rewrite <- (app_nil_r t), lstrip_app_spaces by exact H. reflexivity.
Qed.

Lemma lone_catalog_unmatched (A B : pystr) (sep : ascii) :
  Forall (fun x => is_space x = true) A ->
  Forall (fun x => is_space x = true) B ->
  is_separator sep = true ->
  Forall (fun p => re_search p (A ++ sep :: B) = None) YOUTUBE_TITLE_JUNK.
Proof.
  intros HA HB Hs. apply catalog_unmatched, Forall_app. split.
  - eapply Forall_impl; [|exact HA]. apply space_not_bracket.
  - constructor; [apply separator_not_bracket, Hs|].
    eapply Forall_impl; [|exact HB]. apply space_not_bracket.
Qed.

Lemma blank_catalog_unmatched (t : pystr) :
  Forall (fun x => is_space x = true) t ->
  Forall (fun p => re_search p t = None) YOUTUBE_TITLE_JUNK.
Proof.
  intros H. apply catalog_unmatched.
  eapply Forall_impl; [|exact H]. apply space_not_bracket.
Qed.

Lemma lone_replace_junk (A B : pystr) (sep : ascii) (ps : list pattern) :
  Forall (fun x => is_space x = true) A ->
  Forall (fun x => is_space x = true) B ->
  is_separator sep = true ->
  Forall (fun p => re_search p (A ++ sep :: B) = None) ps ->
  _replace_junk (A ++ sep :: B) ps = Some [sep].
Proof.
  intros HA HB Hs Hps. unfold _replace_junk.
  rewrite (@for_each_unmatched _ ps Hps). cbn [bind].
  rewrite strip_around by auto using separator_not_space.
  apply lone_cleanup, Hs.
Qed.

Lemma blank_replace_junk (t : pystr) (ps : list pattern) :
  Forall (fun x => is_space x = true) t ->
  Forall (fun p => re_search p t = None) ps ->
  _replace_junk t ps = Some [].
Proof.
  intros Ht Hps. unfold _replace_junk.
  rewrite (@for_each_unmatched _ ps Hps). cbn [bind].
  rewrite blank_strip by exact Ht. reflexivity.
Qed.

Lemma replace_junk_cons (t : pystr) (p : pattern) (ps : list pattern) :
  _replace_junk t (p :: ps)
  = (t' <- remove_junk t p ;; _replace_junk t' ps).
Proof.
  unfold _replace_junk. cbn [for_each].
  destruct (remove_junk t p); reflexivity.
Qed.

Lemma remove_junk_unmatched (t : pystr) (p : pattern) :
  re_search p t = None -> remove_junk t p = Some t.
Proof. intros H. unfold remove_junk. rewrite H. reflexivity. Qed.

(** Deleting a text from a title, seen through a filter. *)
Lemma deleted_all_cases (old s r : pystr) :
  deleted_all old s r ->
  (~ occurs old s /\ r = s)
  \/ exists pre post r', s = pre ++ old ++ post /\ r = pre ++ r'
       /\ deleted_all old post r'.
Proof.
  destruct 1 as [s Hno | pre post r' Hmin D].
  - left. auto.
  - right. exists pre, post, r'. auto.
Qed.

Lemma deleted_all_subseq (old s r : pystr) :
  deleted_all old s r -> subseq r s.
Proof.
  induction 1 as [s Hno | pre post r' Hmin D IH].
  - apply subseq_refl.
  - apply subseq_app; [apply subseq_refl|].
    change r' with ([] ++ r'). apply subseq_app; [apply subseq_nil_l|].
    exact IH.
Qed.

Lemma deleted_all_filter (f : ascii -> bool) (old s r : pystr) :
  filter f old = [] -> deleted_all old s r -> filter f r = filter f s.
Proof.
  intros Hf. induction 1 as [s Hno | pre post r' Hmin D IH].
  - reflexivity.
  - rewrite !filter_app, Hf, IH. reflexivity.
Qed.

Lemma subseq_Forall (P : ascii -> Prop) (r t : pystr) :
  subseq r t -> Forall P t -> Forall P r.
Proof.
  induction 1 as [|c r t S IH|c r t S IH]; intros H.
  - constructor.
  - inversion H; subst. constructor; auto.
  - inversion H; subst. auto.
Qed.

Lemma filter_nil_Forall (f : ascii -> bool) (l : pystr) :
  filter f l = [] -> Forall (fun x => f x = false) l.
Proof.
  induction l as [|x l IH]; cbn [filter]; [constructor|].
  destruct (f x) eqn:E; [discriminate|]. intros H. constructor; auto.
Qed.

Lemma Forall_filter_nil (f : ascii -> bool) (l : pystr) :
  Forall (fun x => f x = false) l -> filter f l = [].
Proof.
  induction 1 as [|x l Hx H IH]; cbn [filter]; [reflexivity|].
  rewrite Hx. exact IH.
Qed.

Lemma has_char_filter (c : ascii) (l : pystr) :
  has_char c l = false -> filter (Ascii.eqb c) l = [].
Proof.
  unfold has_char. induction l as [|x l IH]; cbn [existsb filter];
    [reflexivity|].
  intros H. apply orb_false_iff in H as [H1 H2]. rewrite H1. auto.
Qed.

Lemma has_char_In (c : ascii) (l : pystr) :
  has_char c l = true <-> In c l.
Proof.
  unfold has_char. rewrite existsb_exists. split.
  - intros (x & I & E). apply Ascii.eqb_eq in E. subst. exact I.
  - intros I. exists c. split; [exact I | apply Ascii.eqb_refl].
Qed.

Lemma spaces_without (sep : ascii) (l : pystr) :
  is_separator sep = true ->
  Forall (fun x => is_space x = true) l ->
  Forall (fun x => Ascii.eqb sep x = false) l.
Proof.
  intros Hs H. eapply Forall_impl; [|exact H].
  intros x Hx. destruct (Ascii.eqb_spec sep x) as [<-|]; [|reflexivity].
  apply separator_not_space in Hs. congruence.
Qed.

(** The characters of the title other than whitespace, and its separator. *)
Lemma lone_nonspace (A B : pystr) (sep : ascii) :
  Forall (fun x => is_space x = true) A ->
  Forall (fun x => is_space x = true) B ->
  is_separator sep = true ->
  filter (fun x => negb (is_space x)) (A ++ sep :: B) = [sep].
Proof.
  intros HA HB Hs. rewrite filter_app. cbn [filter].
  rewrite (separator_not_space _ Hs). cbn [negb].
  rewrite !Forall_filter_nil; [reflexivity| |].
  - eapply Forall_impl; [|exact HB]. intros x ->. reflexivity.
  - eapply Forall_impl; [|exact HA]. intros x ->. reflexivity.
Qed.

Lemma lone_separators (A B : pystr) (sep : ascii) :
  Forall (fun x => is_space x = true) A ->
  Forall (fun x => is_space x = true) B ->
  is_separator sep = true ->
  filter (Ascii.eqb sep) (A ++ sep :: B) = [sep].
Proof.
  intros HA HB Hs. rewrite filter_app. cbn [filter].
  rewrite Ascii.eqb_refl.
  rewrite !Forall_filter_nil; auto using spaces_without.
Qed.

(** Deleting a text that holds the separator leaves whitespace only. *)
Lemma delete_holding (A B junk pre post : pystr) (sep : ascii) :
  Forall (fun x => is_space x = true) A ->
  Forall (fun x => is_space x = true) B ->
  is_separator sep = true ->
  A ++ sep :: B = pre ++ junk ++ post -> In sep junk ->
  Forall (fun x => is_space x = true) (str_replace (A ++ sep :: B) junk []).
Proof.
  intros HA HB Hs E I.
  assert (junk <> []) as Hn by (intros ->; destruct I).
  pose proof (@str_replace_deleted (A ++ sep :: B) junk Hn) as D.
  apply deleted_all_cases in D
    as [[Hno _]|(pre' & post' & r' & E' & -> & D)].
  { exfalso. apply Hno. exists pre, post. exact E. }
  pose proof (@lone_nonspace A B sep HA HB Hs) as F.
  rewrite E', !filter_app in F.
  assert (In sep (filter (fun x => negb (is_space x)) junk)) as I'.
  { apply filter_In. split; [exact I|].
    rewrite (separator_not_space _ Hs). reflexivity. }
  assert (filter (fun x => negb (is_space x)) pre' = []
          /\ filter (fun x => negb (is_space x)) post' = []) as [Fp Fq].
  { destruct (filter (fun x => negb (is_space x)) junk) as [|y l];
      [destruct I'|].
    destruct (filter (fun x => negb (is_space x)) pre') as [|z l'].
    - cbn [app] in F. injection F as _ F.
      apply app_eq_nil in F as [_ F]. auto.
    - cbn [app] in F. injection F as _ F.
      apply app_eq_nil in F as [_ F]. discriminate. }
  assert (forall l, filter (fun x => negb (is_space x)) l = [] ->
            Forall (fun x => is_space x = true) l) as Sp.
  { intros l Hl. apply filter_nil_Forall in Hl.
    eapply Forall_impl; [|exact Hl].
    intros x Hx. apply negb_false_iff in Hx. exact Hx. }
  apply Forall_app. split; [apply Sp, Fp|].
  eapply subseq_Forall; [eapply deleted_all_subseq, D|]. apply Sp, Fq.
Qed.

(** Deleting a text that does not hold the separator keeps the title one
    separator between whitespace. *)
Lemma delete_sparing (A B junk : pystr) (sep : ascii) :
  Forall (fun x => is_space x = true) A ->
  Forall (fun x => is_space x = true) B ->
  is_separator sep = true ->
  has_char sep junk = false ->
  exists A' B', str_replace (A ++ sep :: B) junk [] = A' ++ sep :: B'
    /\ Forall (fun x => is_space x = true) A'
    /\ Forall (fun x => is_space x = true) B'.
Proof.
  intros HA HB Hs Hj.
  set (r := str_replace (A ++ sep :: B) junk []).
  assert (filter (Ascii.eqb sep) r = [sep]) as F.
  { rewrite <- (@lone_separators A B sep HA HB Hs). unfold r.
    destruct junk as [|j junk'].
    - rewrite str_replace_empty. reflexivity.
    - apply (@deleted_all_filter _ (j :: junk')).
      + apply has_char_filter, Hj.
      + apply str_replace_deleted. discriminate. }
  assert (subseq r (A ++ sep :: B)) as S by apply str_replace_subseq.
  assert (Forall (fun x => is_space x = true \/ x = sep) r) as K.
  { eapply subseq_Forall; [exact S|]. apply Forall_app. split.
    - eapply Forall_impl; [|exact HA]. auto.
    - constructor; [auto|]. eapply Forall_impl; [|exact HB]. auto. }
  assert (In sep r) as I.
  { assert (In sep (filter (Ascii.eqb sep) r)) as I
      by (rewrite F; left; reflexivity).
    apply filter_In in I. apply I. }
  apply in_split in I as (A' & B' & E). exists A', B'.
  split; [exact E|]. rewrite E in F, K.
  rewrite filter_app in F. cbn [filter] in F.
  rewrite Ascii.eqb_refl in F.
  assert (filter (Ascii.eqb sep) A' = []
          /\ filter (Ascii.eqb sep) B' = []) as [FA FB].
  { destruct (filter (Ascii.eqb sep) A') as [|z l].
    - cbn [app] in F. injection F as F. auto.
    - cbn [app] in F. injection F as _ F.
      apply app_eq_nil in F as [_ F]. discriminate. }
  apply Forall_app in K as [KA KB]. inversion KB as [|? ? _ KB']; subst.
  assert (forall l, filter (Ascii.eqb sep) l = [] ->
            Forall (fun x => is_space x = true \/ x = sep) l ->
            Forall (fun x => is_space x = true) l) as Sp.
  { intros l Hl Hk. apply filter_nil_Forall in Hl.
    rewrite Forall_forall in *. intros x Hx.
    destruct (Hk x Hx) as [Q| ->]; [exact Q|].
    specialize (Hl sep Hx). rewrite Ascii.eqb_refl in Hl. discriminate. }
  split; apply Sp; assumption.
Qed.

(** Case folding does not confuse a separator with another character. *)
Lemma tolower_separator (sep x : ascii) :
  is_separator sep = true -> tolower x = tolower sep -> x = sep.
Proof.
  intros Hs. apply separator_cases in Hs as [->|[->| ->]];
    each_char x; vm_compute; intros H; (discriminate || reflexivity).
Qed.

Lemma ci_eq_has_separator (sep : ascii) (a b : pystr) :
  is_separator sep = true -> ci_eq a b -> has_char sep a = has_char sep b.
Proof.
  intros Hs. unfold has_char.
  induction 1 as [|x y a b H C IH]; cbn [existsb]; [reflexivity|].
  rewrite IH. f_equal.
  destruct (Ascii.eqb_spec sep x) as [<-|Nx];
    destruct (Ascii.eqb_spec sep y) as [<-|Ny]; auto.
  - exfalso. apply Ny. symmetry.
    apply (@tolower_separator sep y Hs). symmetry. exact H.
  - exfalso. apply Nx. symmetry. apply (@tolower_separator sep x Hs). exact H.
Qed.

Lemma paren_opt_no_separator (sep c : ascii) (s : pystr) :
  is_separator sep = true -> is_paren c = true -> paren_opt c s ->
  has_char sep s = false.
Proof.
  intros Hs Hc [->| ->]; [reflexivity|].
  unfold has_char. cbn [existsb]. rewrite orb_false_r.
  destruct (Ascii.eqb_spec sep c) as [<-|]; [|reflexivity].
  apply separator_cases in Hs as [->|[->| ->]]; discriminate.
Qed.

(** The turn of the first loop with the artist pattern. *)
Lemma lone_artist_turn (A B artist_name : pystr) (sep : ascii) :
  Forall (fun x => is_space x = true) A ->
  Forall (fun x => is_space x = true) B ->
  is_separator sep = true ->
  let holds := has_char sep artist_name = true
               /\ exists pre mid post, A ++ sep :: B = pre ++ mid ++ post
                                       /\ ci_eq artist_name mid in
  exists t', remove_junk (A ++ sep :: B)
               (Pattern true (artist_regex artist_name)) = Some t'
    /\ (holds -> Forall (fun x => is_space x = true) t')
    /\ (~ holds -> exists A' B', t' = A' ++ sep :: B'
                     /\ Forall (fun x => is_space x = true) A'
                     /\ Forall (fun x => is_space x = true) B').
Proof.
  intros HA HB Hs holds.
  destruct (search_of_language (@artist_matches_exactly artist_name))
    as [Sound Complete].
  unfold remove_junk.
  destruct (re_search (Pattern true (artist_regex artist_name))
              (A ++ sep :: B)) as [m|] eqn:ES.
  - destruct (Sound _ _ ES)
      as (pre & junk & post & E & (op & mid & cl & Ej & Hop & Hcl & Hci)
          & G & _).
    rewrite G. cbn [bind]. eexists. split; [reflexivity|].
    assert (exists pre0 post0, A ++ sep :: B = pre0 ++ mid ++ post0) as Occ.
    { exists (pre ++ op), (cl ++ post). rewrite E, Ej.
      rewrite <- !app_assoc. reflexivity. }
    destruct (has_char sep artist_name) eqn:Hh.
    + split.
      * intros _. apply (@delete_holding A B junk pre post sep); auto.
        rewrite Ej. apply in_or_app. right. apply in_or_app. left.
        apply has_char_In.
        rewrite <- (@ci_eq_has_separator sep _ _ Hs Hci). exact Hh.
      * intros Hno. exfalso. apply Hno. split; [reflexivity|].
        destruct Occ as (pre0 & post0 & E0). eauto.
    + split.
      * intros [Hf _]. discriminate.
      * intros _. apply delete_sparing; auto.
        rewrite Ej, !has_char_app.
        rewrite (@paren_opt_no_separator sep "(" op Hs eq_refl Hop).
        rewrite (@paren_opt_no_separator sep ")" cl Hs eq_refl Hcl).
        rewrite <- (@ci_eq_has_separator sep _ _ Hs Hci), Hh. reflexivity.
  - exists (A ++ sep :: B). split; [reflexivity|]. split.
    + intros [_ (pre & mid & post & E & Hci)]. exfalso.
      apply (Complete pre mid post).
      * exists [], mid, []. rewrite app_nil_r.
        repeat split; auto; left; reflexivity.
      * rewrite <- E. exact ES.
    + intros _. exists A, B. auto.
Qed.

(** C2 (amended): a title made of one separator character between
    whitespace cleans without raising.  [_replace_junk] returns that
    separator character alone, not the empty string, whenever none of its
    patterns finds something in the title, which is so for the static
    catalog, for no pattern at all and for every album pattern: both
    boundary patterns ask for at least one more character, so the separator
    stays.  [get_clean_title] on an item with such a file name returns the
    empty string when the artist is inferred and the artist name holds the
    separator and occurs in the title, the artist pattern then taking the
    separator away, and the separator character alone in every other
    case. *)
Theorem C2_separator_only_title (W1 W2 : pystr) (sep : ascii) :
  Forall (fun x => is_space x = true) W1 ->
  Forall (fun x => is_space x = true) W2 ->
  is_separator sep = true ->
  let t := W1 ++ sep :: W2 in
  (forall ps, Forall (fun p => re_search p t = None) ps ->
              _replace_junk t ps = Some [sep])
  /\ _replace_junk t YOUTUBE_TITLE_JUNK = Some [sep]
  /\ _replace_junk t [] = Some [sep]
  /\ (forall album_name,
        exists p, remove_album_name_pattern album_name = Some p
                  /\ re_search p t = None)
  /\ (forall self item,
        track_title_from_path (path_of (displayable_path (path item))) = t ->
        let artist_name :=
          artist_name_from_path (path_of (displayable_path (path item))) in
        let taken :=
          infer_artist self = true
          /\ has_char sep artist_name = true
          /\ exists pre mid post, t = pre ++ mid ++ post
                                  /\ ci_eq artist_name mid in
        (taken -> get_clean_title self item = Some [])
        /\ (~ taken -> get_clean_title self item = Some [sep])).
Proof.
  intros H1 H2 Hs t.
  pose proof (@lone_catalog_unmatched W1 W2 sep H1 H2 Hs) as Hcat. fold t in Hcat.
  assert (Forall (fun x => cclass_ok true opening_brackets x = false) t)
    as Hopen.
  { apply Forall_app. split.
    - eapply Forall_impl; [|exact H1]. apply space_not_bracket.
    - constructor; [apply separator_not_bracket, Hs|].
      eapply Forall_impl; [|exact H2]. apply space_not_bracket. }
  split; [intros ps Hps; apply lone_replace_junk; assumption|].
  split; [apply lone_replace_junk; assumption|].
  split; [apply lone_replace_junk; auto|].
  split.
  { intros album_name. eexists.
    split; [apply remove_album_name_pattern_eq|].
    apply album_unmatched, Hopen. }
  intros self item Ht artist_name taken.
  unfold get_clean_title. cbv zeta. rewrite Ht.
  rewrite remove_album_name_pattern_eq, remove_artist_name_pattern_eq.
  fold artist_name.
  assert (forall ps,
            _replace_junk t
              ((if infer_album self
                then [Pattern true
                        (album_regex
                           (album_name_from_path
                              (path_of (displayable_path (path item)))))]
                else []) ++ ps)
            = _replace_junk t ps) as Alb.
  { intros ps. destruct (infer_album self); [|reflexivity].
    cbn [app]. rewrite replace_junk_cons.
    rewrite remove_junk_unmatched by (apply album_unmatched, Hopen).
    reflexivity. }
  assert (forall l : list pattern,
            (album_junk <-
               (if infer_album self
                then pat <- Some (Pattern true
                        (album_regex
                           (album_name_from_path
                              (path_of (displayable_path (path item)))))) ;;
                     Some [pat]
                else Some []) ;;
             artist_junk <-
               (if infer_artist self
                then pat <- Some (Pattern true (artist_regex artist_name)) ;;
                     Some [pat]
                else Some []) ;;
             _replace_junk t (album_junk ++ artist_junk ++ l))
            = _replace_junk t
                ((if infer_artist self
                  then [Pattern true (artist_regex artist_name)] else [])
                 ++ l)) as Shape.
  { intros l. rewrite <- Alb.
    destruct (infer_album self), (infer_artist self); reflexivity. }
  rewrite Shape. clear Shape Alb.
  destruct (infer_artist self) eqn:Hi; cbn [app].
  - rewrite replace_junk_cons. unfold t.
    destruct (@lone_artist_turn W1 W2 artist_name sep H1 H2 Hs)
      as (t' & -> & Yes & No).
    cbn [bind]. split.
    + intros (_ & Hh & Occ).
      apply blank_replace_junk.
      * apply Yes. split; assumption.
      * apply blank_catalog_unmatched, Yes. split; assumption.
    + intros Hno.
      destruct No as (A' & B' & -> & HA' & HB').
      { intros [Hh Occ]. apply Hno. repeat split; assumption. }
      apply lone_replace_junk; auto using lone_catalog_unmatched.
  - split.
    + intros (Hf & _). discriminate.
    + intros _. apply lone_replace_junk; assumption.
Qed.

Lemma C2_witness :
  let t := py " " ++ "-"%char :: py " " in
  (forall ps, Forall (fun p => re_search p t = None) ps ->
              _replace_junk t ps = Some ["-"%char])
  /\ _replace_junk t YOUTUBE_TITLE_JUNK = Some ["-"%char]
  /\ _replace_junk t [] = Some ["-"%char]
  /\ (forall album_name,
        exists p, remove_album_name_pattern album_name = Some p
                  /\ re_search p t = None)
  /\ (forall self item,
        track_title_from_path (path_of (displayable_path (path item))) = t ->
        let artist_name :=
          artist_name_from_path (path_of (displayable_path (path item))) in
        let taken :=
          infer_artist self = true
          /\ has_char "-" artist_name = true
          /\ exists pre mid post, t = pre ++ mid ++ post
                                  /\ ci_eq artist_name mid in
        (taken -> get_clean_title self item = Some [])
        /\ (~ taken -> get_clean_title self item = Some ["-"%char])).
Proof.
  apply (@C2_separator_only_title (py " ") (py " ") "-"%char).
  - repeat constructor.
  - repeat constructor.
  - reflexivity.
Defined.

(** C2 as stated fails: " - " does not clean to the empty string, neither
    in [_replace_junk] with the catalog nor in [get_clean_title] with both
    inferences on. *)
Lemma C2_counterexample :
  _replace_junk (py " - ") YOUTUBE_TITLE_JUNK <> Some []
  /\ get_clean_title (MkPlugin true true)
       (MkItem (py "Artist/Album/ - .mp3") [] [] [] []) = Some (py "-")
  /\ get_clean_title (MkPlugin true true)
       (MkItem (py "Artist/Album/ - .mp3") [] [] [] []) <> Some [].
Proof. vm_compute. repeat split; discriminate. Qed.

(** The other case, on a path: the artist directory is the separator. *)
Lemma lone_separator_taken_example :
  get_clean_title (MkPlugin true true)
    (MkItem (py "-/Album/ - .mp3") [] [] [] []) = Some [].
Proof. vm_compute. reflexivity. Qed.
